(** * docspec: the layout engine of michaelhelvey/docspec, embedded in Rocq

    The development follows the Go sources file by file:
    - [docspec.go]      Size, Page, Document, addPage, addNode,
                        setDocumentRendererContext, CreateDocumentTree;
    - [errors.go]       invariantViolation;
    - [layout_node.go]  LayoutNode, Clone, the bounding / render / draw rects,
                        mergeProps, Div, Text, Image;
    - the futures file  Future, await and the size rules (two listings of
                        this file exist; their rules differ);
    - [resolver.go]     recursiveSetPositions, resolveNodeRectPositions, and
                        the string helpers of the PDF renderer
                        (imageTypeFromFileName, borderStringFromBooleanQuad).

    [Size] is Go's [float64]; it is modelled by Rocq's primitive binary64
    floats, so every arithmetic expression below is the one of the source,
    with the source's grouping.

    Nodes and pages live on the Go heap and are reached through pointers
    (parent back-references, the owner of a future, the page of a top-level
    node).  The heap is modelled as two stores indexed by address; a pointer
    is an [option] of an address, [None] being [nil]. *)

From Stdlib Require Import ZArith List String Ascii Floats SpecFloat Lia Bool.
From stdpp Require Import base list.
Import ListNotations.

Local Open Scope float_scope.

(* ================================================================== *)
(** ** docspec.go / layout_node.go: supporting types                   *)
(* ================================================================== *)

(** [type Size = float64] *)
Definition Size : Set := float.

(** [const emptySize Size = 0.0] *)
Definition emptySize : Size := 0.

(** [type Rect struct { width, height Size }] *)
Record Rect : Set := mkRect { width : Size; height : Size }.

(** [type SizesQuad struct { left, right, top, bottom Size }].  The fields
    carry a prefix: [left] and [right] name constructors of the standard
    library. *)
Record SizesQuad : Set :=
  mkSizesQuad { qleft : Size; qright : Size; qtop : Size; qbottom : Size }.

(** [NewSizeQuad(top, right, bottom, left)] *)
Definition NewSizeQuad (t r b l : Size) : SizesQuad :=
  {| qleft := l; qright := r; qtop := t; qbottom := b |}.

(** [NewSingletonSizeQuad(value)] *)
Definition NewSingletonSizeQuad (v : Size) : SizesQuad :=
  {| qleft := v; qright := v; qtop := v; qbottom := v |}.

(** [type BooleanQuad struct { left, right, top, bottom bool }] *)
Record BooleanQuad : Set :=
  mkBooleanQuad { bleft : bool; bright : bool; btop : bool; bbottom : bool }.

(** [type Color struct { r, g, b int }] *)
Record Color : Set := mkColor { cr : Z; cg : Z; cb : Z }.

(** [type childFlowDirection int], with [FlowVertical = iota] and
    [FlowHorizontal].  The type stays an integer: the resolver has a branch
    for values outside the two constants. *)
Definition childFlowDirection : Set := Z.
Definition FlowVertical : childFlowDirection := 0%Z.
Definition FlowHorizontal : childFlowDirection := 1%Z.

(** [type childAlignment int], with [Start], [End], [Center] in that order. *)
Definition childAlignment : Set := Z.
Definition Start : childAlignment := 0%Z.
Definition End_ : childAlignment := 1%Z.
Definition Center : childAlignment := 2%Z.

(** [type LayoutChildAlignment struct { Vertical, Horizontal childAlignment }] *)
Record LayoutChildAlignment : Set :=
  mkAlign { Vertical : childAlignment; Horizontal : childAlignment }.

(** visual_node.go: the two leaf payloads.  Only the fields that identify
    the content are kept; the layout core never inspects them. *)
Record TextNode : Set :=
  mkTextNode { Text : string; FontSize : Size; LineHeight : Size }.

Record ImageNode : Set := mkImageNode { Src : string }.

(** [VisualNode interface{}]: [nil], a [TextNode] or an [ImageNode]. *)
Inductive visual : Set :=
| VText (t : TextNode)
| VImage (i : ImageNode).

(** The part of the [DocumentRenderer] interface the sizing rules call. *)
Record DocumentRenderer : Set :=
  mkRenderer { GetInherentTextRect : TextNode -> Rect }.

(* ================================================================== *)
(** ** errors.go                                                       *)
(* ================================================================== *)

(** A Go [error] is a message.  Messages built with a [%f] or [%+v] verb
    keep their arguments instead of the formatted text. *)
Inductive error : Set :=
| Errorf (msg : string)
| ErrTopLevelTooTall (nodeHeight pageHeight : Size)
| ErrUnhandledFlow (d : childFlowDirection).

Definition errMsgPrefix : string := "[docspec]:".

(** [fmt.Errorf("%s %s", errMsgPrefix(), msg)] *)
Definition invariantViolation (msg : string) : error :=
  Errorf (errMsgPrefix ++ " " ++ msg).

(** The result of running a piece of Go code: a value, a returned [error],
    a run-time panic (nil dereference, failed type assertion, index out of
    range), or the exhaustion of the evaluation fuel, which stands for Go's
    unbounded recursion on a cyclic size dependency. *)
Inductive outcome (A : Type) : Type :=
| Ret (a : A)
| Fail (e : error)
| Panic
| Diverge.

Arguments Ret {A} a.
Arguments Fail {A} e.
Arguments Panic {A}.
Arguments Diverge {A}.

Definition bind {A B : Type} (m : outcome A) (k : A -> outcome B) : outcome B :=
  match m with
  | Ret a => k a
  | Fail e => Fail e
  | Panic => Panic
  | Diverge => Diverge
  end.

Notation "x <- m ;; k" := (bind m (fun x => k))
  (at level 100, m at next level, right associativity).

(** Does the computation hand an [error] back to its caller? *)
Definition failed {A : Type} (m : outcome A) : Prop :=
  exists e, m = Fail e.

(* ================================================================== *)
(** ** The futures file: the Future data type                          *)
(* ================================================================== *)

(** [type futureState = int], [futureIncomplete = iota], [futureComplete]. *)
Inductive futureState : Set := futureIncomplete | futureComplete.

(** The values a [futureDefinition] function pointer takes in the package:
    the seven rule functions. *)
Inductive futureDefinition : Set :=
| fn_identityFutureDefinition
| fn_heightAsChildren
| fn_widthAsChildren
| fn_heightFill
| fn_widthFill
| fn_widthPercentage
| fn_heightPercentage.

(** Addresses of nodes and of pages in the two stores. *)
Abbreviation naddr := nat (only parsing).
Abbreviation paddr := nat (only parsing).

(** [type Future struct].  [params] is an [interface{}] that holds [nil] or
    a [Size]; [definition] is [nil] in a zero-valued Future; [node] is the
    owner back-reference. *)
Record Future : Set := mkFuture {
  value : Size;
  state : futureState;
  definition : option futureDefinition;
  params : option Size;
  node : option naddr
}.

Definition newIncompleteFuture (def : futureDefinition) (p : option Size) : Future :=
  {| value := emptySize; state := futureIncomplete;
     definition := Some def; params := p; node := None |}.

Definition newCompleteFuture (v : Size) : Future :=
  {| value := v; state := futureComplete;
     definition := Some fn_identityFutureDefinition; params := Some v;
     node := None |}.

(** The exported constructors. *)
Definition HeightPercentage (p : Size) : Future :=
  newIncompleteFuture fn_heightPercentage (Some p).
Definition WidthPercentage (p : Size) : Future :=
  newIncompleteFuture fn_widthPercentage (Some p).
Definition HeightAsChildren : Future := newIncompleteFuture fn_heightAsChildren None.
Definition WidthAsChildren : Future := newIncompleteFuture fn_widthAsChildren None.
Definition HeightFill : Future := newIncompleteFuture fn_heightFill None.
Definition WidthFill : Future := newIncompleteFuture fn_widthFill None.
Definition StaticSize (s : Size) : Future := newCompleteFuture s.

(** [newNode.Width.node = newNode]: the binding every node constructor does. *)
Definition bindTo (a : naddr) (f : Future) : Future :=
  {| value := value f; state := state f; definition := definition f;
     params := params f; node := Some a |}.

(* ================================================================== *)
(** ** layout_node.go / docspec.go: nodes, pages, the heap             *)
(* ================================================================== *)

(** [type LayoutNode struct]; [rendererContext] is the field docspec.go
    sets in [setDocumentRendererContext].  [OnPage] is the field [Page] of
    the source, whose name the type of pages takes.  [ID] is the field the
    listing with leaf delegation prints with [%s] in its orphan errors; the
    struct declaration of layout_node.go does not list it, no function of
    the sources assigns it, and a composite literal leaves it empty. *)
Record LayoutNode : Set := mkNode {
  Children : list naddr;
  VisualNode : option visual;
  Parent : option naddr;
  OnPage : option paddr;
  X : Size;
  Y : Size;
  Width : Future;
  Height : Future;
  Border : BooleanQuad;
  BorderColor : Color;
  ShowFill : bool;
  FillColor : Color;
  Padding : SizesQuad;
  Margin : SizesQuad;
  ChildAlignment : LayoutChildAlignment;
  ChildFlowDirection : childFlowDirection;
  rendererContext : option DocumentRenderer;
  ID : string
}.

(** [type Page struct], the fields prefixed to keep them apart from those
    of [LayoutNode]. *)
Record Page : Set := mkPage {
  PageChildren : list naddr;
  PageWidth : Size;
  PageHeight : Size;
  PageMargin : SizesQuad
}.

(** [type Document struct { Children []*Page }] *)
Record Document : Set := mkDocument { DocChildren : list paddr }.

Record Heap : Set := mkHeap { nodes : list LayoutNode; pages : list Page }.

(** Dereferencing a pointer; an address outside the store cannot arise in
    Go and is reported as a panic. *)
Definition deref (h : Heap) (a : naddr) : outcome LayoutNode :=
  match nodes h !! a with
  | Some n => Ret n
  | None => Panic
  end.

Definition derefPage (h : Heap) (p : paddr) : outcome Page :=
  match pages h !! p with
  | Some pg => Ret pg
  | None => Panic
  end.

(** [func (p *Page) getDrawRect() Rect] *)
Definition Page_getDrawRect (p : Page) : Rect :=
  mkRect (PageWidth p - (qleft (PageMargin p) + qright (PageMargin p)))
         (PageHeight p - (qtop (PageMargin p) + qbottom (PageMargin p))).

(** [params.(Size)]: the type assertion panics on a [nil] interface. *)
Definition assertSize (p : option Size) : outcome Size :=
  match p with
  | Some s => Ret s
  | None => Panic
  end.

(** ** The derived rects and the size rules, over an [await] callback

    Every rule reaches other futures only through [await]; the rules are
    written over that callback and the knot is tied by [await] below. *)
Section Rules.

Variable aw : Future -> outcome Size.
Variable h : Heap.

(** [func (n LayoutNode) getBoundingRect() (Rect, error)] *)
Definition getBoundingRect (n : LayoutNode) : outcome Rect :=
  w <- aw (Width n) ;;
  ht <- aw (Height n) ;;
  Ret (mkRect (w + (qleft (Margin n) + qright (Margin n)))
              (ht + (qtop (Margin n) + qbottom (Margin n)))).

(** [func (n LayoutNode) getRenderRect() (Rect, error)] *)
Definition getRenderRect (n : LayoutNode) : outcome Rect :=
  w <- aw (Width n) ;;
  ht <- aw (Height n) ;;
  Ret (mkRect w ht).

(** [func (n LayoutNode) getDrawRect() (Rect, error)].  On an error of
    either [await] the source returns [Rect{}, nil]. *)
Definition getDrawRect (n : LayoutNode) : outcome Rect :=
  match aw (Width n) with
  | Fail _ => Ret (mkRect 0 0)
  | Panic => Panic
  | Diverge => Diverge
  | Ret w =>
      match aw (Height n) with
      | Fail _ => Ret (mkRect 0 0)
      | Panic => Panic
      | Diverge => Diverge
      | Ret ht =>
          Ret (mkRect (w - (qleft (Padding n) + qright (Padding n)))
                      (ht - (qtop (Padding n) + qbottom (Padding n))))
      end
  end.

(** [identityFutureDefinition] *)
Definition identityFutureDefinition (nd : naddr) (p : option Size) : outcome Size :=
  assertSize p.

(** The first lines of [widthPercentage] and [heightPercentage]: the draw
    rect of the parent node, else of the page, else the zero [Rect]. *)
Definition parentDrawRectOf (n : LayoutNode) : outcome Rect :=
  match Parent n with
  | Some p => pn <- deref h p ;; getDrawRect pn
  | None =>
      match OnPage n with
      | Some pg => pv <- derefPage h pg ;; Ret (Page_getDrawRect pv)
      | None => Ret (mkRect 0 0)
      end
  end.

(** [widthPercentage] *)
Definition widthPercentage (nd : naddr) (p : option Size) : outcome Size :=
  n <- deref h nd ;;
  parentDrawRect <- parentDrawRectOf n ;;
  if width parentDrawRect =? 0 then
    Fail (invariantViolation "orphan node: parent is nil or has width of 0")
  else
    percentage <- assertSize p ;;
    Ret (width parentDrawRect * (percentage / 100)).

(** [heightPercentage] *)
Definition heightPercentage (nd : naddr) (p : option Size) : outcome Size :=
  n <- deref h nd ;;
  parentDrawRect <- parentDrawRectOf n ;;
  if height parentDrawRect =? 0 then
    Fail (invariantViolation "orphan node: parent is nil or has height of 0")
  else
    percentage <- assertSize p ;;
    Ret (height parentDrawRect * (percentage / 100)).

(** The first lines of [widthFill] and [heightFill]: the parent's draw
    rect, the sibling list and the flow direction, from the parent node,
    else from the page (whose flow is vertical), else the zero values. *)
Definition fillContext (n : LayoutNode)
  : outcome (Rect * list naddr * childFlowDirection) :=
  match Parent n with
  | Some p =>
      pn <- deref h p ;;
      r <- getDrawRect pn ;;
      Ret (r, Children pn, ChildFlowDirection pn)
  | None =>
      match OnPage n with
      | Some pg =>
          pv <- derefPage h pg ;;
          Ret (Page_getDrawRect pv, PageChildren pv, FlowVertical)
      | None => Ret (mkRect 0 0, [], 0%Z)
      end
  end.

(** The sibling loop of the fill rules: the bounding extents of every
    sibling other than [nd], added left to right onto [acc]. *)
Fixpoint siblingExtents (ext : Rect -> Size) (nd : naddr)
         (siblings : list naddr) (acc : Size) : outcome Size :=
  match siblings with
  | [] => Ret acc
  | s :: rest =>
      if Nat.eqb s nd then siblingExtents ext nd rest acc
      else
        sn <- deref h s ;;
        r <- getBoundingRect sn ;;
        siblingExtents ext nd rest (acc + ext r)
  end.

(** [heightFill] *)
Definition heightFill (nd : naddr) (p : option Size) : outcome Size :=
  n <- deref h nd ;;
  ctx <- fillContext n ;;
  let '(parentDrawRect, siblings, flowDirection) := ctx in
  let parentHeight := height parentDrawRect in
  if parentHeight =? emptySize then
    Fail (invariantViolation "orphan node: parent is nil or has height of 0")
  else if Z.eqb flowDirection FlowHorizontal then
    heightPercentage nd (Some 100)
  else
    siblingHeights <- siblingExtents height nd siblings emptySize ;;
    Ret (parentHeight - siblingHeights - (qtop (Margin n) + qbottom (Margin n))).

(** [widthFill] *)
Definition widthFill (nd : naddr) (p : option Size) : outcome Size :=
  n <- deref h nd ;;
  ctx <- fillContext n ;;
  let '(parentDrawRect, siblings, flowDirection) := ctx in
  let parentWidth := width parentDrawRect in
  if parentWidth =? emptySize then
    Fail (invariantViolation "orphan node: parent is nil or has width of 0")
  else if Z.eqb flowDirection FlowVertical then
    widthPercentage nd (Some 100)
  else
    siblingWidths <- siblingExtents width nd siblings emptySize ;;
    Ret (parentWidth - siblingWidths - (qleft (Margin n) + qright (Margin n))).

End Rules.

(* ================================================================== *)
(** ** The intrinsic rules                                             *)
(* ================================================================== *)

(** The repository holds two listings of the futures file.  They agree on
    [Future], [await] and [identityFutureDefinition], and differ in every
    other rule.  One listing reads a node through [getDrawRect] and
    [getBoundingRect] of layout_node.go: its fill and percentage rules are
    the ones above, its intrinsic rules are in [PlainSum].  The other reads
    a node through [getDrawHeight], [getDrawWidth], [getBoundingHeight] and
    [getBoundingWidth]: all its rules are in [Intrinsic]. *)

(** The listing that calls [getDrawRect] and [getBoundingRect]: the
    intrinsic size is the plain sum of the children's awaited sizes. *)
Module PlainSum.
Section Rules.

Variable aw : Future -> outcome Size.
Variable h : Heap.

Fixpoint sumAwaited (field : LayoutNode -> Future)
         (children : list naddr) (acc : Size) : outcome Size :=
  match children with
  | [] => Ret acc
  | c :: rest =>
      cn <- deref h c ;;
      v <- aw (field cn) ;;
      sumAwaited field rest (acc + v)
  end.

Definition heightAsChildren (nd : naddr) (p : option Size) : outcome Size :=
  n <- deref h nd ;;
  sumAwaited Height (Children n) emptySize.

Definition widthAsChildren (nd : naddr) (p : option Size) : outcome Size :=
  n <- deref h nd ;;
  sumAwaited Width (Children n) emptySize.

End Rules.
End PlainSum.

(** The listing with leaf delegation, flow direction and padding.  Its
    helpers [getDrawHeight], [getDrawWidth], [getBoundingHeight] and
    [getBoundingWidth] are methods of [LayoutNode] that the available
    layout_node.go does not define. *)
Module Intrinsic.
Section Rules.

Variable aw : Future -> outcome Size.
Variable h : Heap.

(** Modelled from the spec: [getBoundingHeight], missing from
    layout_node.go.  "bounding rect = render rect expanded by margin on
    all sides", with the grouping [getBoundingRect] uses; a failure of
    the awaited height is returned to the caller. *)
Definition getBoundingHeight (n : LayoutNode) : outcome Size :=
  ht <- aw (Height n) ;;
  Ret (ht + (qtop (Margin n) + qbottom (Margin n))).

(** Modelled from the spec: [getBoundingWidth], missing from
    layout_node.go; as [getBoundingHeight], on the other axis. *)
Definition getBoundingWidth (n : LayoutNode) : outcome Size :=
  w <- aw (Width n) ;;
  Ret (w + (qleft (Margin n) + qright (Margin n))).

(** [for _, child := range node.Children { ...; result += height }] *)
Fixpoint sumExtents (ext : LayoutNode -> outcome Size)
         (children : list naddr) (acc : Size) : outcome Size :=
  match children with
  | [] => Ret acc
  | c :: rest =>
      cn <- deref h c ;;
      v <- ext cn ;;
      sumExtents ext rest (acc + v)
  end.

(** [for _, child := range node.Children { ...; if height > tallest
    { tallest = height } }] *)
Fixpoint maxExtents (ext : LayoutNode -> outcome Size)
         (children : list naddr) (acc : Size) : outcome Size :=
  match children with
  | [] => Ret acc
  | c :: rest =>
      cn <- deref h c ;;
      v <- ext cn ;;
      maxExtents ext rest (if acc <? v then v else acc)
  end.

(** [len(node.Children) == 1 && node.Children[0].VisualNode != nil]:
    the single child and its payload when the test holds. *)
Definition wrappedVisual (n : LayoutNode) : outcome (option (LayoutNode * visual)) :=
  match Children n with
  | [c] =>
      cn <- deref h c ;;
      match VisualNode cn with
      | Some v => Ret (Some (cn, v))
      | None => Ret None
      end
  | _ => Ret None
  end.

(** [childNode.rendererContext.GetInherentTextRect(...)]; calling a method
    of a nil interface panics. *)
Definition inherentTextRect (cn : LayoutNode) (t : TextNode) : outcome Rect :=
  match rendererContext cn with
  | Some r => Ret (GetInherentTextRect r t)
  | None => Panic
  end.

Definition heightAsChildren (nd : naddr) (p : option Size) : outcome Size :=
  n <- deref h nd ;;
  leaf <- wrappedVisual n ;;
  match leaf with
  | Some (cn, VText t) =>
      r <- inherentTextRect cn t ;;
      Ret (height r + qtop (Padding n) + qbottom (Padding n))
  | Some (_, _) =>
      Fail (Errorf "requested height as children, but reached a leaf node with no inherent height")
  | None =>
      if Z.eqb (ChildFlowDirection n) FlowHorizontal then
        tallest <- maxExtents getBoundingHeight (Children n) 0 ;;
        Ret (tallest + qtop (Padding n) + qbottom (Padding n))
      else
        result <- sumExtents getBoundingHeight (Children n) emptySize ;;
        Ret (result + qtop (Padding n) + qbottom (Padding n))
  end.

Definition widthAsChildren (nd : naddr) (p : option Size) : outcome Size :=
  n <- deref h nd ;;
  leaf <- wrappedVisual n ;;
  match leaf with
  | Some (cn, VText t) =>
      r <- inherentTextRect cn t ;;
      Ret (width r + qleft (Padding n) + qright (Padding n))
  | Some (_, _) =>
      Fail (Errorf "requested width as children, but reached a leaf node with no inherent height")
  | None =>
      if Z.eqb (ChildFlowDirection n) FlowVertical then
        widest <- maxExtents getBoundingWidth (Children n) 0 ;;
        Ret (widest + qleft (Padding n) + qright (Padding n))
      else
        result <- sumExtents getBoundingWidth (Children n) emptySize ;;
        Ret (result + qleft (Padding n) + qright (Padding n))
  end.

(** Modelled from the spec: [getDrawHeight], missing from layout_node.go.
    "draw rect = render rect shrunk by padding on all sides", with the
    grouping [getDrawRect] uses; a failure of the awaited height is
    returned to the caller, which tests it. *)
Definition getDrawHeight (n : LayoutNode) : outcome Size :=
  ht <- aw (Height n) ;;
  Ret (ht - (qtop (Padding n) + qbottom (Padding n))).

(** Modelled from the spec: [getDrawWidth], missing from layout_node.go;
    as [getDrawHeight], on the other axis. *)
Definition getDrawWidth (n : LayoutNode) : outcome Size :=
  w <- aw (Width n) ;;
  Ret (w - (qleft (Padding n) + qright (Padding n))).

(** [fmt.Errorf("orphan node(%s): parent has height of 0", node.ID)] *)
Definition orphanHeightOf (n : LayoutNode) : error :=
  Errorf ("orphan node(" ++ ID n ++ "): parent has height of 0").

(** [fmt.Errorf("orphan node(%s): parent has width of 0", node.ID)] *)
Definition orphanWidthOf (n : LayoutNode) : error :=
  Errorf ("orphan node(" ++ ID n ++ "): parent has width of 0").

(** The first lines of the percentage rules: the draw extent of the parent
    node, else of the page, else the zero [Size]. *)
Definition parentDrawExtent (drawExtent : LayoutNode -> outcome Size)
           (pageExtent : Rect -> Size) (n : LayoutNode) : outcome Size :=
  match Parent n with
  | Some pa => pn <- deref h pa ;; drawExtent pn
  | None =>
      match OnPage n with
      | Some pg => pv <- derefPage h pg ;; Ret (pageExtent (Page_getDrawRect pv))
      | None => Ret 0
      end
  end.

(** [widthPercentage] *)
Definition widthPercentage (nd : naddr) (p : option Size) : outcome Size :=
  n <- deref h nd ;;
  parentDrawWidth <- parentDrawExtent getDrawWidth width n ;;
  if parentDrawWidth =? 0 then Fail (orphanWidthOf n)
  else
    percentage <- assertSize p ;;
    Ret (parentDrawWidth * (percentage / 100)).

(** [heightPercentage] *)
Definition heightPercentage (nd : naddr) (p : option Size) : outcome Size :=
  n <- deref h nd ;;
  parentDrawHeight <- parentDrawExtent getDrawHeight height n ;;
  if parentDrawHeight =? 0 then Fail (orphanHeightOf n)
  else
    percentage <- assertSize p ;;
    Ret (parentDrawHeight * (percentage / 100)).

(** The first lines of the fill rules: the parent's draw extent, the
    sibling list and the flow direction, from the parent node, else from
    the page (whose flow is vertical), else the zero values. *)
Definition fillContext (drawExtent : LayoutNode -> outcome Size)
           (pageExtent : Rect -> Size) (n : LayoutNode)
  : outcome (Size * list naddr * childFlowDirection) :=
  match Parent n with
  | Some pa =>
      pn <- deref h pa ;;
      e <- drawExtent pn ;;
      Ret (e, Children pn, ChildFlowDirection pn)
  | None =>
      match OnPage n with
      | Some pg =>
          pv <- derefPage h pg ;;
          Ret (pageExtent (Page_getDrawRect pv), PageChildren pv, FlowVertical)
      | None => Ret (emptySize, [], 0%Z)
      end
  end.

(** The sibling loop of the fill rules: the bounding extents of every
    sibling other than [nd], added left to right onto [acc]. *)
Fixpoint siblingExtents (ext : LayoutNode -> outcome Size) (nd : naddr)
         (siblings : list naddr) (acc : Size) : outcome Size :=
  match siblings with
  | [] => Ret acc
  | s :: rest =>
      if Nat.eqb s nd then siblingExtents ext nd rest acc
      else
        sn <- deref h s ;;
        v <- ext sn ;;
        siblingExtents ext nd rest (acc + v)
  end.

(** [heightFill] *)
Definition heightFill (nd : naddr) (p : option Size) : outcome Size :=
  n <- deref h nd ;;
  ctx <- fillContext getDrawHeight height n ;;
  let '(parentHeight, siblings, flowDirection) := ctx in
  if parentHeight =? emptySize then Fail (orphanHeightOf n)
  else if Z.eqb flowDirection FlowHorizontal then
    heightPercentage nd (Some 100)
  else
    siblingHeights <- siblingExtents getBoundingHeight nd siblings emptySize ;;
    Ret (parentHeight - siblingHeights - (qtop (Margin n) + qbottom (Margin n))).

(** [widthFill] *)
Definition widthFill (nd : naddr) (p : option Size) : outcome Size :=
  n <- deref h nd ;;
  ctx <- fillContext getDrawWidth width n ;;
  let '(parentWidth, siblings, flowDirection) := ctx in
  if parentWidth =? emptySize then Fail (orphanWidthOf n)
  else if Z.eqb flowDirection FlowVertical then
    widthPercentage nd (Some 100)
  else
    siblingWidths <- siblingExtents getBoundingWidth nd siblings emptySize ;;
    Ret (parentWidth - siblingWidths - (qleft (Margin n) + qright (Margin n))).

End Rules.
End Intrinsic.

(* ================================================================== *)
(** ** await                                                           *)
(* ================================================================== *)

(** What a [futureDefinition] pointer calls, given the [await] it may use. *)
Definition ruleTable : Type :=
  futureDefinition -> (Future -> outcome Size) -> Heap ->
  naddr -> option Size -> outcome Size.

(** The rules of the listing over [getDrawRect] and [getBoundingRect]
    other than its intrinsic rules. *)
Definition sharedRule (d : futureDefinition) (aw : Future -> outcome Size)
           (h : Heap) (nd : naddr) (p : option Size) : option (outcome Size) :=
  match d with
  | fn_identityFutureDefinition => Some (identityFutureDefinition nd p)
  | fn_heightFill => Some (heightFill aw h nd p)
  | fn_widthFill => Some (widthFill aw h nd p)
  | fn_widthPercentage => Some (widthPercentage aw h nd p)
  | fn_heightPercentage => Some (heightPercentage aw h nd p)
  | fn_heightAsChildren | fn_widthAsChildren => None
  end.

(** The rules of the listing over [getDrawRect] and [getBoundingRect]. *)
Definition plainSumRules : ruleTable := fun d aw h nd p =>
  match sharedRule d aw h nd p with
  | Some r => r
  | None =>
      match d with
      | fn_widthAsChildren => PlainSum.widthAsChildren aw h nd p
      | _ => PlainSum.heightAsChildren aw h nd p
      end
  end.

(** The rules of the listing with leaf delegation. *)
Definition intrinsicRules : ruleTable := fun d aw h nd p =>
  match d with
  | fn_identityFutureDefinition => identityFutureDefinition nd p
  | fn_heightAsChildren => Intrinsic.heightAsChildren aw h nd p
  | fn_widthAsChildren => Intrinsic.widthAsChildren aw h nd p
  | fn_heightFill => Intrinsic.heightFill aw h nd p
  | fn_widthFill => Intrinsic.widthFill aw h nd p
  | fn_widthPercentage => Intrinsic.widthPercentage aw h nd p
  | fn_heightPercentage => Intrinsic.heightPercentage aw h nd p
  end.

Definition nilNodeMsg : string :=
  "future's node is nil.  This indicates an error in a constructor for LayoutNode, as a LayoutNode constructor should always assign the node to each future in the node".

(** [func (f *Future) await() (Size, error)].  The call through
    [f.definition] is the only recursion of the sizing engine; it consumes
    one unit of fuel.  A nil [definition] panics when called. *)
Fixpoint await (R : ruleTable) (fuel : nat) (h : Heap) (f : Future) : outcome Size :=
  match node f with
  | None => Fail (invariantViolation nilNodeMsg)
  | Some nd =>
      match state f with
      | futureComplete => Ret (value f)
      | futureIncomplete =>
          match fuel with
          | O => Diverge
          | S k =>
              match definition f with
              | Some d => R d (await R k h) h nd (params f)
              | None => Panic
              end
          end
      end
  end.

(** [func (f *Future) isKnown() bool] *)
Definition isKnown (f : Future) : bool :=
  match state f with
  | futureComplete => true
  | futureIncomplete => false
  end.

(* ================================================================== *)
(** ** resolver.go: recursiveSetPositions                              *)
(* ================================================================== *)

(** [type resolverCursor struct { x, y Size }], the fields prefixed. *)
Record resolverCursor : Set := mkCursor { cx : Size; cy : Size }.

(** The resolver writes [X] and [Y] of nodes on the heap and moves the
    cursor its caller owns; both survive an error return.  A resolver step
    is a function from that state to a result and the state it leaves. *)
Definition RState : Set := (Heap * resolverCursor)%type.
Definition step (A : Type) : Type := RState -> outcome A * RState.

(** [child.X = x; child.Y = y] *)
Definition withPosition (n : LayoutNode) (x y : Size) : LayoutNode :=
  {| Children := Children n; VisualNode := VisualNode n; Parent := Parent n;
     OnPage := OnPage n; X := x; Y := y; Width := Width n; Height := Height n;
     Border := Border n; BorderColor := BorderColor n; ShowFill := ShowFill n;
     FillColor := FillColor n; Padding := Padding n; Margin := Margin n;
     ChildAlignment := ChildAlignment n;
     ChildFlowDirection := ChildFlowDirection n;
     rendererContext := rendererContext n; ID := ID n |}.

Definition setPosition (h : Heap) (a : naddr) (x y : Size) : outcome Heap :=
  match nodes h !! a with
  | Some n => Ret (mkHeap (<[a := withPosition n x y]> (nodes h)) (pages h))
  | None => Panic
  end.

(** The two sums measured before the children are placed. *)
Fixpoint fullChildrenExtents (aw : Future -> outcome Size) (h : Heap)
         (children : list naddr) (fullW fullH : Size) : outcome (Size * Size) :=
  match children with
  | [] => Ret (fullW, fullH)
  | c :: rest =>
      cn <- deref h c ;;
      cbr <- getBoundingRect aw cn ;;
      fullChildrenExtents aw h rest (fullW + width cbr) (fullH + height cbr)
  end.

(** The [if FlowVertical ... else if FlowHorizontal ... else] block: where
    the first child goes, from a cursor that already stands at the top left
    corner of the parent's draw rect. *)
Definition startOffset (flow : childFlowDirection) (al : LayoutChildAlignment)
           (parentDrawRect childBoundingRect : Rect)
           (fullChildrenWidth fullChildrenHeight : Size)
           (firstMargin : SizesQuad) (cur : resolverCursor)
  : outcome resolverCursor :=
  if Z.eqb flow FlowVertical then
    let x :=
      if Z.eqb (Horizontal al) Start then cx cur + qleft firstMargin
      else if Z.eqb (Horizontal al) End_ then
        cx cur + (width parentDrawRect - width childBoundingRect)
      else if Z.eqb (Horizontal al) Center then
        cx cur + (width parentDrawRect / 2 - width childBoundingRect / 2)
      else cx cur in
    let y :=
      if Z.eqb (Vertical al) Start then cy cur + qtop firstMargin
      else if Z.eqb (Vertical al) End_ then
        cy cur + (height parentDrawRect - fullChildrenHeight)
      else if Z.eqb (Vertical al) Center then
        cy cur + (height parentDrawRect - fullChildrenHeight) / 2
      else cy cur in
    Ret (mkCursor x y)
  else if Z.eqb flow FlowHorizontal then
    let x :=
      if Z.eqb (Horizontal al) Start then cx cur + qleft firstMargin
      else if Z.eqb (Horizontal al) End_ then
        cx cur + (width parentDrawRect - fullChildrenWidth)
      else if Z.eqb (Horizontal al) Center then
        cx cur + (width parentDrawRect - fullChildrenWidth) / 2
      else cx cur in
    let y :=
      if Z.eqb (Vertical al) Start then cy cur + qtop firstMargin
      else if Z.eqb (Vertical al) End_ then
        cy cur + (height parentDrawRect - height childBoundingRect)
      else if Z.eqb (Vertical al) Center then
        cy cur + (height parentDrawRect - height childBoundingRect) / 2
      else cy cur in
    Ret (mkCursor x y)
  else Fail (ErrUnhandledFlow flow).

(** The body of [if idx != len(node.Children)-1]: the move from a placed
    child to its next sibling. *)
Definition advanceCursor (flow : childFlowDirection) (al : LayoutChildAlignment)
           (childBoundingRect nextBoundingRect : Rect)
           (nextMargin : SizesQuad) (cur : resolverCursor) : resolverCursor :=
  let diffW := width childBoundingRect - width nextBoundingRect in
  let diffH := height childBoundingRect - height nextBoundingRect in
  if Z.eqb flow FlowHorizontal then
    let x := cx cur + (width childBoundingRect + qleft nextMargin) in
    if Z.eqb (Vertical al) Start then mkCursor x (cy cur)
    else if Z.eqb (Vertical al) End_ then mkCursor x (cy cur + diffH)
    else if Z.eqb (Vertical al) Center then mkCursor x (cy cur + diffH / 2)
    else mkCursor x (cy cur)
  else if Z.eqb flow FlowVertical then
    let y := cy cur + (height childBoundingRect + qtop nextMargin) in
    if Z.eqb (Horizontal al) Start then mkCursor (cx cur) y
    else if Z.eqb (Horizontal al) End_ then mkCursor (cx cur + diffW) y
    else if Z.eqb (Horizontal al) Center then mkCursor (cx cur + diffW / 2) y
    else mkCursor (cx cur) y
  else cur.

(** [childBoundingRect, err = child.getBoundingRect()] inside the loop: the
    error is assigned and never tested, so a failure leaves the zero
    [Rect] in [childBoundingRect] and the loop goes on. *)
Definition uncheckedBoundingRect (aw : Future -> outcome Size) (n : LayoutNode)
  : outcome Rect :=
  match getBoundingRect aw n with
  | Fail _ => Ret (mkRect 0 0)
  | r => r
  end.

Section Positions.

(** [await] as the resolver sees it: on the heap of the moment. *)
Variable aw : Heap -> Future -> outcome Size.

(** The [for idx, child := range node.Children] loop.  [rec] is the
    recursive call; [flow] and [al] are the parent's fields, which the
    loop never writes. *)
Fixpoint positionChildren (rec : naddr -> step unit)
         (flow : childFlowDirection) (al : LayoutChildAlignment)
         (children : list naddr) : step unit :=
  fun st =>
    match children with
    | [] => (Ret tt, st)
    | child :: rest =>
        let '(h, cur) := st in
        match setPosition h child (cx cur) (cy cur) with
        | Ret h1 =>
            match rec child (h1, cur) with
            | (Ret _, (h2, cur2)) =>
                match (cn <- deref h2 child ;; uncheckedBoundingRect (aw h2) cn) with
                | Ret childBoundingRect =>
                    match rest with
                    | [] => (Ret tt, (h2, cur2))
                    | next :: _ =>
                        match (nn <- deref h2 next ;;
                               nbr <- getBoundingRect (aw h2) nn ;;
                               Ret (nbr, Margin nn)) with
                        | Ret (nextBoundingRect, nextMargin) =>
                            positionChildren rec flow al rest
                              (h2, advanceCursor flow al childBoundingRect
                                     nextBoundingRect nextMargin cur2)
                        | Fail e => (Fail e, (h2, cur2))
                        | Panic => (Panic, (h2, cur2))
                        | Diverge => (Diverge, (h2, cur2))
                        end
                    end
                | Fail e => (Fail e, (h2, cur2))
                | Panic => (Panic, (h2, cur2))
                | Diverge => (Diverge, (h2, cur2))
                end
            | (r, st2) => (r, st2)
            end
        | Fail e => (Fail e, st)
        | Panic => (Panic, st)
        | Diverge => (Diverge, st)
        end
    end.

(** Everything [recursiveSetPositions] reads before it moves the cursor. *)
Definition measure (h : Heap) (n : LayoutNode) (first : naddr)
  : outcome (LayoutNode * Rect * Rect * (Size * Size)) :=
  parentDrawRect <- getDrawRect (aw h) n ;;
  firstChildNode <- deref h first ;;
  childBoundingRect <- getBoundingRect (aw h) firstChildNode ;;
  full <- fullChildrenExtents (aw h) h (Children n) 0 0 ;;
  Ret (firstChildNode, parentDrawRect, childBoundingRect, full).

(** [func recursiveSetPositions(node *LayoutNode, cursor *resolverCursor) error].
    The recursion follows child pointers; [depth] bounds it. *)
Fixpoint recursiveSetPositions (depth : nat) (nd : naddr) : step unit :=
  fun st =>
    let '(h, cur) := st in
    match deref h nd with
    | Ret n =>
        match Children n with
        | [] => (Ret tt, st)
        | first :: _ =>
            match depth with
            | O => (Diverge, st)
            | S d =>
                match measure h n first with
                | Ret (firstChildNode, parentDrawRect, childBoundingRect,
                       (fullW, fullH)) =>
                    let cur1 := mkCursor (cx cur + qleft (Padding n))
                                         (cy cur + qtop (Padding n)) in
                    match startOffset (ChildFlowDirection n) (ChildAlignment n)
                            parentDrawRect childBoundingRect fullW fullH
                            (Margin firstChildNode) cur1 with
                    | Ret cur2 =>
                        match positionChildren (recursiveSetPositions d)
                                (ChildFlowDirection n) (ChildAlignment n)
                                (Children n) (h, cur2) with
                        | (Ret _, (h', _)) => (Ret tt, (h', cur))
                        | r => r
                        end
                    | Fail e => (Fail e, (h, cur1))
                    | Panic => (Panic, (h, cur1))
                    | Diverge => (Diverge, (h, cur1))
                    end
                | Fail e => (Fail e, st)
                | Panic => (Panic, st)
                | Diverge => (Diverge, st)
                end
            end
        end
    | Fail e => (Fail e, st)
    | Panic => (Panic, st)
    | Diverge => (Diverge, st)
    end.

End Positions.

(* ================================================================== *)
(** ** docspec.go: pages; resolver.go: resolveNodeRectPositions        *)
(* ================================================================== *)

(** [func newDocument(width, height, margin Size) *Document]: one page,
    allocated on an empty page store. *)
Definition newPage (w ht : Size) (m : SizesQuad) : Page :=
  {| PageChildren := []; PageWidth := w; PageHeight := ht; PageMargin := m |}.

Definition newDocument (w ht margin : Size) : list Page * Document :=
  ([newPage w ht (NewSingletonSizeQuad margin)], mkDocument [0%nat]).

(** [func getDocumentSize(s documentSize) (Size, Size)] for
    [DocumentSizeLetter]. *)
Definition letterSize : Size * Size := (216, 279).

Definition withPage (n : LayoutNode) (pg : paddr) : LayoutNode :=
  {| Children := Children n; VisualNode := VisualNode n; Parent := Parent n;
     OnPage := Some pg; X := X n; Y := Y n; Width := Width n; Height := Height n;
     Border := Border n; BorderColor := BorderColor n; ShowFill := ShowFill n;
     FillColor := FillColor n; Padding := Padding n; Margin := Margin n;
     ChildAlignment := ChildAlignment n;
     ChildFlowDirection := ChildFlowDirection n;
     rendererContext := rendererContext n; ID := ID n |}.

(** [func (p *Page) addNode(node *LayoutNode)] *)
Definition addNode (h : Heap) (p : paddr) (a : naddr) : outcome Heap :=
  pv <- derefPage h p ;;
  n <- deref h a ;;
  Ret (mkHeap (<[a := withPage n p]> (nodes h))
              (<[p := {| PageChildren := PageChildren pv ++ [a];
                         PageWidth := PageWidth pv;
                         PageHeight := PageHeight pv;
                         PageMargin := PageMargin pv |}]> (pages h))).

(** [func (d *Document) addPage() *Page] *)
Definition addPage (h : Heap) (d : Document) : outcome (Heap * Document * paddr) :=
  match last (DocChildren d) with
  | None => Panic
  | Some prev =>
      previousPage <- derefPage h prev ;;
      let p := length (pages h) in
      Ret (mkHeap (nodes h)
                  (pages h ++ [newPage (PageWidth previousPage)
                                       (PageHeight previousPage)
                                       (PageMargin previousPage)]),
           mkDocument (DocChildren d ++ [p]), p)
  end.

(** The state of the loop in [resolveNodeRectPositions]: the heap, the
    document, the local [currentPage] and the local [cursor]. *)
Record PState : Set := mkPState {
  pheap : Heap;
  pdoc : Document;
  currentPage : paddr;
  cursor : resolverCursor
}.

(** [currentPage.getDrawRect().height - currentPage.Margin.bottom] *)
Definition pageBottom (p : Page) : Size :=
  height (Page_getDrawRect p) - qbottom (PageMargin p).

Section Pagination.

Variable aw : Heap -> Future -> outcome Size.
Variable depth : nat.

(** Lines 242-271 of resolver.go: one top-level node is placed on the
    current page, its subtree positioned, its height checked against the
    page and added to the cursor. *)
Definition placeNode (nd : naddr) (st : PState) : outcome unit * PState :=
  let h := pheap st in
  let cur := cursor st in
  match (n <- deref h nd ;;
         h1 <- setPosition h nd (cx cur + qleft (Margin n)) (cy cur + qtop (Margin n)) ;;
         h2 <- addNode h1 (currentPage st) nd ;;
         Ret (n, h2)) with
  | Ret (n, h2) =>
      let nextCursor := mkCursor (cx cur + qleft (Margin n))
                                 (cy cur + qtop (Margin n)) in
      match recursiveSetPositions aw depth nd (h2, nextCursor) with
      | (Ret _, (h3, _)) =>
          let st3 := mkPState h3 (pdoc st) (currentPage st) cur in
          match (n3 <- deref h3 nd ;;
                 nodeBoundingRect <- getBoundingRect (aw h3) n3 ;;
                 pg <- derefPage h3 (currentPage st) ;;
                 Ret (height nodeBoundingRect, pg)) with
          | Ret (nodeHeight, pg) =>
              if PageHeight pg <? nodeHeight then
                (Fail (ErrTopLevelTooTall nodeHeight (PageHeight pg)), st3)
              else
                (Ret tt, mkPState h3 (pdoc st) (currentPage st)
                                  (mkCursor (cx cur) (cy cur + nodeHeight)))
          | Fail e => (Fail e, st3)
          | Panic => (Panic, st3)
          | Diverge => (Diverge, st3)
          end
      | (Fail e, (h3, _)) => (Fail e, mkPState h3 (pdoc st) (currentPage st) cur)
      | (Panic, (h3, _)) => (Panic, mkPState h3 (pdoc st) (currentPage st) cur)
      | (Diverge, (h3, _)) => (Diverge, mkPState h3 (pdoc st) (currentPage st) cur)
      end
  | Fail e => (Fail e, st)
  | Panic => (Panic, st)
  | Diverge => (Diverge, st)
  end.

(** Lines 273-286: with a next node, its height is awaited and a page is
    added when the node would cross the bottom of the current one. *)
Definition breakPage (next : naddr) (st : PState) : outcome unit * PState :=
  let h := pheap st in
  match (nn <- deref h next ;;
         nextHeight <- aw h (Height nn) ;;
         pg <- derefPage h (currentPage st) ;;
         Ret (nextHeight, pg)) with
  | Ret (nextHeight, pg) =>
      if pageBottom pg <? cy (cursor st) + nextHeight then
        match (r <- addPage h (pdoc st) ;;
               let '(h', d', p) := r in
               np <- derefPage h' p ;;
               Ret (h', d', p, np)) with
        | Ret (h', d', p, np) =>
            (Ret tt, mkPState h' d' p
                       (mkCursor (qleft (PageMargin np)) (qtop (PageMargin np))))
        | Fail e => (Fail e, st)
        | Panic => (Panic, st)
        | Diverge => (Diverge, st)
        end
      else (Ret tt, st)
  | Fail e => (Fail e, st)
  | Panic => (Panic, st)
  | Diverge => (Diverge, st)
  end.

(** [for idx, node := range d.nodes] *)
Fixpoint placeAll (nds : list naddr) (st : PState) : outcome unit * PState :=
  match nds with
  | [] => (Ret tt, st)
  | nd :: rest =>
      match placeNode nd st with
      | (Ret _, st1) =>
          match rest with
          | [] => (Ret tt, st1)
          | next :: _ =>
              match breakPage next st1 with
              | (Ret _, st2) => placeAll rest st2
              | r => r
              end
          end
      | r => r
      end
  end.

(** [func resolveNodeRectPositions(d *DocumentBuilder) error] *)
Definition resolveNodeRectPositions (h : Heap) (d : Document) (nds : list naddr)
  : outcome unit * PState :=
  match DocChildren d with
  | [] => (Panic, mkPState h d 0%nat (mkCursor 0 0))
  | p0 :: _ =>
      match derefPage h p0 with
      | Ret pg =>
          placeAll nds (mkPState h d p0
                          (mkCursor (qleft (PageMargin pg)) (qtop (PageMargin pg))))
      | _ => (Panic, mkPState h d p0 (mkCursor 0 0))
      end
  end.

End Pagination.

(* ================================================================== *)
(** ** layout_node.go: Clone                                           *)
(* ================================================================== *)

Definition withChildren (n : LayoutNode) (cs : list naddr) : LayoutNode :=
  {| Children := cs; VisualNode := VisualNode n; Parent := Parent n;
     OnPage := OnPage n; X := X n; Y := Y n; Width := Width n; Height := Height n;
     Border := Border n; BorderColor := BorderColor n; ShowFill := ShowFill n;
     FillColor := FillColor n; Padding := Padding n; Margin := Margin n;
     ChildAlignment := ChildAlignment n;
     ChildFlowDirection := ChildFlowDirection n;
     rendererContext := rendererContext n; ID := ID n |}.

(** [func (n *LayoutNode) addChild(node *LayoutNode)] *)
Definition addChild (h : Heap) (a c : naddr) : outcome Heap :=
  match nodes h !! a with
  | Some n =>
      Ret (mkHeap (<[a := withChildren n (Children n ++ [c])]> (nodes h)) (pages h))
  | None => Panic
  end.

(** [for _, child := range n.Children { root.addChild(child.Clone()) }] *)
Fixpoint cloneChildren (rec : Heap -> naddr -> outcome (Heap * naddr))
         (root : naddr) (children : list naddr) (h : Heap) : outcome Heap :=
  match children with
  | [] => Ret h
  | c :: rest =>
      r <- rec h c ;;
      h' <- addChild (fst r) root (snd r) ;;
      cloneChildren rec root rest h'
  end.

(** [func (n *LayoutNode) Clone() *LayoutNode].  [root := *n] copies the
    struct into a new heap cell, [make] gives it an empty child list, the
    loop fills it, and the cell's address is returned.  The recursion
    follows child pointers; [depth] bounds it. *)
Fixpoint Clone (depth : nat) (h : Heap) (a : naddr) : outcome (Heap * naddr) :=
  n <- deref h a ;;
  let root := length (nodes h) in
  let h1 := mkHeap (nodes h ++ [withChildren n []]) (pages h) in
  match Children n with
  | [] => Ret (h1, root)
  | _ :: _ =>
      match depth with
      | O => Diverge
      | S d =>
          h' <- cloneChildren (Clone d) root (Children n) h1 ;;
          Ret (h', root)
      end
  end.

(* ================================================================== *)
(** ** layout_node.go: node construction                               *)
(* ================================================================== *)

(** [type LayoutNodeProps struct] *)
Record LayoutNodeProps : Set := mkProps {
  propBorder : BooleanQuad;
  propBorderColor : Color;
  propShowFill : bool;
  propFillColor : Color;
  propPadding : SizesQuad;
  propMargin : SizesQuad;
  propWidth : Future;
  propHeight : Future;
  propChildAlignment : LayoutChildAlignment;
  propChildFlowDirection : childFlowDirection
}.

Definition zeroQuad : SizesQuad := NewSingletonSizeQuad 0.
Definition zeroColor : Color := mkColor 0 0 0.
Definition zeroBooleanQuad : BooleanQuad := mkBooleanQuad false false false false.

(** Props with the two sizes given and every other field at its zero
    value, as a Go composite literal leaves them. *)
Definition sized (w ht : Future) : LayoutNodeProps :=
  {| propBorder := zeroBooleanQuad; propBorderColor := zeroColor;
     propShowFill := false; propFillColor := zeroColor;
     propPadding := zeroQuad; propMargin := zeroQuad;
     propWidth := w; propHeight := ht;
     propChildAlignment := mkAlign Start Start;
     propChildFlowDirection := FlowVertical |}.

(** The node [Div(parent, options, cb)] leaves at address [self] once [cb]
    has added [children]: the props merged by [mergeProps], both futures
    bound to the node itself, no page and no visual node. *)
Definition Div (self : naddr) (parent : option naddr) (options : LayoutNodeProps)
           (children : list naddr) : LayoutNode :=
  {| Children := children; VisualNode := None; Parent := parent;
     OnPage := None; X := 0; Y := 0;
     Width := bindTo self (propWidth options);
     Height := bindTo self (propHeight options);
     Border := propBorder options; BorderColor := propBorderColor options;
     ShowFill := propShowFill options; FillColor := propFillColor options;
     Padding := propPadding options; Margin := propMargin options;
     ChildAlignment := propChildAlignment options;
     ChildFlowDirection := propChildFlowDirection options;
     rendererContext := None; ID := EmptyString |}.

Definition withFlow (p : LayoutNodeProps) (f : childFlowDirection) : LayoutNodeProps :=
  {| propBorder := propBorder p; propBorderColor := propBorderColor p;
     propShowFill := propShowFill p; propFillColor := propFillColor p;
     propPadding := propPadding p; propMargin := propMargin p;
     propWidth := propWidth p; propHeight := propHeight p;
     propChildAlignment := propChildAlignment p;
     propChildFlowDirection := f |}.

Definition withAlignment (p : LayoutNodeProps) (al : LayoutChildAlignment)
  : LayoutNodeProps :=
  {| propBorder := propBorder p; propBorderColor := propBorderColor p;
     propShowFill := propShowFill p; propFillColor := propFillColor p;
     propPadding := propPadding p; propMargin := propMargin p;
     propWidth := propWidth p; propHeight := propHeight p;
     propChildAlignment := al;
     propChildFlowDirection := propChildFlowDirection p |}.

(** [await] has a pointer receiver: a call leaves a result and the
    receiver.  The body assigns no field of [f], so the receiver it leaves
    is the one it was given. *)
Definition awaitOn (R : ruleTable) (fuel : nat) (h : Heap) (f : Future)
  : outcome Size * Future :=
  (await R fuel h f, f).

(* ================================================================== *)
(** ** Vocabulary of the statements, and the examples                  *)
(* ================================================================== *)

(** The two errors the percentage and fill rules return for an orphan
    node, built with [invariantViolation] as in the source. *)
Definition orphanWidth : error :=
  invariantViolation "orphan node: parent is nil or has width of 0".
Definition orphanHeight : error :=
  invariantViolation "orphan node: parent is nil or has height of 0".

(** The context a percentage or fill rule finds for node [n]: the draw rect
    of its parent node, that parent's children and flow direction; or, for
    a node without parent that was put on a page, the page's draw rect, the
    page's nodes and the vertical flow. *)
Inductive parentContext (aw : Future -> outcome Size) (h : Heap) (n : LayoutNode)
  : Rect -> list naddr -> childFlowDirection -> Prop :=
| ctx_parent p pn r :
    Parent n = Some p -> nodes h !! p = Some pn -> getDrawRect aw pn = Ret r ->
    parentContext aw h n r (Children pn) (ChildFlowDirection pn)
| ctx_page pg pv :
    Parent n = None -> OnPage n = Some pg -> pages h !! pg = Some pv ->
    parentContext aw h n (Page_getDrawRect pv) (PageChildren pv) FlowVertical.

(** The siblings other than the node itself, in order. *)
Definition others (nd : naddr) (siblings : list naddr) : list naddr :=
  List.filter (fun s => negb (Nat.eqb s nd)) siblings.

(** [rects] are the bounding rects of the nodes at [l], in order. *)
Definition boundingRects (aw : Future -> outcome Size) (h : Heap)
           (l : list naddr) (rects : list Rect) : Prop :=
  Forall2 (fun s r => exists sn, nodes h !! s = Some sn /\ getBoundingRect aw sn = Ret r)
          l rects.

(** A sum as the loops compute it: from the left, starting at [acc]. *)
Definition sumFrom {A : Type} (ext : A -> Size) (acc : Size) (l : list A) : Size :=
  fold_left (fun a r => a + ext r) l acc.

(** The larger of two sizes, as [if v > acc { acc = v }] picks it. *)
Definition larger (acc v : Size) : Size := if acc <? v then v else acc.

(** The fill example: a 100-wide parent with horizontal flow, a child of
    width 30 and a child with [WidthFill], no margin and no padding. *)
Definition fillExample : Heap :=
  mkHeap
    [ Div 0 None (withFlow (sized (StaticSize 100) (StaticSize 50)) FlowHorizontal)
          [1; 2]%nat;
      Div 1 (Some 0%nat) (sized (StaticSize 30) (StaticSize 50)) [];
      Div 2 (Some 0%nat) (sized WidthFill (StaticSize 50)) [] ]
    [].

(** A node that was given a percentage width and neither a parent nor a
    page. *)
Definition orphanExample : Heap :=
  mkHeap [ Div 0 None (sized (WidthPercentage 50) (StaticSize 10)) [] ] [].

(** A 200 by 80 parent with one child of 60 percent by 25 percent. *)
Definition percentageExample : Heap :=
  mkHeap
    [ Div 0 None (sized (StaticSize 200) (StaticSize 80)) [1%nat];
      Div 1 (Some 0%nat) (sized (WidthPercentage 60) (HeightPercentage 25)) [] ]
    [].

(** A container that was given a percentage width and neither a parent nor
    a page, with one child of fixed size. *)
Definition orphanRoot : LayoutNode :=
  Div 0 None (sized (WidthPercentage 50) (StaticSize 10)) [1%nat].

(** The heap of that container and its child. *)
Definition orphanContainer : Heap :=
  mkHeap [ orphanRoot; Div 1 (Some 0%nat) (sized (StaticSize 5) (StaticSize 5)) [] ] [].

(** The cross-axis example: a 100 by 100 container, vertical flow, children
    centred horizontally; two children of widths 20 and 40. *)
Definition alignExample : Heap :=
  mkHeap
    [ Div 0 None (withAlignment (sized (StaticSize 100) (StaticSize 100))
                                (mkAlign Start Center)) [1; 2]%nat;
      Div 1 (Some 0%nat) (sized (StaticSize 20) (StaticSize 10)) [];
      Div 2 (Some 0%nat) (sized (StaticSize 40) (StaticSize 10)) [] ]
    [].

(** The positions a run leaves on the heap, node by node. *)
Definition positions (h : Heap) : list (Size * Size) :=
  map (fun n => (X n, Y n)) (nodes h).

(** Two pages have the same shape when width, height and margin agree. *)
Definition sameShape (t p : Page) : Prop :=
  PageWidth p = PageWidth t /\ PageHeight p = PageHeight t /\
  PageMargin p = PageMargin t.

(** A 275-high node on a letter page with a margin of 5. *)
Definition tallExample : Heap :=
  mkHeap [ Div 0 None (sized (StaticSize 100) (StaticSize 275)) [] ]
         (fst (newDocument 216 279 5)).

(** Two 150-high nodes on a letter page with a margin of 5, whose draw rect
    is 269 high. *)
Definition breakExample : Heap :=
  mkHeap [ Div 0 None (sized (StaticSize 100) (StaticSize 150)) [];
           Div 1 None (sized (StaticSize 100) (StaticSize 150)) [] ]
         (fst (newDocument 216 279 5)).

(** The subtree under [a] is made of allocated nodes and is at most [d]
    levels deep below [a]. *)
Fixpoint treeWithin (d : nat) (h : Heap) (a : naddr) : Prop :=
  exists n, nodes h !! a = Some n /\
    match d with
    | O => Children n = []
    | S d' => Forall (treeWithin d' h) (Children n)
    end.

(** Every field but the child list is the same; in particular the two
    futures keep the owner they had. *)
Definition sameButChildren (n n' : LayoutNode) : Prop :=
  withChildren n' [] = withChildren n [] /\
  node (Width n') = node (Width n) /\ node (Height n') = node (Height n).

(** The node at [a'] of [h'] is a copy of the node at [a] of [h0]: it lies
    in the address range from [lo] up to [hi], agrees with the original on
    every field but the child list, and its children are, in order, copies
    of the original's children. *)
Fixpoint cloneOf (d : nat) (h0 h' : Heap) (lo hi : nat) (a a' : naddr) : Prop :=
  exists n n',
    nodes h0 !! a = Some n /\ nodes h' !! a' = Some n' /\
    lo <= a' < hi /\ sameButChildren n n' /\
    match d with
    | O => Children n = [] /\ Children n' = []
    | S d' => Forall2 (cloneOf d' h0 h' lo hi) (Children n) (Children n')
    end.

(** What [Clone] does at depth [d], on a heap [h] that has grown from the
    heap [h0] in which the original tree was given. *)
Definition CloneSpec (d : nat) : Prop :=
  forall h0 h a,
    (forall i m, nodes h0 !! i = Some m -> nodes h !! i = Some m) ->
    treeWithin d h0 a ->
    exists h',
      Clone d h a = Ret (h', length (nodes h)) /\
      (forall i, i < length (nodes h) -> nodes h' !! i = nodes h !! i) /\
      length (nodes h) < length (nodes h') /\
      pages h' = pages h /\
      cloneOf d h0 h' (length (nodes h)) (length (nodes h')) a (length (nodes h)).

(** [vs] are the extents [ext] gives for the nodes at [l], in order. *)
Definition extentsOf (ext : LayoutNode -> outcome Size) (h : Heap)
           (l : list naddr) (vs : list Size) : Prop :=
  Forall2 (fun c v => exists cn, nodes h !! c = Some cn /\ ext cn = Ret v) l vs.

(** The maximum of a non-empty list of extents, as the claim words it. *)
Definition maximumOf (vs : list Size) : option Size :=
  match vs with
  | [] => None
  | v :: rest => Some (fold_left larger rest v)
  end.

(** Three children of heights 10, 20 and 15 under a container whose height
    is intrinsic, without padding and margin. *)
Definition intrinsicExample (flow : childFlowDirection) : Heap :=
  mkHeap
    [ Div 0 None (withFlow (sized (StaticSize 100) HeightAsChildren) flow) [1; 2; 3]%nat;
      Div 1 (Some 0%nat) (sized (StaticSize 30) (StaticSize 10)) [];
      Div 2 (Some 0%nat) (sized (StaticSize 30) (StaticSize 20)) [];
      Div 3 (Some 0%nat) (sized (StaticSize 30) (StaticSize 15)) [] ]
    [].

(** Two children of heights -10 and -20 under a container with horizontal
    flow and intrinsic height. *)
Definition negativeExample : Heap :=
  mkHeap
    [ Div 0 None (withFlow (sized (StaticSize 100) HeightAsChildren) FlowHorizontal)
          [1; 2]%nat;
      Div 1 (Some 0%nat) (sized (StaticSize 30) (StaticSize (-10))) [];
      Div 2 (Some 0%nat) (sized (StaticSize 30) (StaticSize (-20))) [] ]
    [].

(* ================================================================== *)
(** * More of the sources                                              *)
(* ================================================================== *)

(** ** layout_node.go: Text, Image, mergeProps *)

(** The zero value of [Future], as a Go composite literal leaves the
    fields it does not name. *)
Definition zeroFuture : Future :=
  {| value := 0; state := futureIncomplete; definition := None;
     params := None; node := None |}.

(** [func (n *LayoutNode) mergeProps(props LayoutNodeProps)] *)
Definition mergeProps (n : LayoutNode) (props : LayoutNodeProps) : LayoutNode :=
  {| Children := Children n; VisualNode := VisualNode n; Parent := Parent n;
     OnPage := OnPage n; X := X n; Y := Y n;
     Width := propWidth props; Height := propHeight props;
     Border := propBorder props; BorderColor := propBorderColor props;
     ShowFill := propShowFill props; FillColor := propFillColor props;
     Padding := propPadding props; Margin := propMargin props;
     ChildAlignment := propChildAlignment props;
     ChildFlowDirection := propChildFlowDirection props;
     rendererContext := rendererContext n; ID := ID n |}.

(** [n.Width.node = n; n.Height.node = n] *)
Definition bindFutures (self : naddr) (n : LayoutNode) : LayoutNode :=
  {| Children := Children n; VisualNode := VisualNode n; Parent := Parent n;
     OnPage := OnPage n; X := X n; Y := Y n;
     Width := bindTo self (Width n); Height := bindTo self (Height n);
     Border := Border n; BorderColor := BorderColor n; ShowFill := ShowFill n;
     FillColor := FillColor n; Padding := Padding n; Margin := Margin n;
     ChildAlignment := ChildAlignment n;
     ChildFlowDirection := ChildFlowDirection n;
     rendererContext := rendererContext n; ID := ID n |}.

(** The [wrapperNode] of [Text] and [Image] once the function returns: the
    visual payload, both sizes filling the parent, the futures bound to the
    wrapper, the parent set to the layout node. *)
Definition wrapperNode (self layout : naddr) (v : visual) : LayoutNode :=
  bindFutures self
    {| Children := []; VisualNode := Some v; Parent := Some layout; OnPage := None;
       X := 0; Y := 0;
       Width := newIncompleteFuture fn_widthFill None;
       Height := newIncompleteFuture fn_heightFill None;
       Border := zeroBooleanQuad; BorderColor := zeroColor; ShowFill := false;
       FillColor := zeroColor; Padding := zeroQuad; Margin := zeroQuad;
       ChildAlignment := mkAlign Start Start; ChildFlowDirection := FlowVertical;
       rendererContext := None; ID := EmptyString |}.

(** The [layoutNode] of [Text] and [Image]: the wrapper as only child, the
    props merged, the futures bound to the layout node. *)
Definition visualLayoutNode (self wrapper : naddr) (parent : option naddr)
           (options : LayoutNodeProps) : LayoutNode :=
  bindFutures self
    (mergeProps
       {| Children := [wrapper]; VisualNode := None; Parent := parent; OnPage := None;
          X := 0; Y := 0; Width := zeroFuture; Height := zeroFuture;
          Border := zeroBooleanQuad; BorderColor := zeroColor; ShowFill := false;
          FillColor := zeroColor; Padding := zeroQuad; Margin := zeroQuad;
          ChildAlignment := mkAlign Start Start; ChildFlowDirection := FlowVertical;
          rendererContext := None; ID := EmptyString |}
       options).

(** [if parent != nil { parent.Children = append(parent.Children, node) }] *)
Definition appendToParent (h : Heap) (parent : option naddr) (c : naddr) : outcome Heap :=
  match parent with
  | Some p => addChild h p c
  | None => Ret h
  end.

(** [func Text(parent *LayoutNode, options LayoutNodeProps, textProps TextNode)
    *LayoutNode]: two allocations, the wrapper first.  The name [Text] is
    taken by the field of [TextNode]. *)
Definition Text' (h : Heap) (parent : option naddr) (options : LayoutNodeProps)
           (textProps : TextNode) : outcome (Heap * naddr) :=
  let w := length (nodes h) in
  let l := S w in
  h' <- appendToParent
          (mkHeap (nodes h ++ [wrapperNode w l (VText textProps);
                               visualLayoutNode l w parent options]) (pages h))
          parent l ;;
  Ret (h', l).

(** [func Image(parent *LayoutNode, options LayoutNodeProps, imageProps
    ImageNode) *LayoutNode] *)
Definition Image (h : Heap) (parent : option naddr) (options : LayoutNodeProps)
           (imageProps : ImageNode) : outcome (Heap * naddr) :=
  let w := length (nodes h) in
  let l := S w in
  h' <- appendToParent
          (mkHeap (nodes h ++ [wrapperNode w l (VImage imageProps);
                               visualLayoutNode l w parent options]) (pages h))
          parent l ;;
  Ret (h', l).

(** [node.rendererContext = renderer] *)
Definition withRenderer (n : LayoutNode) (r : option DocumentRenderer) : LayoutNode :=
  {| Children := Children n; VisualNode := VisualNode n; Parent := Parent n;
     OnPage := OnPage n; X := X n; Y := Y n; Width := Width n; Height := Height n;
     Border := Border n; BorderColor := BorderColor n; ShowFill := ShowFill n;
     FillColor := FillColor n; Padding := Padding n; Margin := Margin n;
     ChildAlignment := ChildAlignment n;
     ChildFlowDirection := ChildFlowDirection n;
     rendererContext := r; ID := ID n |}.

(** [for _, child := range node.Children { setDocumentRendererContext(child,
    renderer) }] *)
Fixpoint setContextOfChildren (rec : naddr -> Heap -> outcome Heap)
         (children : list naddr) (h : Heap) : outcome Heap :=
  match children with
  | [] => Ret h
  | c :: rest => h' <- rec c h ;; setContextOfChildren rec rest h'
  end.

(** [func setDocumentRendererContext(node *LayoutNode, renderer
    DocumentRenderer)].  The recursion follows child pointers; [depth]
    bounds it. *)
Fixpoint setDocumentRendererContext (depth : nat) (renderer : option DocumentRenderer)
         (nd : naddr) (h : Heap) : outcome Heap :=
  match nodes h !! nd with
  | None => Panic
  | Some n =>
      let h1 := mkHeap (<[nd := withRenderer n renderer]> (nodes h)) (pages h) in
      match Children n with
      | [] => Ret h1
      | _ :: _ =>
          match depth with
          | O => Diverge
          | S d =>
              setContextOfChildren (setDocumentRendererContext d renderer)
                                   (Children n) h1
          end
      end
  end.

(** [func (d *DocumentBuilder) CreateDocumentTree(nodeList []*LayoutNode)
    error]: the renderer context is set on every tree of the list, then the
    positions are resolved. *)
Definition CreateDocumentTree (aw : Heap -> Future -> outcome Size) (depth : nat)
           (renderer : option DocumentRenderer) (h : Heap) (d : Document)
           (nodeList : list naddr) : outcome unit * PState :=
  match setContextOfChildren (setDocumentRendererContext depth renderer) nodeList h with
  | Ret h1 => resolveNodeRectPositions aw depth h1 d nodeList
  | Fail e => (Fail e, mkPState h d 0%nat (mkCursor 0 0))
  | Panic => (Panic, mkPState h d 0%nat (mkCursor 0 0))
  | Diverge => (Diverge, mkPState h d 0%nat (mkCursor 0 0))
  end.

Definition noInherentWidth : error :=
  Errorf "requested width as children, but reached a leaf node with no inherent height".
Definition noInherentHeight : error :=
  Errorf "requested height as children, but reached a leaf node with no inherent height".

(** ** resolver.go: strings of the PDF renderer *)

Local Open Scope string_scope.

(** [func borderStringFromBooleanQuad(quad BooleanQuad) string] *)
Definition borderStringFromBooleanQuad (quad : BooleanQuad) : string :=
  let result := "" in
  let result := if bbottom quad then result ++ "B" else result in
  let result := if btop quad then result ++ "T" else result in
  let result := if bleft quad then result ++ "L" else result in
  let result := if bright quad then result ++ "R" else result in
  result.

(** [strings.Split(s, ".")]: the pieces of [s] between the dots; never
    empty, [[s]] when [s] has no dot. *)
Fixpoint splitOnDot (s : string) : list string :=
  match s with
  | EmptyString => [EmptyString]
  | String c rest =>
      if Ascii.eqb c "." then EmptyString :: splitOnDot rest
      else match splitOnDot rest with
           | piece :: pieces => String c piece :: pieces
           | [] => [String c EmptyString]
           end
  end.

(** [fileExtParts[len(fileExtParts)-1]] *)
Definition lastPiece (pieces : list string) : outcome string :=
  match last pieces with
  | Some p => Ret p
  | None => Panic
  end.

(** [func imageTypeFromFileName(src string) string]; the warning printed in
    the default branch is not modelled. *)
Definition imageTypeFromFileName (src : string) : outcome string :=
  ext <- lastPiece (splitOnDot src) ;;
  if String.eqb ext "png" then Ret "PNG"
  else if String.eqb ext "jpg" then Ret "JPEG"
  else if String.eqb ext "jpeg" then Ret "JPEG"
  else if String.eqb ext "gif" then Ret "GIF"
  else Ret "".

Local Close Scope string_scope.

(* ================================================================== *)
(** * Vocabulary of the further statements                             *)
(* ================================================================== *)

(** The heap with every position forgotten. *)
Definition eraseXY (h : Heap) : Heap :=
  mkHeap (map (fun n => withPosition n 0 0) (nodes h)) (pages h).

(** A rule table reads no position. *)
Definition ignoresPositions (R : ruleTable) : Prop :=
  forall d aw aw' h nd p,
    (forall f, aw f = aw' f) -> R d aw (eraseXY h) nd p = R d aw' h nd p.

(** The child loop as it would read with the error of
    [childBoundingRect, err = child.getBoundingRect()] tested and returned,
    the way every other call of [getBoundingRect] in the file is. *)
Fixpoint positionChildrenChecked (aw : Heap -> Future -> outcome Size)
         (rec : naddr -> step unit)
         (flow : childFlowDirection) (al : LayoutChildAlignment)
         (children : list naddr) : step unit :=
  fun st =>
    match children with
    | [] => (Ret tt, st)
    | child :: rest =>
        let '(h, cur) := st in
        match setPosition h child (cx cur) (cy cur) with
        | Ret h1 =>
            match rec child (h1, cur) with
            | (Ret _, (h2, cur2)) =>
                match (cn <- deref h2 child ;; getBoundingRect (aw h2) cn) with
                | Ret childBoundingRect =>
                    match rest with
                    | [] => (Ret tt, (h2, cur2))
                    | next :: _ =>
                        match (nn <- deref h2 next ;;
                               nbr <- getBoundingRect (aw h2) nn ;;
                               Ret (nbr, Margin nn)) with
                        | Ret (nextBoundingRect, nextMargin) =>
                            positionChildrenChecked aw rec flow al rest
                              (h2, advanceCursor flow al childBoundingRect
                                     nextBoundingRect nextMargin cur2)
                        | Fail e => (Fail e, (h2, cur2))
                        | Panic => (Panic, (h2, cur2))
                        | Diverge => (Diverge, (h2, cur2))
                        end
                    end
                | Fail e => (Fail e, (h2, cur2))
                | Panic => (Panic, (h2, cur2))
                | Diverge => (Diverge, (h2, cur2))
                end
            | (r, st2) => (r, st2)
            end
        | Fail e => (Fail e, st)
        | Panic => (Panic, st)
        | Diverge => (Diverge, st)
        end
    end.

(** [recursiveSetPositions] over the checked loop. *)
Fixpoint recursiveSetPositionsChecked (aw : Heap -> Future -> outcome Size)
         (depth : nat) (nd : naddr) : step unit :=
  fun st =>
    let '(h, cur) := st in
    match deref h nd with
    | Ret n =>
        match Children n with
        | [] => (Ret tt, st)
        | first :: _ =>
            match depth with
            | O => (Diverge, st)
            | S d =>
                match measure aw h n first with
                | Ret (firstChildNode, parentDrawRect, childBoundingRect,
                       (fullW, fullH)) =>
                    let cur1 := mkCursor (cx cur + qleft (Padding n))
                                         (cy cur + qtop (Padding n)) in
                    match startOffset (ChildFlowDirection n) (ChildAlignment n)
                            parentDrawRect childBoundingRect fullW fullH
                            (Margin firstChildNode) cur1 with
                    | Ret cur2 =>
                        match positionChildrenChecked aw (recursiveSetPositionsChecked aw d)
                                (ChildFlowDirection n) (ChildAlignment n)
                                (Children n) (h, cur2) with
                        | (Ret _, (h', _)) => (Ret tt, (h', cur))
                        | r => r
                        end
                    | Fail e => (Fail e, (h, cur1))
                    | Panic => (Panic, (h, cur1))
                    | Diverge => (Diverge, (h, cur1))
                    end
                | Fail e => (Fail e, st)
                | Panic => (Panic, st)
                | Diverge => (Diverge, st)
                end
            end
        end
    | Fail e => (Fail e, st)
    | Panic => (Panic, st)
    | Diverge => (Diverge, st)
    end.

(** The measuring loop saw the bounding rect of the node at [c]. *)
Definition measured (aw : Future -> outcome Size) (h : Heap) (c : naddr) : Prop :=
  exists cn r, nodes h !! c = Some cn /\ getBoundingRect aw cn = Ret r.

(** A layout node at [l] that wraps the visual node at [w]. *)
Definition visualPair (h : Heap) (l w : naddr) (parent : option naddr)
           (options : LayoutNodeProps) (v : visual) (ctx : option DocumentRenderer) : Prop :=
  nodes h !! l = Some (withRenderer (visualLayoutNode l w parent options) ctx) /\
  nodes h !! w = Some (withRenderer (wrapperNode w l v) ctx).

(** The heap with every renderer context forgotten. *)
Definition eraseContext (h : Heap) : Heap :=
  mkHeap (map (fun n => withRenderer n None) (nodes h)) (pages h).

(** [b] is [a] or a descendant of [a] along child pointers. *)
Inductive reaches (h : Heap) : naddr -> naddr -> Prop :=
| reaches_self a : reaches h a a
| reaches_child a n c b :
    nodes h !! a = Some n -> In c (Children n) -> reaches h c b -> reaches h a b.

(** The node at [b] carries the renderer context [r]. *)
Definition hasContext (r : option DocumentRenderer) (h : Heap) (b : naddr) : Prop :=
  exists n, nodes h !! b = Some n /\ rendererContext n = r.

Definition SetContextSpec (r : option DocumentRenderer) (d : nat) : Prop :=
  forall h a, treeWithin d h a ->
    exists h',
      setDocumentRendererContext d r a h = Ret h' /\
      eraseContext h' = eraseContext h /\
      (forall b, hasContext r h b -> hasContext r h' b) /\
      (forall b, reaches h a b -> hasContext r h' b).

(** [s] has no dot. *)
Fixpoint dotFree (s : string) : bool :=
  match s with
  | EmptyString => true
  | String c rest => negb (Ascii.eqb c ".") && dotFree rest
  end.

(** A container whose flow direction is neither constant, with one child. *)
Definition flowExample : Heap :=
  mkHeap
    [ Div 0 None (withFlow (sized (StaticSize 100) (StaticSize 100)) 7%Z) [1%nat];
      Div 1 (Some 0%nat) (sized (StaticSize 20) (StaticSize 10)) [] ]
    [].

(** Two top-level nodes on a letter page; the height of the second fills
    its parent. *)
Definition offPageExample : Heap :=
  mkHeap [ Div 0 None (sized (StaticSize 100) (StaticSize 50)) [];
           Div 1 None (sized (StaticSize 100) HeightFill) [] ]
         (fst (newDocument 216 279 5)).

(** A parent as high as its children, with a child that fills it. *)
Definition cycleExample : Heap :=
  mkHeap
    [ Div 0 None (sized (StaticSize 100) HeightAsChildren) [1%nat];
      Div 1 (Some 0%nat) (sized (StaticSize 10) HeightFill) [] ]
    [].

(** A renderer for which every text is 40 wide and 12 high. *)
Definition fixedRenderer : DocumentRenderer :=
  mkRenderer (fun _ => mkRect 40 12).

(** Props with intrinsic width and height and a padding of 2. *)
Definition intrinsicProps : LayoutNodeProps :=
  {| propBorder := zeroBooleanQuad; propBorderColor := zeroColor;
     propShowFill := false; propFillColor := zeroColor;
     propPadding := NewSingletonSizeQuad 2; propMargin := zeroQuad;
     propWidth := WidthAsChildren; propHeight := HeightAsChildren;
     propChildAlignment := mkAlign Start Start;
     propChildFlowDirection := FlowVertical |}.

Definition helloText : TextNode := mkTextNode "Hello" 12 1.

(** The first step of the page loop on [breakExample]. *)
Definition breakStart : PState :=
  mkPState breakExample (snd (newDocument 216 279 5)) 0 (mkCursor 5 5).

(* ================================================================== *)
(** * Properties                                                       *)
(* ================================================================== *)

(** ** Small facts about the embedding *)

Lemma deref_Some h a n : nodes h !! a = Some n -> deref h a = Ret n.
Proof. intros E. unfold deref. now rewrite E. Qed.

Lemma derefPage_Some h p pv : pages h !! p = Some pv -> derefPage h p = Ret pv.
Proof. intros E. unfold derefPage. now rewrite E. Qed.

Lemma parentContext_drawRect aw h n r sibs flow :
  parentContext aw h n r sibs flow -> parentDrawRectOf aw h n = Ret r.
Proof.
  intros [p pn r' Hp Hl Hd | pg pv Hp Hpg Hl]; unfold parentDrawRectOf; rewrite Hp.
  - rewrite (deref_Some _ _ _ Hl). exact Hd.
  - rewrite Hpg, (derefPage_Some _ _ _ Hl). reflexivity.
Qed.

Lemma parentContext_fill aw h n r sibs flow :
  parentContext aw h n r sibs flow -> fillContext aw h n = Ret (r, sibs, flow).
Proof.
  intros [p pn r' Hp Hl Hd | pg pv Hp Hpg Hl]; unfold fillContext; rewrite Hp.
  - rewrite (deref_Some _ _ _ Hl). cbn. rewrite Hd. reflexivity.
  - rewrite Hpg, (derefPage_Some _ _ _ Hl). reflexivity.
Qed.

Lemma siblingExtents_sum aw h ext nd sibs :
  forall acc rects,
    boundingRects aw h (others nd sibs) rects ->
    siblingExtents aw h ext nd sibs acc = Ret (sumFrom ext acc rects).
Proof.
  induction sibs as [|s rest IH]; intros acc rects HF; cbn in *.
  - inversion HF; subst. reflexivity.
  - destruct (Nat.eqb s nd) eqn:E; cbn in HF.
    + now apply IH.
    + inversion HF as [|? r ? rects' [sn [Hl Hb]] HF']; subst.
      rewrite (deref_Some _ _ _ Hl). cbn. rewrite Hb. cbn.
      now apply IH.
Qed.

(** ** await *)

(** C7. A pending future that is bound to an owning node: [await] calls the
    rule with the owning node and the stored parameters and returns what the
    rule returns; the future is left as it was (value, state, definition and
    params), so awaiting it again runs the rule again. *)
Theorem await_pending_runs_rule (R : ruleTable) (k : nat) (h : Heap) (f : Future)
        (nd : naddr) (d : futureDefinition) :
  node f = Some nd -> state f = futureIncomplete -> definition f = Some d ->
  let after := awaitOn R (S k) h f in
  fst after = R d (await R k h) h nd (params f) /\
  snd after = f /\
  value (snd after) = value f /\ state (snd after) = futureIncomplete /\
  definition (snd after) = Some d /\ params (snd after) = params f /\
  fst (awaitOn R (S k) h (snd after)) = R d (await R k h) h nd (params f).
Proof.
  intros Hn Hs Hd. cbn. rewrite Hn, Hs, Hd. repeat split; reflexivity || assumption.
Qed.

Lemma await_pending_runs_rule_witness :
  fst (awaitOn plainSumRules 3 fillExample (bindTo 2 WidthFill)) =
    widthFill (await plainSumRules 2 fillExample) fillExample 2 None /\
  snd (awaitOn plainSumRules 3 fillExample (bindTo 2 WidthFill)) = bindTo 2 WidthFill.
Proof.
  pose proof (await_pending_runs_rule plainSumRules 2 fillExample (bindTo 2 WidthFill)
                2%nat fn_widthFill eq_refl eq_refl eq_refl) as H.
  cbv zeta in H. destruct H as (H1 & H2 & _). split.
  - exact H1.
  - exact H2.
Defined.

(** C8, as the source has it.  A future with no owning node fails with the
    invariant violation, whatever its state; a resolved future that is bound
    returns the stored value, with any fuel. *)
Theorem await_resolved_or_unbound (R : ruleTable) (fuel : nat) (h : Heap) (f : Future) :
  (node f = None -> await R fuel h f = Fail (invariantViolation nilNodeMsg)) /\
  (forall nd, node f = Some nd -> state f = futureComplete ->
              await R fuel h f = Ret (value f)).
Proof.
  split.
  - intros Hn. destruct fuel; cbn; rewrite Hn; reflexivity.
  - intros nd Hn Hs. destruct fuel; cbn; rewrite Hn, Hs; reflexivity.
Qed.

Lemma await_resolved_or_unbound_witness :
  await plainSumRules 0 fillExample (bindTo 1 (StaticSize 30)) = Ret 30 /\
  await plainSumRules 0 fillExample (StaticSize 30) = Fail (invariantViolation nilNodeMsg).
Proof.
  split.
  - apply (proj2 (await_resolved_or_unbound plainSumRules 0 fillExample
                    (bindTo 1 (StaticSize 30))) 1%nat); reflexivity.
  - apply (proj1 (await_resolved_or_unbound plainSumRules 0 fillExample (StaticSize 30)));
      reflexivity.
Defined.

(** C8 as stated fails on a resolved future that was never bound: the owner
    test comes first, and the stored value is not returned. *)
Lemma await_resolved_unbound_fails :
  state (StaticSize 30) = futureComplete /\
  forall R fuel h, await R fuel h (StaticSize 30) <> Ret (value (StaticSize 30)).
Proof.
  split; [reflexivity|]. intros R fuel h. destruct fuel; cbn; discriminate.
Qed.

(** ** The percentage rules *)

(** C1. With a parent (or, failing that, a page) whose draw rect resolves
    to [r], the percentage rule on an axis returns the extent of [r] on that
    axis times [pct / 100], unless that extent is exactly zero, in which
    case it fails with the orphan-node error; it fails with the same error
    when the node has neither parent nor page. *)
Theorem percentage_rule (aw : Future -> outcome Size) (h : Heap) (nd : naddr)
        (n : LayoutNode) (pct : Size) :
  nodes h !! nd = Some n ->
  (Parent n = None -> OnPage n = None ->
     widthPercentage aw h nd (Some pct) = Fail orphanWidth /\
     heightPercentage aw h nd (Some pct) = Fail orphanHeight) /\
  (forall r sibs flow, parentContext aw h n r sibs flow ->
     widthPercentage aw h nd (Some pct) =
       (if width r =? 0 then Fail orphanWidth
        else Ret (width r * (pct / 100))) /\
     heightPercentage aw h nd (Some pct) =
       (if height r =? 0 then Fail orphanHeight
        else Ret (height r * (pct / 100)))).
Proof.
  intros Hn. split.
  - intros Hp Hpg. unfold widthPercentage, heightPercentage.
    rewrite (deref_Some _ _ _ Hn). cbn. unfold parentDrawRectOf.
    rewrite Hp, Hpg. split; reflexivity.
  - intros r sibs flow Hctx. unfold widthPercentage, heightPercentage.
    rewrite (deref_Some _ _ _ Hn). cbn.
    rewrite (parentContext_drawRect _ _ _ _ _ _ Hctx). cbn.
    split; [destruct (width r =? 0) | destruct (height r =? 0)]; reflexivity.
Qed.

Lemma percentage_rule_witness :
  widthPercentage (await plainSumRules 1 percentageExample) percentageExample 1 (Some 60)
    = Ret (200 * (60 / 100)) /\
  heightPercentage (await plainSumRules 1 percentageExample) percentageExample 1 (Some 25)
    = Ret (80 * (25 / 100)) /\
  widthPercentage (await plainSumRules 1 orphanExample) orphanExample 0 (Some 50)
    = Fail orphanWidth.
Proof.
  pose proof (percentage_rule (await plainSumRules 1 percentageExample)
                percentageExample 1%nat _ 60 eq_refl) as [_ H60].
  pose proof (percentage_rule (await plainSumRules 1 percentageExample)
                percentageExample 1%nat _ 25 eq_refl) as [_ H25].
  pose proof (percentage_rule (await plainSumRules 1 orphanExample)
                orphanExample 0%nat _ 50 eq_refl) as [Horph _].
  assert (Hctx : parentContext (await plainSumRules 1 percentageExample) percentageExample
                   (Div 1 (Some 0%nat) (sized (WidthPercentage 60) (HeightPercentage 25)) [])
                   (mkRect 200 80) [1%nat] FlowVertical).
  { apply (ctx_parent _ _ _ 0%nat
             (Div 0 None (sized (StaticSize 200) (StaticSize 80)) [1%nat]));
      reflexivity. }
  split; [exact (proj1 (H60 _ _ _ Hctx))|].
  split; [exact (proj2 (H25 _ _ _ Hctx))|].
  exact (proj1 (Horph eq_refl eq_refl)).
Defined.

(** ** The fill rules *)

(** C2. With the flow direction of the parent perpendicular to the axis,
    the fill rule is the percentage rule at 100.  Otherwise it is the
    parent's draw extent, minus the bounding extents of the other siblings
    summed from the left, minus the node's own two margins on the axis.  It
    fails with the orphan-node error on a zero extent and without parent
    and page, as the percentage rule does.  In the example the fill child
    next to a 30-wide sibling in a 100-wide parent gets 70. *)
Theorem fill_rule (aw : Future -> outcome Size) (h : Heap) (nd : naddr)
        (n : LayoutNode) (p : option Size) :
  nodes h !! nd = Some n ->
  (Parent n = None -> OnPage n = None ->
     widthFill aw h nd p = Fail orphanWidth /\
     heightFill aw h nd p = Fail orphanHeight) /\
  (forall r sibs flow, parentContext aw h n r sibs flow ->
     ((width r =? 0) = true -> widthFill aw h nd p = Fail orphanWidth) /\
     ((height r =? 0) = true -> heightFill aw h nd p = Fail orphanHeight) /\
     (flow = FlowVertical ->
        widthFill aw h nd p = widthPercentage aw h nd (Some 100)) /\
     (flow = FlowHorizontal ->
        heightFill aw h nd p = heightPercentage aw h nd (Some 100)) /\
     (forall rects, flow <> FlowVertical -> (width r =? 0) = false ->
        boundingRects aw h (others nd sibs) rects ->
        widthFill aw h nd p =
          Ret (width r - sumFrom width 0 rects
               - (qleft (Margin n) + qright (Margin n)))) /\
     (forall rects, flow <> FlowHorizontal -> (height r =? 0) = false ->
        boundingRects aw h (others nd sibs) rects ->
        heightFill aw h nd p =
          Ret (height r - sumFrom height 0 rects
               - (qtop (Margin n) + qbottom (Margin n))))) /\
  await plainSumRules 1 fillExample (bindTo 2 WidthFill) = Ret 70.
Proof.
  intros Hn. split; [|split; [|reflexivity]].
  - intros Hp Hpg. unfold widthFill, heightFill.
    rewrite (deref_Some _ _ _ Hn). cbn. unfold fillContext.
    rewrite Hp, Hpg. split; reflexivity.
  - intros r sibs flow Hctx.
    pose proof (parentContext_fill _ _ _ _ _ _ Hctx) as Hf.
    pose proof (parentContext_drawRect _ _ _ _ _ _ Hctx) as Hd.
    unfold widthFill, heightFill, widthPercentage, heightPercentage.
    rewrite (deref_Some _ _ _ Hn). cbn. rewrite Hf, Hd. cbn. unfold emptySize.
    repeat split.
    + intros E. rewrite E. reflexivity.
    + intros E. rewrite E. reflexivity.
    + intros ->. cbn. destruct (width r =? 0); reflexivity.
    + intros ->. cbn. destruct (height r =? 0); reflexivity.
    + intros rects Hflow E HF. rewrite E.
      destruct (Z.eqb_spec flow FlowVertical) as [->|_]; [contradiction|].
      rewrite (siblingExtents_sum _ _ _ _ _ _ _ HF). reflexivity.
    + intros rects Hflow E HF. rewrite E.
      destruct (Z.eqb_spec flow FlowHorizontal) as [->|_]; [contradiction|].
      rewrite (siblingExtents_sum _ _ _ _ _ _ _ HF). reflexivity.
Qed.

Lemma fill_rule_witness :
  widthFill (await plainSumRules 1 fillExample) fillExample 2 None
    = Ret (100 - sumFrom width 0 [mkRect (30 + (0 + 0)) (50 + (0 + 0))] - (0 + 0)) /\
  widthFill (await plainSumRules 1 orphanExample) orphanExample 0 None = Fail orphanWidth.
Proof.
  pose proof (fill_rule (await plainSumRules 1 fillExample) fillExample 2%nat _ None eq_refl)
    as (_ & H & _).
  pose proof (fill_rule (await plainSumRules 1 orphanExample) orphanExample 0%nat _ None
                eq_refl) as (Horph & _ & _).
  assert (Hctx : parentContext (await plainSumRules 1 fillExample) fillExample
                   (Div 2 (Some 0%nat) (sized WidthFill (StaticSize 50)) [])
                   (mkRect (100 - (0 + 0)) (50 - (0 + 0))) [1; 2]%nat FlowHorizontal).
  { apply (ctx_parent _ _ _ 0%nat
             (Div 0 None (withFlow (sized (StaticSize 100) (StaticSize 50)) FlowHorizontal)
                  [1; 2]%nat)); reflexivity. }
  destruct (H _ _ _ Hctx) as (_ & _ & _ & _ & Hw & _).
  split.
  - apply (Hw [mkRect (30 + (0 + 0)) (50 + (0 + 0))]).
    + discriminate.
    + reflexivity.
    + constructor; [|constructor].
      exists (Div 1 (Some 0%nat) (sized (StaticSize 30) (StaticSize 50)) []).
      split; reflexivity.
  - exact (proj1 (Horph eq_refl eq_refl)).
Defined.

(** ** Error propagation *)

(** Whenever awaiting the width or the height of a node returns an error,
    [getBoundingRect] and [getRenderRect] return it, and [getDrawRect]
    returns the zero rect with no error. *)
Lemma rects_on_await_error (aw : Future -> outcome Size) (n : LayoutNode) (e : error) :
  aw (Width n) = Fail e \/ (exists w, aw (Width n) = Ret w /\ aw (Height n) = Fail e) ->
  getBoundingRect aw n = Fail e /\
  getRenderRect aw n = Fail e /\
  getDrawRect aw n = Ret (mkRect 0 0).
Proof.
  unfold getBoundingRect, getRenderRect, getDrawRect.
  intros [E | [w [Ew Eh]]].
  - rewrite E. repeat split.
  - rewrite Ew, Eh. repeat split.
Qed.

(** C9 at the failing input.  Awaiting the width of [orphanRoot] returns
    the orphan-node error.  The bounding rect and the render rect of the node
    return that error; the draw rect returns the zero rect and no error, and
    the resolver, which reads only the draw rect of the node it is given,
    positions the child and returns no error. *)
Theorem getDrawRect_drops_error :
  await plainSumRules 2 orphanContainer (Width orphanRoot) = Fail orphanWidth /\
  getBoundingRect (await plainSumRules 2 orphanContainer) orphanRoot = Fail orphanWidth /\
  getRenderRect (await plainSumRules 2 orphanContainer) orphanRoot = Fail orphanWidth /\
  getDrawRect (await plainSumRules 2 orphanContainer) orphanRoot = Ret (mkRect 0 0) /\
  fst (recursiveSetPositions (await plainSumRules 2) 1 0 (orphanContainer, mkCursor 3 4))
    = Ret tt /\
  positions (fst (snd (recursiveSetPositions (await plainSumRules 2) 1 0
                         (orphanContainer, mkCursor 3 4))))
    = [(0, 0); (3, 4)].
Proof. repeat split. Qed.

(** ** The position resolver *)

Lemma setPosition_pages h a x y h1 :
  setPosition h a x y = Ret h1 -> pages h1 = pages h.
Proof.
  unfold setPosition. destruct (nodes h !! a); [|discriminate].
  intros E. inversion E. reflexivity.
Qed.

(** A successful call leaves the cursor where the caller had it (the reset
    at the end of [recursiveSetPositions]). *)
Lemma recursiveSetPositions_cursor aw depth nd h cur h' cur' :
  recursiveSetPositions aw depth nd (h, cur) = (Ret tt, (h', cur')) -> cur' = cur.
Proof.
  destruct depth; cbn; intros H.
  - destruct (deref h nd) as [n| | |]; try discriminate.
    destruct (Children n); inversion H; reflexivity.
  - destruct (deref h nd) as [n| | |]; try discriminate.
    destruct (Children n) as [|first rest]; [inversion H; reflexivity|].
    destruct (measure aw h n first) as [[[[f pd] cb] [fw fh]]| | |]; try discriminate.
    destruct (startOffset _ _ _ _ _ _ _ _) as [c2| | |]; try discriminate.
    destruct (positionChildren _ _ _ _ _ _) as [[[]| | |] [h2 c3]];
      inversion H; reflexivity.
Qed.

Section PagesUntouched.

Variable aw : Heap -> Future -> outcome Size.

Lemma positionChildren_pages (rec : naddr -> step unit) flow al :
  (forall c st r st', rec c st = (r, st') -> pages (fst st') = pages (fst st)) ->
  forall cs st r st',
    positionChildren aw rec flow al cs st = (r, st') ->
    pages (fst st') = pages (fst st).
Proof.
  intros Hrec. induction cs as [|c rest IH]; intros [h cur] r st' H; cbn in H.
  - inversion H. reflexivity.
  - destruct (setPosition h c (cx cur) (cy cur)) as [h1| | |] eqn:E1;
      try (inversion H; reflexivity).
    apply setPosition_pages in E1.
    destruct (rec c (h1, cur)) as [r2 [h2 c2]] eqn:E2.
    apply Hrec in E2. cbn in E2.
    destruct r2 as [[]| | |]; try (inversion H; cbn; congruence).
    destruct (cn <- deref h2 c ;; uncheckedBoundingRect (aw h2) cn) as [cbr| | |];
      try (inversion H; cbn; congruence).
    destruct rest as [|next rest'].
    + inversion H; cbn; congruence.
    + destruct (nn <- deref h2 next ;; nbr <- getBoundingRect (aw h2) nn ;;
                Ret (nbr, Margin nn)) as [[nbr nm]| | |];
        try (inversion H; cbn; congruence).
      apply IH in H. cbn in *. congruence.
Qed.

Lemma recursiveSetPositions_pages depth :
  forall nd st r st',
    recursiveSetPositions aw depth nd st = (r, st') ->
    pages (fst st') = pages (fst st).
Proof.
  induction depth as [|d IH]; intros nd [h cur] r st' H; cbn in H.
  - destruct (deref h nd) as [n| | |]; try (inversion H; reflexivity).
    destruct (Children n); inversion H; reflexivity.
  - destruct (deref h nd) as [n| | |]; try (inversion H; reflexivity).
    destruct (Children n) as [|first rest]; [inversion H; reflexivity|].
    destruct (measure aw h n first) as [[[[f pd] cb] [fw fh]]| | |];
      try (inversion H; reflexivity).
    destruct (startOffset _ _ _ _ _ _ _ _) as [c2| | |];
      try (inversion H; reflexivity).
    destruct (positionChildren _ _ _ _ _ _) as [r3 [h3 c3]] eqn:E.
    apply (positionChildren_pages _ _ _ (IH)) in E. cbn in E.
    destruct r3 as [[]| | |]; inversion H; cbn; congruence.
Qed.

End PagesUntouched.

(** C6. In the child loop, once [child] is placed and its subtree
    positioned, the loop goes on to the next sibling with the cursor moved:
    along the flow by the bounding extent of [child] plus the leading margin
    of the sibling; across the flow by the difference of the two cross
    extents under End, by half of it under Center, and not at all under
    Start.  In the example the children of widths 20 and 40 are put at
    x = 40 and x = 30. *)
Theorem cursor_advance (aw : Heap -> Future -> outcome Size) (d : nat)
        (flow : childFlowDirection) (al : LayoutChildAlignment)
        (child next : naddr) (rest : list naddr)
        (h h1 h2 : Heap) (cur cur2 : resolverCursor)
        (cn nn : LayoutNode) (cbr nbr : Rect) :
  setPosition h child (cx cur) (cy cur) = Ret h1 ->
  recursiveSetPositions aw d child (h1, cur) = (Ret tt, (h2, cur2)) ->
  nodes h2 !! child = Some cn -> getBoundingRect (aw h2) cn = Ret cbr ->
  nodes h2 !! next = Some nn -> getBoundingRect (aw h2) nn = Ret nbr ->
  let cur' := advanceCursor flow al cbr nbr (Margin nn) cur in
  positionChildren aw (recursiveSetPositions aw d) flow al (child :: next :: rest) (h, cur)
    = positionChildren aw (recursiveSetPositions aw d) flow al (next :: rest) (h2, cur') /\
  (flow = FlowVertical ->
     cy cur' = cy cur + (height cbr + qtop (Margin nn)) /\
     (Horizontal al = Start -> cx cur' = cx cur) /\
     (Horizontal al = End_ -> cx cur' = cx cur + (width cbr - width nbr)) /\
     (Horizontal al = Center -> cx cur' = cx cur + (width cbr - width nbr) / 2)) /\
  (flow = FlowHorizontal ->
     cx cur' = cx cur + (width cbr + qleft (Margin nn)) /\
     (Vertical al = Start -> cy cur' = cy cur) /\
     (Vertical al = End_ -> cy cur' = cy cur + (height cbr - height nbr)) /\
     (Vertical al = Center -> cy cur' = cy cur + (height cbr - height nbr) / 2)) /\
  positions (fst (snd (recursiveSetPositions (await plainSumRules 1) 1 0
                         (alignExample, mkCursor 0 0))))
    = [(0, 0); (40, 0); (30, 10)].
Proof.
  intros Hset Hrec Hc Hcb Hn Hnb cur'.
  pose proof (recursiveSetPositions_cursor _ _ _ _ _ _ _ Hrec) as ->.
  split; [|split; [|split; [|reflexivity]]].
  - cbn [positionChildren]. rewrite Hset, Hrec.
    rewrite (deref_Some _ _ _ Hc). cbn [bind].
    unfold uncheckedBoundingRect. rewrite Hcb.
    rewrite (deref_Some _ _ _ Hn). cbn [bind]. rewrite Hnb. cbn [bind].
    reflexivity.
  - intros ->. subst cur'. unfold advanceCursor.
    change (Z.eqb FlowVertical FlowHorizontal) with false.
    change (Z.eqb FlowVertical FlowVertical) with true. cbv iota.
    repeat split.
    + destruct (Z.eqb (Horizontal al) Start), (Z.eqb (Horizontal al) End_),
        (Z.eqb (Horizontal al) Center); reflexivity.
    + intros ->. reflexivity.
    + intros ->. reflexivity.
    + intros ->. reflexivity.
  - intros ->. subst cur'. unfold advanceCursor.
    change (Z.eqb FlowHorizontal FlowHorizontal) with true. cbv iota.
    repeat split.
    + destruct (Z.eqb (Vertical al) Start), (Z.eqb (Vertical al) End_),
        (Z.eqb (Vertical al) Center); reflexivity.
    + intros ->. reflexivity.
    + intros ->. reflexivity.
    + intros ->. reflexivity.
Qed.

Lemma cursor_advance_witness :
  let aw := await plainSumRules 1 in
  let placed := mkHeap
    [ Div 0 None (withAlignment (sized (StaticSize 100) (StaticSize 100))
                                (mkAlign Start Center)) [1; 2]%nat;
      withPosition (Div 1 (Some 0%nat) (sized (StaticSize 20) (StaticSize 10)) []) 40 0;
      Div 2 (Some 0%nat) (sized (StaticSize 40) (StaticSize 10)) [] ] [] in
  positionChildren aw (recursiveSetPositions aw 0) FlowVertical (mkAlign Start Center)
                   [1; 2]%nat (alignExample, mkCursor 40 0)
  = positionChildren aw (recursiveSetPositions aw 0) FlowVertical (mkAlign Start Center)
                     [2%nat] (placed, mkCursor (40 + (20 + (0 + 0) - (40 + (0 + 0))) / 2)
                                               (0 + (10 + (0 + 0) + 0))).
Proof.
  intros aw placed.
  set (c1 := withPosition (Div 1 (Some 0%nat) (sized (StaticSize 20) (StaticSize 10)) []) 40 0).
  set (c2 := Div 2 (Some 0%nat) (sized (StaticSize 40) (StaticSize 10)) []).
  assert (H1 : setPosition alignExample 1 (cx (mkCursor 40 0)) (cy (mkCursor 40 0))
               = Ret placed) by reflexivity.
  assert (H2 : recursiveSetPositions aw 0 1 (placed, mkCursor 40 0)
               = (Ret tt, (placed, mkCursor 40 0))) by reflexivity.
  assert (H3 : nodes placed !! 1%nat = Some c1) by reflexivity.
  assert (H4 : getBoundingRect (aw placed) c1
               = Ret (mkRect (20 + (0 + 0)) (10 + (0 + 0)))) by reflexivity.
  assert (H5 : nodes placed !! 2%nat = Some c2) by reflexivity.
  assert (H6 : getBoundingRect (aw placed) c2
               = Ret (mkRect (40 + (0 + 0)) (10 + (0 + 0)))) by reflexivity.
  exact (proj1 (cursor_advance aw 0 FlowVertical (mkAlign Start Center) 1%nat 2%nat []
                  alignExample placed placed (mkCursor 40 0) (mkCursor 40 0)
                  c1 c2 _ _ H1 H2 H3 H4 H5 H6)).
Defined.

(** ** Pagination *)

Lemma addNode_shapes t h p a h' :
  addNode h p a = Ret h' ->
  Forall (sameShape t) (pages h) -> Forall (sameShape t) (pages h').
Proof.
  unfold addNode, derefPage, deref.
  destruct (pages h !! p) as [pv|] eqn:Ep; [|discriminate].
  destruct (nodes h !! a) as [n|]; [|discriminate].
  cbn. intros E HF. inversion E; subst; cbn.
  apply Forall_insert; [exact HF|].
  exact (proj1 (Forall_lookup _ _) HF _ _ Ep).
Qed.

(** What [placeNode] does once the node is on the page, its subtree is
    positioned and its bounding rect is known: the height test against the
    page, then the move of the cursor. *)
Lemma placeNode_checked aw depth nd st n h1 h2 h3 c3 n3 br pg :
  nodes (pheap st) !! nd = Some n ->
  setPosition (pheap st) nd (cx (cursor st) + qleft (Margin n))
              (cy (cursor st) + qtop (Margin n)) = Ret h1 ->
  addNode h1 (currentPage st) nd = Ret h2 ->
  recursiveSetPositions aw depth nd
    (h2, mkCursor (cx (cursor st) + qleft (Margin n))
                  (cy (cursor st) + qtop (Margin n))) = (Ret tt, (h3, c3)) ->
  nodes h3 !! nd = Some n3 -> getBoundingRect (aw h3) n3 = Ret br ->
  pages h3 !! currentPage st = Some pg ->
  placeNode aw depth nd st =
    if PageHeight pg <? height br then
      (Fail (ErrTopLevelTooTall (height br) (PageHeight pg)),
       mkPState h3 (pdoc st) (currentPage st) (cursor st))
    else
      (Ret tt, mkPState h3 (pdoc st) (currentPage st)
                        (mkCursor (cx (cursor st)) (cy (cursor st) + height br))).
Proof.
  intros Hn H1 H2 H3 Hn3 Hbr Hpg. unfold placeNode.
  rewrite (deref_Some _ _ _ Hn). cbn [bind]. rewrite H1. cbn [bind]. rewrite H2.
  cbn [bind]. rewrite H3.
  rewrite (deref_Some _ _ _ Hn3). cbn [bind]. rewrite Hbr. cbn [bind].
  rewrite (derefPage_Some _ _ _ Hpg). cbn [bind height].
  reflexivity.
Qed.

(** C5, as the source has it.  Once a top-level node is placed and its
    bounding height is known, the step fails with the too-tall error exactly
    when that height exceeds the height of the page -- the full
    [Page.Height], margins included -- whatever the cursor, the page and the
    nodes that follow; and then the whole loop fails with that error. *)
Theorem too_tall_for_page (aw : Heap -> Future -> outcome Size) (depth : nat)
        (nd : naddr) (rest : list naddr) (st : PState) (n n3 : LayoutNode)
        (h1 h2 h3 : Heap) (c3 : resolverCursor) (br : Rect) (pg : Page) :
  nodes (pheap st) !! nd = Some n ->
  setPosition (pheap st) nd (cx (cursor st) + qleft (Margin n))
              (cy (cursor st) + qtop (Margin n)) = Ret h1 ->
  addNode h1 (currentPage st) nd = Ret h2 ->
  recursiveSetPositions aw depth nd
    (h2, mkCursor (cx (cursor st) + qleft (Margin n))
                  (cy (cursor st) + qtop (Margin n))) = (Ret tt, (h3, c3)) ->
  nodes h3 !! nd = Some n3 -> getBoundingRect (aw h3) n3 = Ret br ->
  pages h3 !! currentPage st = Some pg ->
  (failed (fst (placeNode aw depth nd st)) <-> (PageHeight pg <? height br) = true) /\
  ((PageHeight pg <? height br) = true ->
     fst (placeNode aw depth nd st)
       = Fail (ErrTopLevelTooTall (height br) (PageHeight pg)) /\
     fst (placeAll aw depth (nd :: rest) st)
       = Fail (ErrTopLevelTooTall (height br) (PageHeight pg))).
Proof.
  intros Hn H1 H2 H3 Hn3 Hbr Hpg.
  pose proof (placeNode_checked _ _ _ _ _ _ _ _ _ _ _ _ Hn H1 H2 H3 Hn3 Hbr Hpg) as E.
  split; [split|].
  - intros [e He]. rewrite E in He.
    destruct (PageHeight pg <? height br); [reflexivity|discriminate].
  - intros Hlt. rewrite E, Hlt. eexists. reflexivity.
  - intros Hlt. cbn [placeAll]. rewrite E, Hlt. split; reflexivity.
Qed.

Lemma too_tall_for_page_witness :
  fst (placeNode (await plainSumRules 1) 1 0
         (mkPState (mkHeap [ Div 0 None (sized (StaticSize 100) (StaticSize 280)) [] ]
                           (fst (newDocument 216 279 5)))
                   (snd (newDocument 216 279 5)) 0 (mkCursor 5 5)))
  = Fail (ErrTopLevelTooTall (280 + (0 + 0)) 279).
Proof.
  set (node0 := Div 0 None (sized (StaticSize 100) (StaticSize 280)) []).
  set (pg := {| PageChildren := [0%nat]; PageWidth := 216; PageHeight := 279;
                PageMargin := NewSingletonSizeQuad 5 |}).
  set (h1 := mkHeap [withPosition node0 (5 + 0) (5 + 0)] (fst (newDocument 216 279 5))).
  set (h2 := mkHeap [withPage (withPosition node0 (5 + 0) (5 + 0)) 0] [pg]).
  set (st := mkPState (mkHeap [node0] (fst (newDocument 216 279 5)))
                      (snd (newDocument 216 279 5)) 0 (mkCursor 5 5)).
  set (n3 := withPage (withPosition node0 (5 + 0) (5 + 0)) 0).
  assert (H0 : nodes (pheap st) !! 0%nat = Some node0) by reflexivity.
  assert (H1 : setPosition (pheap st) 0 (cx (cursor st) + qleft (Margin node0))
                 (cy (cursor st) + qtop (Margin node0)) = Ret h1) by reflexivity.
  assert (H2 : addNode h1 (currentPage st) 0 = Ret h2) by reflexivity.
  assert (H3 : recursiveSetPositions (await plainSumRules 1) 1 0
                 (h2, mkCursor (cx (cursor st) + qleft (Margin node0))
                               (cy (cursor st) + qtop (Margin node0)))
               = (Ret tt, (h2, mkCursor (5 + 0) (5 + 0)))) by reflexivity.
  assert (H4 : nodes h2 !! 0%nat = Some n3) by reflexivity.
  assert (H5 : getBoundingRect (await plainSumRules 1 h2) n3
               = Ret (mkRect (100 + (0 + 0)) (280 + (0 + 0)))) by reflexivity.
  assert (H6 : pages h2 !! currentPage st = Some pg) by reflexivity.
  exact (proj1 (proj2 (too_tall_for_page (await plainSumRules 1) 1 0%nat [] st
                         node0 n3 h1 h2 h2 _ _ pg H0 H1 H2 H3 H4 H5 H6) eq_refl)).
Defined.

(** C5 as stated fails on a node between the inner height and the page
    height: the letter page with a margin of 5 has an inner height of 269,
    the node is 275 high, and the build returns no error. *)
Lemma taller_than_inner_height_passes :
  height (Page_getDrawRect (newPage 216 279 (NewSingletonSizeQuad 5))) = 269 /\
  getBoundingRect (await plainSumRules 1 tallExample)
                  (Div 0 None (sized (StaticSize 100) (StaticSize 275)) [])
    = Ret (mkRect 100 275) /\
  (269 <? 275) = true /\
  fst (resolveNodeRectPositions (await plainSumRules 1) 1 tallExample
         (snd (newDocument 216 279 5)) [0%nat]) = Ret tt.
Proof. repeat split. Qed.

Lemma placeNode_shapes aw depth t nd st r st1 :
  placeNode aw depth nd st = (r, st1) ->
  Forall (sameShape t) (pages (pheap st)) ->
  Forall (sameShape t) (pages (pheap st1)).
Proof.
  unfold placeNode. intros H HF.
  destruct (deref (pheap st) nd) as [n| | |]; cbn [bind] in H;
    try (inversion H; subst; exact HF).
  destruct (setPosition _ _ _ _) as [h1| | |] eqn:E1; cbn [bind] in H;
    try (inversion H; subst; exact HF).
  apply setPosition_pages in E1.
  destruct (addNode h1 (currentPage st) nd) as [h2| | |] eqn:E2; cbn [bind] in H;
    try (inversion H; subst; exact HF).
  apply (addNode_shapes t) in E2; [|rewrite E1; exact HF].
  destruct (recursiveSetPositions _ _ _ _) as [r3 [h3 c3]] eqn:E3.
  apply recursiveSetPositions_pages in E3. cbn in E3. rewrite <- E3 in E2.
  destruct r3 as [[]| | |]; try (inversion H; subst; exact E2).
  destruct (n3 <- deref h3 nd ;; _) as [[nh pg]| | |];
    try (inversion H; subst; exact E2).
  destruct (PageHeight pg <? nh); inversion H; subst; exact E2.
Qed.

(** C4. After a top-level node is placed, when a next node exists and the
    cursor's y plus the awaited height of that node exceeds the bottom of
    the current page (the height of its draw rect minus its bottom margin),
    a page with the width, height and margin of the document's last page,
    and with no node, is appended to the document; it becomes the current
    page, the cursor goes to its (margin.left, margin.top), and the loop
    goes on to place the next node from there.  When every page has the
    shape of a template [t] beforehand, so has the new page.  In the example
    the second of two 150-high nodes goes to a second page, at (5, 5). *)
Theorem page_break (aw : Heap -> Future -> outcome Size) (depth : nat)
        (nd next : naddr) (rest : list naddr) (st st1 : PState)
        (nn : LayoutNode) (nh : Size) (pg pp t : Page) (prev : paddr) :
  placeNode aw depth nd st = (Ret tt, st1) ->
  nodes (pheap st1) !! next = Some nn ->
  aw (pheap st1) (Height nn) = Ret nh ->
  pages (pheap st1) !! currentPage st1 = Some pg ->
  (pageBottom pg <? cy (cursor st1) + nh) = true ->
  last (DocChildren (pdoc st1)) = Some prev ->
  pages (pheap st1) !! prev = Some pp ->
  Forall (sameShape t) (pages (pheap st)) ->
  let fresh := length (pages (pheap st1)) in
  let page := newPage (PageWidth pp) (PageHeight pp) (PageMargin pp) in
  let st2 := mkPState (mkHeap (nodes (pheap st1)) (pages (pheap st1) ++ [page]))
                      (mkDocument (DocChildren (pdoc st1) ++ [fresh])) fresh
                      (mkCursor (qleft (PageMargin page)) (qtop (PageMargin page))) in
  placeAll aw depth (nd :: next :: rest) st = placeAll aw depth (next :: rest) st2 /\
  pages (pheap st2) !! currentPage st2 = Some page /\
  PageChildren page = [] /\
  sameShape t page /\
  pages (pheap
           (snd (resolveNodeRectPositions (await plainSumRules 1) 1 breakExample
                   (snd (newDocument 216 279 5)) [0; 1]%nat)))
    = [ {| PageChildren := [0%nat]; PageWidth := 216; PageHeight := 279;
           PageMargin := NewSingletonSizeQuad 5 |};
        {| PageChildren := [1%nat]; PageWidth := 216; PageHeight := 279;
           PageMargin := NewSingletonSizeQuad 5 |} ] /\
  map (fun n => (OnPage n, X n, Y n))
      (nodes (pheap
                (snd (resolveNodeRectPositions (await plainSumRules 1) 1 breakExample
                        (snd (newDocument 216 279 5)) [0; 1]%nat))))
    = [ (Some 0%nat, 5, 5); (Some 1%nat, 5, 5) ].
Proof.
  intros Hplace Hnn Hnh Hpg Hlt Hlast Hpp HF fresh page st2.
  split; [|split; [|split; [|split; [|split]]]]; try reflexivity.
  - cbn [placeAll]. rewrite Hplace. unfold breakPage.
    rewrite (deref_Some _ _ _ Hnn). cbn [bind]. rewrite Hnh. cbn [bind].
    rewrite (derefPage_Some _ _ _ Hpg). cbn [bind]. rewrite Hlt.
    unfold addPage. rewrite Hlast. rewrite (derefPage_Some _ _ _ Hpp). cbn [bind].
    unfold derefPage. cbn [pages].
    rewrite lookup_app_r by reflexivity. rewrite Nat.sub_diag. cbn [lookup list_lookup bind].
    reflexivity.
  - subst st2 fresh. cbn [pheap pages currentPage].
    rewrite lookup_app_r by reflexivity. rewrite Nat.sub_diag. reflexivity.
  - pose proof (placeNode_shapes _ _ t _ _ _ _ Hplace HF) as HF1.
    exact (proj1 (Forall_lookup _ _) HF1 _ _ Hpp).
Qed.

Lemma page_break_witness :
  placeAll (await plainSumRules 1) 1 [0; 1]%nat
           (mkPState breakExample (snd (newDocument 216 279 5)) 0 (mkCursor 5 5))
  = placeAll (await plainSumRules 1) 1 [1%nat]
      (mkPState
         (mkHeap [ withPage (withPosition
                               (Div 0 None (sized (StaticSize 100) (StaticSize 150)) [])
                               (5 + 0) (5 + 0)) 0;
                   Div 1 None (sized (StaticSize 100) (StaticSize 150)) [] ]
                 [ {| PageChildren := [0%nat]; PageWidth := 216; PageHeight := 279;
                      PageMargin := NewSingletonSizeQuad 5 |};
                   newPage 216 279 (NewSingletonSizeQuad 5) ])
         (mkDocument [0; 1]%nat) 1 (mkCursor 5 5)).
Proof.
  set (aw := await plainSumRules 1).
  set (st := mkPState breakExample (snd (newDocument 216 279 5)) 0 (mkCursor 5 5)).
  set (pg := {| PageChildren := [0%nat]; PageWidth := 216; PageHeight := 279;
                PageMargin := NewSingletonSizeQuad 5 |}).
  set (n1 := Div 1 None (sized (StaticSize 100) (StaticSize 150)) []).
  set (st1 := mkPState
                (mkHeap [ withPage (withPosition
                                      (Div 0 None (sized (StaticSize 100) (StaticSize 150)) [])
                                      (5 + 0) (5 + 0)) 0; n1 ] [pg])
                (snd (newDocument 216 279 5)) 0 (mkCursor 5 (5 + (150 + (0 + 0))))).
  assert (H1 : placeNode aw 1 0 st = (Ret tt, st1)) by reflexivity.
  assert (H2 : nodes (pheap st1) !! 1%nat = Some n1) by reflexivity.
  assert (H3 : aw (pheap st1) (Height n1) = Ret 150) by reflexivity.
  assert (H4 : pages (pheap st1) !! currentPage st1 = Some pg) by reflexivity.
  assert (H5 : (pageBottom pg <? cy (cursor st1) + 150) = true) by reflexivity.
  assert (H6 : last (DocChildren (pdoc st1)) = Some 0%nat) by reflexivity.
  assert (H7 : pages (pheap st1) !! 0%nat = Some pg) by reflexivity.
  assert (H8 : Forall (sameShape pg) (pages (pheap st))).
  { repeat constructor. }
  exact (proj1 (page_break aw 1 0%nat 1%nat [] st st1 n1 150 pg pg pg 0%nat
                  H1 H2 H3 H4 H5 H6 H7 H8)).
Defined.

Local Close Scope float_scope.

(** ** Clone *)

Lemma cloneOf_frame d : forall h0 hA hB lo hi lo' hi' a a',
  lo' <= lo -> hi <= hi' ->
  (forall i, lo <= i < hi -> nodes hB !! i = nodes hA !! i) ->
  cloneOf d h0 hA lo hi a a' -> cloneOf d h0 hB lo' hi' a a'.
Proof.
  induction d as [|d IH]; intros h0 hA hB lo hi lo' hi' a a' Hlo Hhi Hag;
    cbn; intros (n & n' & Hn & Hn' & Hr & Hs & Hc);
    exists n, n';
    (split; [exact Hn|]); (split; [rewrite Hag by lia; exact Hn'|]);
    (split; [lia|]); (split; [exact Hs|]).
  - exact Hc.
  - eapply Forall2_impl; [exact Hc|]. intros x y Hxy. eapply IH; eauto.
Qed.

Lemma Clone_leaf depth h a n :
  nodes h !! a = Some n -> Children n = [] ->
  Clone depth h a =
    Ret (mkHeap (nodes h ++ [withChildren n []]) (pages h), length (nodes h)).
Proof.
  intros Hn Hc. destruct depth; cbn; rewrite (deref_Some _ _ _ Hn); cbn; rewrite Hc; reflexivity.
Qed.

Lemma Clone_inner depth h a n :
  nodes h !! a = Some n -> Children n <> [] ->
  Clone (S depth) h a =
    (h' <- cloneChildren (Clone depth) (length (nodes h)) (Children n)
             (mkHeap (nodes h ++ [withChildren n []]) (pages h)) ;;
     Ret (h', length (nodes h))).
Proof.
  intros Hn Hc. cbn. rewrite (deref_Some _ _ _ Hn). cbn.
  destruct (Children n); [contradiction|reflexivity].
Qed.

Lemma cloneChildren_spec d (IH : CloneSpec d) h0 h n root :
  root = length (nodes h) ->
  (forall i m, nodes h0 !! i = Some m -> nodes h !! i = Some m) ->
  forall cs, Forall (treeWithin d h0) cs ->
  forall hcur src' done',
    (forall i, i < root -> nodes hcur !! i = nodes h !! i) ->
    root < length (nodes hcur) ->
    pages hcur = pages h ->
    nodes hcur !! root = Some (withChildren n done') ->
    Forall2 (cloneOf d h0 hcur (S root) (length (nodes hcur))) src' done' ->
    exists hfin cs',
      cloneChildren (Clone d) root cs hcur = Ret hfin /\
      (forall i, i < root -> nodes hfin !! i = nodes h !! i) /\
      length (nodes hcur) <= length (nodes hfin) /\
      pages hfin = pages h /\
      nodes hfin !! root = Some (withChildren n (done' ++ cs')) /\
      Forall2 (cloneOf d h0 hfin (S root) (length (nodes hfin))) (src' ++ cs) (done' ++ cs').
Proof.
  intros Hroot Hext cs. induction cs as [|c rest IHcs]; intros HF hcur src' done' Hlow Hlen Hpg Hr Hdone.
  - exists hcur, []. cbn. rewrite !app_nil_r. repeat split; auto.
  - apply Forall_cons in HF as [Hc HFrest].
    assert (Hext' : forall i m, nodes h0 !! i = Some m -> nodes hcur !! i = Some m).
    { intros i m Hi. pose proof (Hext _ _ Hi) as Hi'.
      pose proof (lookup_lt_Some _ _ _ Hi'). rewrite Hlow by lia. exact Hi'. }
    destruct (IH h0 hcur c Hext' Hc) as (h1 & Hcl & Hag1 & Hlen1 & Hpg1 & Hclone).
    set (c' := length (nodes hcur)) in *.
    assert (Hr1 : nodes h1 !! root = Some (withChildren n done')).
    { rewrite Hag1 by lia. exact Hr. }
    set (h2 := mkHeap (<[root := withChildren n (done' ++ [c'])]> (nodes h1)) (pages h1)).
    assert (Hadd : addChild h1 root c' = Ret h2).
    { unfold addChild. rewrite Hr1. reflexivity. }
    assert (Hlen2 : length (nodes h2) = length (nodes h1)).
    { unfold h2. cbn. apply length_insert. }
    destruct (IHcs HFrest h2 (src' ++ [c]) (done' ++ [c'])) as (hfin & cs' & Hcc & Hlowf & Hlenf & Hpgf & Hrf & Hall).
    + intros i Hi. unfold h2. cbn. rewrite list_lookup_insert_ne by lia.
      rewrite Hag1 by lia. apply Hlow. exact Hi.
    + lia.
    + unfold h2. cbn. congruence.
    + unfold h2. cbn. apply list_lookup_insert_eq. lia.
    + apply Forall2_app.
      * eapply Forall2_impl; [exact Hdone|]. intros x y Hxy.
        eapply (cloneOf_frame d h0 hcur h2 (S root) c'); [lia|lia| |exact Hxy].
        intros i Hi. unfold h2. cbn. rewrite list_lookup_insert_ne by lia.
        apply Hag1. lia.
      * constructor; [|constructor].
        eapply (cloneOf_frame d h0 h1 h2 c' (length (nodes h1))); [lia|lia| |exact Hclone].
        intros i Hi. unfold h2. cbn. rewrite list_lookup_insert_ne by lia. reflexivity.
    + exists hfin, (c' :: cs'). cbn [cloneChildren]. rewrite Hcl. cbn [bind fst snd].
      rewrite Hadd. cbn [bind]. rewrite Hcc.
      rewrite <- app_assoc in Hrf. rewrite <- !app_assoc in Hall. cbn in Hrf, Hall.
      repeat split; auto. lia.
Qed.

Lemma Clone_spec d : CloneSpec d.
Proof.
  induction d as [|d IH]; intros h0 h a Hext Ht.
  - destruct Ht as (n & Hn & Hc).
    exists (mkHeap (nodes h ++ [withChildren n []]) (pages h)).
    rewrite (Clone_leaf _ _ _ _ (Hext _ _ Hn) Hc). cbn.
    repeat split.
    + intros i Hi. apply lookup_app_l. exact Hi.
    + rewrite length_app. cbn. lia.
    + exists n, (withChildren n []). repeat split; auto.
      * apply list_lookup_middle. reflexivity.
      * rewrite length_app. cbn. lia.
  - destruct Ht as (n & Hn & Hc).
    destruct (Children n) as [|c0 cs0] eqn:Ecs.
    + exists (mkHeap (nodes h ++ [withChildren n []]) (pages h)).
      rewrite (Clone_leaf _ _ _ _ (Hext _ _ Hn) Ecs). cbn.
      repeat split.
      * intros i Hi. apply lookup_app_l. exact Hi.
      * rewrite length_app. cbn. lia.
      * exists n, (withChildren n []). repeat split; auto.
        -- apply list_lookup_middle. reflexivity.
        -- rewrite length_app. cbn. lia.
        -- rewrite Ecs. constructor.
    + set (root := length (nodes h)).
      set (h1 := mkHeap (nodes h ++ [withChildren n []]) (pages h)).
      destruct (cloneChildren_spec d IH h0 h n root eq_refl Hext (Children n)
                  ltac:(rewrite Ecs; exact Hc) h1 [] [])
        as (hfin & cs' & Hcc & Hlow & Hlen & Hpg & Hr & Hall).
      * intros i Hi. unfold h1. cbn. apply lookup_app_l. exact Hi.
      * unfold h1. cbn. rewrite length_app. cbn. lia.
      * reflexivity.
      * unfold h1. cbn. apply list_lookup_middle. reflexivity.
      * constructor.
      * exists hfin. rewrite (Clone_inner _ _ _ _ (Hext _ _ Hn)) by (rewrite Ecs; discriminate).
        fold root. fold h1. rewrite Hcc. cbn [bind].
        assert (Hlen1 : length (nodes h1) = S root).
        { unfold h1. cbn. rewrite length_app. cbn. lia. }
        repeat split; auto; try lia.
        exists n, (withChildren n cs'). repeat split; auto; try lia.
        cbn in Hall. rewrite Ecs. rewrite Ecs in Hall. cbn [Children withChildren].
        eapply Forall2_impl; [exact Hall|]. intros x y Hxy.
        apply (cloneOf_frame d h0 hfin hfin (S root) (length (nodes hfin)));
          [unfold root; lia|lia|reflexivity|exact Hxy].
Qed.

(** C10.  On a tree of depth at most [d], [Clone] returns; the heap it
    leaves holds every node of the old heap unchanged, at the same address,
    and the same pages; the returned address is a new one, and the node
    there is a copy of the original in the sense of [cloneOf]: each node of
    the copy has the fields of the node it copies, a child list of its own
    made of new addresses, and children that are copies in turn.  The
    futures are among the copied fields, so the owner of the futures of a
    copy is whatever the original's futures had: when the original is bound
    to itself, the copy is bound to the original, not to itself. *)
Theorem Clone_copies_tree (d : nat) (h : Heap) (a : naddr) (n : LayoutNode) :
  treeWithin d h a -> nodes h !! a = Some n ->
  exists h' a' n',
    Clone d h a = Ret (h', a') /\
    (forall i, i < length (nodes h) -> nodes h' !! i = nodes h !! i) /\
    pages h' = pages h /\
    length (nodes h) <= a' /\
    cloneOf d h h' (length (nodes h)) (length (nodes h')) a a' /\
    nodes h' !! a' = Some n' /\
    Width n' = Width n /\ Height n' = Height n /\ Parent n' = Parent n /\
    (node (Width n) = Some a ->
       node (Width n') = Some a /\ node (Width n') <> Some a') /\
    (node (Height n) = Some a ->
       node (Height n') = Some a /\ node (Height n') <> Some a').
Proof.
  intros Ht Hn.
  destruct (Clone_spec d h h a (fun _ _ E => E) Ht) as (h' & Hcl & Hag & Hlen & Hpg & Hclone).
  pose proof Hclone as Hclone'.
  assert (Hfields : exists n', nodes h' !! length (nodes h) = Some n' /\ sameButChildren n n').
  { destruct d; cbn in Hclone'; destruct Hclone' as (m & m' & Hm & Hm' & _ & Hs & _);
      rewrite Hn in Hm; inversion Hm; subst m; exists m'; split; assumption. }
  destruct Hfields as (n' & Hn' & Hsame & Hw & Hh).
  pose proof (lookup_lt_Some _ _ _ Hn) as Hlt.
  exists h', (length (nodes h)), n'.
  assert (HW : Width n' = Width n) by exact (f_equal Width Hsame).
  assert (HH : Height n' = Height n) by exact (f_equal Height Hsame).
  assert (HP : Parent n' = Parent n) by exact (f_equal Parent Hsame).
  repeat split; auto.
  - rewrite HW. assumption.
  - rewrite HW. intros E. rewrite H in E. inversion E. lia.
  - rewrite HH. assumption.
  - rewrite HH. intros E. rewrite H in E. inversion E. lia.
Qed.

Lemma Clone_copies_tree_witness :
  exists h' a' n',
    Clone 1 alignExample 0 = Ret (h', a') /\
    3 <= a' /\
    nodes h' !! a' = Some n' /\
    node (Width n') = Some 0%nat /\ node (Width n') <> Some a'.
Proof.
  assert (Ht : treeWithin 1 alignExample 0).
  { cbn. eexists. split; [reflexivity|]. cbn.
    repeat constructor; eexists; (split; [reflexivity|reflexivity]). }
  destruct (Clone_copies_tree 1 alignExample 0%nat _ Ht eq_refl)
    as (h' & a' & n' & Hcl & _ & _ & Hfresh & _ & Hn' & _ & _ & _ & Hw & _).
  exists h', a', n'.
  split; [exact Hcl|]. split; [exact Hfresh|]. split; [exact Hn'|].
  exact (Hw eq_refl).
Defined.

Local Open Scope float_scope.

(** ** The intrinsic rules *)

(** Order facts about binary64 comparison, from its specification. *)
Lemma SFltb_trans a b c :
  SFltb a b = true -> SFltb b c = true -> SFltb a c = true.
Proof.
  unfold SFltb, SFcompare.
  destruct a as [sa|sa| |sa ma ea], b as [sb|sb| |sb mb eb], c as [sc|sc| |sc mc ec];
    try discriminate; try (destruct sa; discriminate); try (destruct sb; discriminate);
    try (destruct sa, sb; try discriminate; destruct sc; discriminate || reflexivity);
    try (destruct sa, sc; try discriminate; destruct sb; discriminate || reflexivity);
    try (destruct sb, sc; try discriminate; destruct sa; discriminate || reflexivity).
  all: destruct sa, sb, sc; try discriminate; try reflexivity.
  all: destruct (Z.compare_spec ea eb), (Z.compare_spec eb ec), (Z.compare_spec ea ec);
    try discriminate; try reflexivity; try lia; subst.
  all: rewrite ?Pos.compare_cont_spec; simpl;
    destruct (Pos.compare_spec ma mb), (Pos.compare_spec mb mc), (Pos.compare_spec ma mc);
    simpl; try discriminate; try reflexivity; try lia.
Qed.

Lemma SFltb_irrefl a : SFltb a a = false.
Proof.
  unfold SFltb, SFcompare.
  destruct a as [s|s| |s m e]; try reflexivity; try (destruct s; reflexivity).
  destruct s; rewrite Z.compare_refl, Pos.compare_cont_refl; reflexivity.
Qed.

Lemma ltb_trans (a b c : Size) :
  (a <? b) = true -> (b <? c) = true -> (a <? c) = true.
Proof. rewrite !ltb_spec. apply SFltb_trans. Qed.

Lemma ltb_irrefl (a : Size) : (a <? a) = false.
Proof. rewrite ltb_spec. apply SFltb_irrefl. Qed.

Lemma SFltb_cotrans a b c :
  SFltb a c = true -> SFltb a b = true \/ SFltb b c = true \/ b = S754_nan.
Proof.
  unfold SFltb, SFcompare.
  destruct b as [sb|sb| |sb mb eb]; [| |right; right; reflexivity|];
    destruct a as [sa|sa| |sa ma ea], c as [sc|sc| |sc mc ec];
    try discriminate;
    try (destruct sa, sb, sc; intros; try discriminate; auto; fail).
  destruct sa, sb, sc; intros H; try discriminate; auto;
    destruct (Z.compare_spec ea eb), (Z.compare_spec eb ec), (Z.compare_spec ea ec);
    try discriminate; auto; try lia; subst;
    rewrite ?Pos.compare_cont_spec in *; simpl in *;
    destruct (Pos.compare_spec ma mb), (Pos.compare_spec mb mc), (Pos.compare_spec ma mc);
    simpl in *; try discriminate; auto; try lia.
Qed.

Lemma ltb_cotrans (a b c : Size) :
  (a <? c) = true -> (a <? b) = true \/ (b <? c) = true \/ Prim2SF b = S754_nan.
Proof. rewrite !ltb_spec. apply SFltb_cotrans. Qed.

Lemma ltb_nan_l (a x : Size) : Prim2SF a = S754_nan -> (a <? x) = false.
Proof. intros E. rewrite ltb_spec, E. reflexivity. Qed.

Lemma largest_from_nan (vs : list Size) (acc : Size) :
  Prim2SF acc = S754_nan -> fold_left larger vs acc = acc.
Proof.
  intros E. induction vs as [|v vs IH]; cbn [fold_left]; [reflexivity|].
  unfold larger at 2. rewrite (ltb_nan_l _ _ E). exact IH.
Qed.

(** The running maximum: it is the start value or one of the values seen,
    and neither the start value nor any value seen exceeds it. *)
Lemma largest_from (vs : list Size) : forall acc,
  In (fold_left larger vs acc) (acc :: vs) /\
  (fold_left larger vs acc <? acc) = false /\
  Forall (fun v => (fold_left larger vs acc <? v) = false) vs.
Proof.
  induction vs as [|v vs IH]; intros acc; cbn [fold_left].
  - split; [left; reflexivity|]. split; [apply ltb_irrefl|constructor].
  - destruct (IH (larger acc v)) as (Hin & Hacc & Hall).
    set (m := fold_left larger vs (larger acc v)) in *.
    unfold larger in Hin, Hacc. 
    destruct (acc <? v) eqn:E.
    + split; [right; exact Hin|]. split; [|constructor; assumption].
      destruct (m <? acc) eqn:E2; [|reflexivity].
      rewrite (ltb_trans _ _ _ E2 E) in Hacc. discriminate.
    + split; [destruct Hin as [Hin|Hin]; [left; exact Hin|right; right; exact Hin]|].
      split; [exact Hacc|]. constructor; [|assumption].
      destruct (m <? v) eqn:E2; [|reflexivity].
      destruct (ltb_cotrans _ acc _ E2) as [H|[H|H]]; try congruence.
      subst m. unfold larger at 2 in E2. rewrite E in E2.
      rewrite (largest_from_nan _ _ H) in E2. rewrite (ltb_nan_l _ _ H) in E2. discriminate.
Qed.

Lemma sumExtents_sum h ext cs : forall acc vs,
  extentsOf ext h cs vs ->
  Intrinsic.sumExtents h ext cs acc = Ret (sumFrom (fun v => v) acc vs).
Proof.
  induction cs as [|c rest IH]; intros acc vs HF; inversion HF as [|? v ? vs' [cn [Hl He]] HF'];
    subst; cbn.
  - reflexivity.
  - rewrite (deref_Some _ _ _ Hl). cbn. rewrite He. cbn. now apply IH.
Qed.

Lemma maxExtents_largest h ext cs : forall acc vs,
  extentsOf ext h cs vs ->
  Intrinsic.maxExtents h ext cs acc = Ret (fold_left larger vs acc).
Proof.
  induction cs as [|c rest IH]; intros acc vs HF; inversion HF as [|? v ? vs' [cn [Hl He]] HF'];
    subst; cbn.
  - reflexivity.
  - rewrite (deref_Some _ _ _ Hl). cbn. rewrite He. cbn. now apply IH.
Qed.

(** X21. The intrinsic rules of the listing with leaf delegation.  For a
    container that is not the wrapper of a visual leaf, whose children's
    bounding extents are [hs] (heights) or [ws] (widths): along the flow
    the intrinsic size is their sum from the left plus the two paddings of
    the axis; across the flow it is the running maximum that starts at 0 --
    the largest of 0 and the extents -- plus the two paddings.  Heights 10,
    20, 15 give 45 with vertical flow and 20 with horizontal flow. *)
Theorem intrinsic_rule (aw : Future -> outcome Size) (h : Heap) (nd : naddr)
        (n : LayoutNode) (p : option Size) :
  nodes h !! nd = Some n ->
  Intrinsic.wrappedVisual h n = Ret None ->
  (forall hs, extentsOf (Intrinsic.getBoundingHeight aw) h (Children n) hs ->
     Intrinsic.heightAsChildren aw h nd p =
       Ret ((if Z.eqb (ChildFlowDirection n) FlowHorizontal
             then fold_left larger hs 0
             else sumFrom (fun v => v) 0 hs)
            + qtop (Padding n) + qbottom (Padding n))) /\
  (forall ws, extentsOf (Intrinsic.getBoundingWidth aw) h (Children n) ws ->
     Intrinsic.widthAsChildren aw h nd p =
       Ret ((if Z.eqb (ChildFlowDirection n) FlowVertical
             then fold_left larger ws 0
             else sumFrom (fun v => v) 0 ws)
            + qleft (Padding n) + qright (Padding n))) /\
  (forall vs, In (fold_left larger vs 0) (0 :: vs) /\
              Forall (fun v => (fold_left larger vs 0 <? v) = false) (0 :: vs)) /\
  await intrinsicRules 1 (intrinsicExample FlowVertical) (bindTo 0 HeightAsChildren)
    = Ret 45 /\
  await intrinsicRules 1 (intrinsicExample FlowHorizontal) (bindTo 0 HeightAsChildren)
    = Ret 20.
Proof.
  intros Hn Hleaf. split; [|split; [|split; [|split; reflexivity]]].
  - intros hs HF. unfold Intrinsic.heightAsChildren.
    rewrite (deref_Some _ _ _ Hn). cbn [bind]. rewrite Hleaf. cbn [bind].
    destruct (Z.eqb (ChildFlowDirection n) FlowHorizontal).
    + rewrite (maxExtents_largest _ _ _ _ _ HF). reflexivity.
    + rewrite (sumExtents_sum _ _ _ _ _ HF). reflexivity.
  - intros ws HF. unfold Intrinsic.widthAsChildren.
    rewrite (deref_Some _ _ _ Hn). cbn [bind]. rewrite Hleaf. cbn [bind].
    destruct (Z.eqb (ChildFlowDirection n) FlowVertical).
    + rewrite (maxExtents_largest _ _ _ _ _ HF). reflexivity.
    + rewrite (sumExtents_sum _ _ _ _ _ HF). reflexivity.
  - intros vs. destruct (largest_from vs 0) as (Hin & H0 & Hall).
    split; [exact Hin|]. constructor; assumption.
Qed.

Lemma intrinsic_rule_witness :
  Intrinsic.heightAsChildren (await intrinsicRules 0 (intrinsicExample FlowHorizontal))
                             (intrinsicExample FlowHorizontal) 0 None
  = Ret (fold_left larger [10 + (0 + 0); 20 + (0 + 0); 15 + (0 + 0)] 0 + 0 + 0).
Proof.
  set (h := intrinsicExample FlowHorizontal).
  set (n0 := Div 0 None (withFlow (sized (StaticSize 100) HeightAsChildren) FlowHorizontal)
                 [1; 2; 3]%nat).
  assert (Hn : nodes h !! 0%nat = Some n0) by reflexivity.
  assert (Hleaf : Intrinsic.wrappedVisual h n0 = Ret None) by reflexivity.
  apply (proj1 (intrinsic_rule (await intrinsicRules 0 h) h 0%nat n0 None Hn Hleaf)).
  repeat constructor; eexists; (split; [reflexivity|reflexivity]).
Defined.

(** C3.  The code at the failing inputs.  In the listing with leaf
    delegation a container with horizontal flow whose children have the
    bounding heights -10 and -20 gets the intrinsic height 0: the loop
    that looks for the tallest child starts its maximum at 0.0, and the
    largest of the extents is -10.  In the other listing the rule sums the
    awaited heights whatever the flow: heights 10, 20, 15 under horizontal
    flow give 45 where the largest is 20, and the heights -10 and -20 give
    -30. *)
Theorem intrinsic_height_misses_the_maximum :
  extentsOf (Intrinsic.getBoundingHeight (await intrinsicRules 0 negativeExample))
            negativeExample [1; 2]%nat [-10; -20] /\
  maximumOf [-10; -20] = Some (-10) /\
  await intrinsicRules 1 negativeExample (bindTo 0 HeightAsChildren) = Ret 0 /\
  extentsOf (fun cn => r <- getBoundingRect
                             (await plainSumRules 0 (intrinsicExample FlowHorizontal)) cn ;;
                       Ret (height r))
            (intrinsicExample FlowHorizontal) [1; 2; 3]%nat [10; 20; 15] /\
  maximumOf [10; 20; 15] = Some 20 /\
  await plainSumRules 1 (intrinsicExample FlowHorizontal) (bindTo 0 HeightAsChildren)
    = Ret 45 /\
  await plainSumRules 1 negativeExample (bindTo 0 HeightAsChildren) = Ret (-30).
Proof.
  split; [|split; [reflexivity|split; [reflexivity|split; [|repeat split; reflexivity]]]].
  - repeat constructor; eexists; (split; [reflexivity|reflexivity]).
  - repeat constructor; eexists; (split; [reflexivity|reflexivity]).
Qed.

(* ================================================================== *)
(** * Further properties                                               *)
(* ================================================================== *)

(** ** Sizes do not read positions *)

Lemma deref_eraseXY h a :
  deref (eraseXY h) a = (n <- deref h a ;; Ret (withPosition n 0 0)).
Proof.
  unfold deref, eraseXY. cbn [nodes]. rewrite list_lookup_fmap.
  destruct (nodes h !! a); reflexivity.
Qed.

Section SizesIgnorePositions.

Variables aw aw' : Future -> outcome Size.
Hypothesis Haw : forall f, aw f = aw' f.
Variable h : Heap.

Lemma getBoundingRect_ext n : getBoundingRect aw n = getBoundingRect aw' n.
Proof. unfold getBoundingRect. rewrite !Haw. reflexivity. Qed.

Lemma getDrawRect_ext n : getDrawRect aw n = getDrawRect aw' n.
Proof. unfold getDrawRect. rewrite !Haw. reflexivity. Qed.

Lemma parentDrawRectOf_erase n :
  parentDrawRectOf aw (eraseXY h) (withPosition n 0 0) = parentDrawRectOf aw' h n.
Proof.
  unfold parentDrawRectOf. cbn [Parent OnPage withPosition].
  destruct (Parent n) as [p|].
  - rewrite deref_eraseXY. destruct (deref h p) as [pn| | |]; cbn [bind]; try reflexivity.
    rewrite <- getDrawRect_ext. reflexivity.
  - reflexivity.
Qed.

Lemma fillContext_erase n :
  fillContext aw (eraseXY h) (withPosition n 0 0) = fillContext aw' h n.
Proof.
  unfold fillContext. cbn [Parent OnPage withPosition].
  destruct (Parent n) as [p|].
  - rewrite deref_eraseXY. destruct (deref h p) as [pn| | |]; cbn [bind]; try reflexivity.
    rewrite <- getDrawRect_ext. reflexivity.
  - reflexivity.
Qed.

Lemma siblingExtents_erase ext nd sibs : forall acc,
  siblingExtents aw (eraseXY h) ext nd sibs acc = siblingExtents aw' h ext nd sibs acc.
Proof.
  induction sibs as [|s rest IH]; intros acc; cbn [siblingExtents]; [reflexivity|].
  destruct (Nat.eqb s nd); [apply IH|].
  rewrite deref_eraseXY. destruct (deref h s) as [sn| | |]; cbn [bind]; try reflexivity.
  rewrite <- getBoundingRect_ext.
  change (getBoundingRect aw (withPosition sn 0 0)) with (getBoundingRect aw sn).
  destruct (getBoundingRect aw sn); cbn [bind]; try reflexivity. apply IH.
Qed.

Lemma widthPercentage_erase nd p :
  widthPercentage aw (eraseXY h) nd p = widthPercentage aw' h nd p.
Proof.
  unfold widthPercentage. rewrite deref_eraseXY.
  destruct (deref h nd) as [n| | |]; cbn [bind]; try reflexivity.
  rewrite parentDrawRectOf_erase. reflexivity.
Qed.

Lemma heightPercentage_erase nd p :
  heightPercentage aw (eraseXY h) nd p = heightPercentage aw' h nd p.
Proof.
  unfold heightPercentage. rewrite deref_eraseXY.
  destruct (deref h nd) as [n| | |]; cbn [bind]; try reflexivity.
  rewrite parentDrawRectOf_erase. reflexivity.
Qed.

Lemma widthFill_erase nd p :
  widthFill aw (eraseXY h) nd p = widthFill aw' h nd p.
Proof.
  unfold widthFill. rewrite deref_eraseXY.
  destruct (deref h nd) as [n| | |]; cbn [bind]; try reflexivity.
  rewrite fillContext_erase.
  destruct (fillContext aw' h n) as [[[r sibs] flow]| | |]; cbn [bind]; try reflexivity.
  rewrite widthPercentage_erase, siblingExtents_erase. reflexivity.
Qed.

Lemma heightFill_erase nd p :
  heightFill aw (eraseXY h) nd p = heightFill aw' h nd p.
Proof.
  unfold heightFill. rewrite deref_eraseXY.
  destruct (deref h nd) as [n| | |]; cbn [bind]; try reflexivity.
  rewrite fillContext_erase.
  destruct (fillContext aw' h n) as [[[r sibs] flow]| | |]; cbn [bind]; try reflexivity.
  rewrite heightPercentage_erase, siblingExtents_erase. reflexivity.
Qed.

Lemma sumAwaited_erase field (Hf : forall n, field (withPosition n 0 0) = field n) cs :
  forall acc,
  PlainSum.sumAwaited aw (eraseXY h) field cs acc = PlainSum.sumAwaited aw' h field cs acc.
Proof.
  induction cs as [|c rest IH]; intros acc; cbn [PlainSum.sumAwaited]; [reflexivity|].
  rewrite deref_eraseXY. destruct (deref h c) as [cn| | |]; cbn [bind]; try reflexivity.
  rewrite Hf, Haw. destruct (aw' (field cn)); cbn [bind]; try reflexivity. apply IH.
Qed.

Lemma sumExtents_erase ext ext'
      (He : forall n, ext (withPosition n 0 0) = ext' n) cs : forall acc,
  Intrinsic.sumExtents (eraseXY h) ext cs acc = Intrinsic.sumExtents h ext' cs acc.
Proof.
  induction cs as [|c rest IH]; intros acc; cbn [Intrinsic.sumExtents]; [reflexivity|].
  rewrite deref_eraseXY. destruct (deref h c) as [cn| | |]; cbn [bind]; try reflexivity.
  rewrite He. destruct (ext' cn); cbn [bind]; try reflexivity. apply IH.
Qed.

Lemma maxExtents_erase ext ext'
      (He : forall n, ext (withPosition n 0 0) = ext' n) cs : forall acc,
  Intrinsic.maxExtents (eraseXY h) ext cs acc = Intrinsic.maxExtents h ext' cs acc.
Proof.
  induction cs as [|c rest IH]; intros acc; cbn [Intrinsic.maxExtents]; [reflexivity|].
  rewrite deref_eraseXY. destruct (deref h c) as [cn| | |]; cbn [bind]; try reflexivity.
  rewrite He. destruct (ext' cn); cbn [bind]; try reflexivity. apply IH.
Qed.

Lemma getBoundingHeight_erase n :
  Intrinsic.getBoundingHeight aw (withPosition n 0 0) = Intrinsic.getBoundingHeight aw' n.
Proof. unfold Intrinsic.getBoundingHeight. cbn [Height Margin withPosition]. rewrite Haw. reflexivity. Qed.

Lemma getBoundingWidth_erase n :
  Intrinsic.getBoundingWidth aw (withPosition n 0 0) = Intrinsic.getBoundingWidth aw' n.
Proof. unfold Intrinsic.getBoundingWidth. cbn [Width Margin withPosition]. rewrite Haw. reflexivity. Qed.

Lemma wrappedVisual_erase n :
  Intrinsic.wrappedVisual (eraseXY h) (withPosition n 0 0)
  = (r <- Intrinsic.wrappedVisual h n ;;
     Ret (match r with Some (cn, v) => Some (withPosition cn 0 0, v) | None => None end)).
Proof.
  unfold Intrinsic.wrappedVisual. cbn [Children withPosition].
  destruct (Children n) as [|c [|c2 rest]]; try reflexivity.
  rewrite deref_eraseXY. destruct (deref h c) as [cn| | |]; cbn [bind]; try reflexivity.
  cbn [VisualNode withPosition]. destruct (VisualNode cn); reflexivity.
Qed.

Lemma Intrinsic_heightAsChildren_erase nd p :
  Intrinsic.heightAsChildren aw (eraseXY h) nd p = Intrinsic.heightAsChildren aw' h nd p.
Proof.
  unfold Intrinsic.heightAsChildren. rewrite deref_eraseXY.
  destruct (deref h nd) as [n| | |]; cbn [bind]; try reflexivity.
  rewrite wrappedVisual_erase.
  destruct (Intrinsic.wrappedVisual h n) as [[[cn [t|i]]|]| | |]; cbn [bind]; try reflexivity.
  cbn [ChildFlowDirection Children Padding withPosition].
  rewrite (maxExtents_erase _ _ getBoundingHeight_erase),
    (sumExtents_erase _ _ getBoundingHeight_erase). reflexivity.
Qed.

Lemma Intrinsic_widthAsChildren_erase nd p :
  Intrinsic.widthAsChildren aw (eraseXY h) nd p = Intrinsic.widthAsChildren aw' h nd p.
Proof.
  unfold Intrinsic.widthAsChildren. rewrite deref_eraseXY.
  destruct (deref h nd) as [n| | |]; cbn [bind]; try reflexivity.
  rewrite wrappedVisual_erase.
  destruct (Intrinsic.wrappedVisual h n) as [[[cn [t|i]]|]| | |]; cbn [bind]; try reflexivity.
  cbn [ChildFlowDirection Children Padding withPosition].
  rewrite (maxExtents_erase _ _ getBoundingWidth_erase),
    (sumExtents_erase _ _ getBoundingWidth_erase). reflexivity.
Qed.

Lemma getDrawHeight_erase n :
  Intrinsic.getDrawHeight aw (withPosition n 0 0) = Intrinsic.getDrawHeight aw' n.
Proof. unfold Intrinsic.getDrawHeight. cbn [Height Padding withPosition]. rewrite Haw. reflexivity. Qed.

Lemma getDrawWidth_erase n :
  Intrinsic.getDrawWidth aw (withPosition n 0 0) = Intrinsic.getDrawWidth aw' n.
Proof. unfold Intrinsic.getDrawWidth. cbn [Width Padding withPosition]. rewrite Haw. reflexivity. Qed.

Lemma parentDrawExtent_erase ext ext' pageExtent
      (He : forall n, ext (withPosition n 0 0) = ext' n) n :
  Intrinsic.parentDrawExtent (eraseXY h) ext pageExtent (withPosition n 0 0)
  = Intrinsic.parentDrawExtent h ext' pageExtent n.
Proof.
  unfold Intrinsic.parentDrawExtent. cbn [Parent OnPage withPosition].
  destruct (Parent n) as [pa|]; [|reflexivity].
  rewrite deref_eraseXY. destruct (deref h pa) as [pn| | |]; cbn [bind]; try reflexivity.
  apply He.
Qed.

Lemma Intrinsic_fillContext_erase ext ext' pageExtent
      (He : forall n, ext (withPosition n 0 0) = ext' n) n :
  Intrinsic.fillContext (eraseXY h) ext pageExtent (withPosition n 0 0)
  = Intrinsic.fillContext h ext' pageExtent n.
Proof.
  unfold Intrinsic.fillContext. cbn [Parent OnPage withPosition].
  destruct (Parent n) as [pa|]; [|reflexivity].
  rewrite deref_eraseXY. destruct (deref h pa) as [pn| | |]; cbn [bind]; try reflexivity.
  rewrite He. reflexivity.
Qed.

Lemma Intrinsic_siblingExtents_erase ext ext'
      (He : forall n, ext (withPosition n 0 0) = ext' n) nd sibs : forall acc,
  Intrinsic.siblingExtents (eraseXY h) ext nd sibs acc
  = Intrinsic.siblingExtents h ext' nd sibs acc.
Proof.
  induction sibs as [|s rest IH]; intros acc; cbn [Intrinsic.siblingExtents]; [reflexivity|].
  destruct (Nat.eqb s nd); [apply IH|].
  rewrite deref_eraseXY. destruct (deref h s) as [sn| | |]; cbn [bind]; try reflexivity.
  rewrite He. destruct (ext' sn); cbn [bind]; try reflexivity. apply IH.
Qed.

Lemma Intrinsic_widthPercentage_erase nd p :
  Intrinsic.widthPercentage aw (eraseXY h) nd p = Intrinsic.widthPercentage aw' h nd p.
Proof.
  unfold Intrinsic.widthPercentage. rewrite deref_eraseXY.
  destruct (deref h nd) as [n| | |]; cbn [bind]; try reflexivity.
  rewrite (parentDrawExtent_erase _ _ _ getDrawWidth_erase). reflexivity.
Qed.

Lemma Intrinsic_heightPercentage_erase nd p :
  Intrinsic.heightPercentage aw (eraseXY h) nd p = Intrinsic.heightPercentage aw' h nd p.
Proof.
  unfold Intrinsic.heightPercentage. rewrite deref_eraseXY.
  destruct (deref h nd) as [n| | |]; cbn [bind]; try reflexivity.
  rewrite (parentDrawExtent_erase _ _ _ getDrawHeight_erase). reflexivity.
Qed.

Lemma Intrinsic_widthFill_erase nd p :
  Intrinsic.widthFill aw (eraseXY h) nd p = Intrinsic.widthFill aw' h nd p.
Proof.
  unfold Intrinsic.widthFill. rewrite deref_eraseXY.
  destruct (deref h nd) as [n| | |]; cbn [bind]; try reflexivity.
  rewrite (Intrinsic_fillContext_erase _ _ _ getDrawWidth_erase).
  destruct (Intrinsic.fillContext h _ width n) as [[[e sibs] flow]| | |];
    cbn [bind]; try reflexivity.
  rewrite Intrinsic_widthPercentage_erase,
    (Intrinsic_siblingExtents_erase _ _ getBoundingWidth_erase). reflexivity.
Qed.

Lemma Intrinsic_heightFill_erase nd p :
  Intrinsic.heightFill aw (eraseXY h) nd p = Intrinsic.heightFill aw' h nd p.
Proof.
  unfold Intrinsic.heightFill. rewrite deref_eraseXY.
  destruct (deref h nd) as [n| | |]; cbn [bind]; try reflexivity.
  rewrite (Intrinsic_fillContext_erase _ _ _ getDrawHeight_erase).
  destruct (Intrinsic.fillContext h _ height n) as [[[e sibs] flow]| | |];
    cbn [bind]; try reflexivity.
  rewrite Intrinsic_heightPercentage_erase,
    (Intrinsic_siblingExtents_erase _ _ getBoundingHeight_erase). reflexivity.
Qed.

Lemma PlainSum_heightAsChildren_erase nd p :
  PlainSum.heightAsChildren aw (eraseXY h) nd p = PlainSum.heightAsChildren aw' h nd p.
Proof.
  unfold PlainSum.heightAsChildren. rewrite deref_eraseXY.
  destruct (deref h nd) as [n| | |]; cbn [bind]; try reflexivity.
  apply sumAwaited_erase. reflexivity.
Qed.

Lemma PlainSum_widthAsChildren_erase nd p :
  PlainSum.widthAsChildren aw (eraseXY h) nd p = PlainSum.widthAsChildren aw' h nd p.
Proof.
  unfold PlainSum.widthAsChildren. rewrite deref_eraseXY.
  destruct (deref h nd) as [n| | |]; cbn [bind]; try reflexivity.
  apply sumAwaited_erase. reflexivity.
Qed.

End SizesIgnorePositions.

Lemma plainSumRules_ignore : ignoresPositions plainSumRules.
Proof.
  intros d aw aw' h nd p Haw. unfold plainSumRules, sharedRule.
  destruct d; auto using heightFill_erase, widthFill_erase, widthPercentage_erase,
    heightPercentage_erase, PlainSum_heightAsChildren_erase, PlainSum_widthAsChildren_erase.
Qed.

Lemma intrinsicRules_ignore : ignoresPositions intrinsicRules.
Proof.
  intros d aw aw' h nd p Haw. unfold intrinsicRules.
  destruct d; auto using Intrinsic_heightFill_erase, Intrinsic_widthFill_erase,
    Intrinsic_widthPercentage_erase, Intrinsic_heightPercentage_erase,
    Intrinsic_heightAsChildren_erase, Intrinsic_widthAsChildren_erase.
Qed.

Lemma await_eraseXY R (HR : ignoresPositions R) k : forall h f,
  await R k (eraseXY h) f = await R k h f.
Proof.
  induction k as [|k IH]; intros h f; cbn [await]; [reflexivity|].
  destruct (node f) as [nd|]; [|reflexivity].
  destruct (state f); [|reflexivity].
  destruct (definition f) as [d|]; [|reflexivity].
  apply HR. intros g. apply IH.
Qed.

(** ** The resolver writes positions only *)

Lemma setPosition_eraseXY h a x y h1 :
  setPosition h a x y = Ret h1 -> eraseXY h1 = eraseXY h.
Proof.
  unfold setPosition. destruct (nodes h !! a) as [n|] eqn:E; [|discriminate].
  intros H. inversion H; subst. unfold eraseXY. cbn [nodes pages]. f_equal.
  rewrite list_fmap_insert. apply list_insert_id.
  rewrite list_lookup_fmap, E. reflexivity.
Qed.

Section WritesPositionsOnly.

Variable aw : Heap -> Future -> outcome Size.

Lemma positionChildren_eraseXY (rec : naddr -> step unit) flow al :
  (forall c st r st', rec c st = (r, st') -> eraseXY (fst st') = eraseXY (fst st)) ->
  forall cs st r st',
    positionChildren aw rec flow al cs st = (r, st') ->
    eraseXY (fst st') = eraseXY (fst st).
Proof.
  intros Hrec. induction cs as [|c rest IH]; intros [h cur] r st' H; cbn in H.
  - inversion H. reflexivity.
  - destruct (setPosition h c (cx cur) (cy cur)) as [h1| | |] eqn:E1;
      try (inversion H; reflexivity).
    apply setPosition_eraseXY in E1.
    destruct (rec c (h1, cur)) as [r2 [h2 c2]] eqn:E2.
    apply Hrec in E2. cbn in E2.
    destruct r2 as [[]| | |]; try (inversion H; cbn; congruence).
    destruct (cn <- deref h2 c ;; uncheckedBoundingRect (aw h2) cn) as [cbr| | |];
      try (inversion H; cbn; congruence).
    destruct rest as [|next rest'].
    + inversion H; cbn; congruence.
    + destruct (nn <- deref h2 next ;; nbr <- getBoundingRect (aw h2) nn ;;
                Ret (nbr, Margin nn)) as [[nbr nm]| | |];
        try (inversion H; cbn; congruence).
      apply IH in H. cbn in *. congruence.
Qed.

Lemma recursiveSetPositions_eraseXY depth :
  forall nd st r st',
    recursiveSetPositions aw depth nd st = (r, st') ->
    eraseXY (fst st') = eraseXY (fst st).
Proof.
  induction depth as [|d IH]; intros nd [h cur] r st' H; cbn in H.
  - destruct (deref h nd) as [n| | |]; try (inversion H; reflexivity).
    destruct (Children n); inversion H; reflexivity.
  - destruct (deref h nd) as [n| | |]; try (inversion H; reflexivity).
    destruct (Children n) as [|first rest]; [inversion H; reflexivity|].
    destruct (measure aw h n first) as [[[[f pd] cb] [fw fh]]| | |];
      try (inversion H; reflexivity).
    destruct (startOffset _ _ _ _ _ _ _ _) as [c2| | |];
      try (inversion H; reflexivity).
    destruct (positionChildren _ _ _ _ _ _) as [r3 [h3 c3]] eqn:E.
    apply (positionChildren_eraseXY _ _ _ (IH)) in E. cbn in E.
    destruct r3 as [[]| | |]; inversion H; cbn; congruence.
Qed.

End WritesPositionsOnly.

Lemma eraseXY_lookup h h' a n' :
  eraseXY h' = eraseXY h -> nodes h' !! a = Some n' ->
  exists n, nodes h !! a = Some n /\ withPosition n' 0 0 = withPosition n 0 0.
Proof.
  intros E Hn'. pose proof (f_equal (fun x => nodes x !! a) E) as Hl.
  unfold eraseXY in Hl. cbn [nodes] in Hl. rewrite !list_lookup_fmap, Hn' in Hl.
  destruct (nodes h !! a) as [n|]; [|discriminate].
  exists n. split; [reflexivity|].
  change (Some (withPosition n' 0 0) = Some (withPosition n 0 0)) in Hl. congruence.
Qed.

Lemma withPosition_same n n' :
  withPosition n' 0 0 = withPosition n 0 0 -> n' = withPosition n (X n') (Y n').
Proof.
  destruct n, n'. unfold withPosition. cbn. intros E. inversion E; subst. reflexivity.
Qed.

(** X1. A run of the resolver, whatever its outcome, changes nothing but the
    positions: the pages, the number of nodes, and every field of every node
    other than X and Y are the ones it found. *)
Theorem resolver_writes_positions_only (aw : Heap -> Future -> outcome Size)
        (depth : nat) (nd : naddr) (h h' : Heap) (cur cur' : resolverCursor)
        (r : outcome unit) :
  recursiveSetPositions aw depth nd (h, cur) = (r, (h', cur')) ->
  pages h' = pages h /\
  length (nodes h') = length (nodes h) /\
  forall a n', nodes h' !! a = Some n' ->
    exists n, nodes h !! a = Some n /\ n' = withPosition n (X n') (Y n').
Proof.
  intros H. apply recursiveSetPositions_eraseXY in H. cbn [fst] in H.
  split; [exact (f_equal pages H)|]. split.
  - pose proof (f_equal (fun x => length (nodes x)) H) as E. cbn in E.
    rewrite !length_map in E. exact E.
  - intros a n' Hn'. destruct (eraseXY_lookup _ _ _ _ H Hn') as (n & Hn & E).
    exists n. split; [exact Hn|]. apply withPosition_same. exact E.
Qed.

Lemma resolver_writes_positions_only_witness :
  pages (fst (snd (recursiveSetPositions (await plainSumRules 1) 1 0
                     (alignExample, mkCursor 3 4)))) = pages alignExample /\
  length (nodes (fst (snd (recursiveSetPositions (await plainSumRules 1) 1 0
                             (alignExample, mkCursor 3 4))))) = 3%nat.
Proof.
  set (run := recursiveSetPositions (await plainSumRules 1) 1 0
                (alignExample, mkCursor 3 4)).
  assert (H : run = (fst run, (fst (snd run), snd (snd run)))) by (vm_compute; reflexivity).
  destruct (resolver_writes_positions_only _ _ _ _ _ _ _ _ H) as (Hp & Hl & _).
  split; [exact Hp|exact Hl].
Defined.

Lemma await_same_sizes R (HR : ignoresPositions R) k h h' f :
  eraseXY h' = eraseXY h -> await R k h' f = await R k h f.
Proof.
  intros E. rewrite <- (await_eraseXY R HR k h'), <- (await_eraseXY R HR k h), E. reflexivity.
Qed.

Lemma getBoundingRect_same_sizes R (HR : ignoresPositions R) k h h' n n' :
  eraseXY h' = eraseXY h -> withPosition n' 0 0 = withPosition n 0 0 ->
  getBoundingRect (await R k h') n' = getBoundingRect (await R k h) n.
Proof.
  intros E En. unfold getBoundingRect.
  rewrite !(await_same_sizes R HR k h h' _ E).
  assert (EW : Width n' = Width n) by exact (f_equal Width En).
  assert (EH : Height n' = Height n) by exact (f_equal Height En).
  assert (EM : Margin n' = Margin n) by exact (f_equal Margin En).
  rewrite EW, EH, EM. reflexivity.
Qed.

Lemma getDrawRect_same_sizes R (HR : ignoresPositions R) k h h' n n' :
  eraseXY h' = eraseXY h -> withPosition n' 0 0 = withPosition n 0 0 ->
  getDrawRect (await R k h') n' = getDrawRect (await R k h) n.
Proof.
  intros E En. unfold getDrawRect.
  rewrite !(await_same_sizes R HR k h h' _ E).
  assert (EW : Width n' = Width n) by exact (f_equal Width En).
  assert (EH : Height n' = Height n) by exact (f_equal Height En).
  assert (EM : Padding n' = Padding n) by exact (f_equal Padding En).
  rewrite EW, EH, EM. reflexivity.
Qed.

(** X2. Positions do not feed back into sizes.  After a run of the resolver
    every future awaits to what it awaited to before, under either listing
    of the rules, and so do the bounding rect and the draw rect of every
    node. *)
Theorem sizes_survive_positioning (fuel depth : nat) (nd : naddr) (h h' : Heap)
        (cur cur' : resolverCursor) (r : outcome unit) (aw : Heap -> Future -> outcome Size) :
  recursiveSetPositions aw depth nd (h, cur) = (r, (h', cur')) ->
  (forall f, await plainSumRules fuel h' f = await plainSumRules fuel h f) /\
  (forall f, await intrinsicRules fuel h' f = await intrinsicRules fuel h f) /\
  (forall a n n', nodes h !! a = Some n -> nodes h' !! a = Some n' ->
     getBoundingRect (await plainSumRules fuel h') n'
       = getBoundingRect (await plainSumRules fuel h) n /\
     getDrawRect (await plainSumRules fuel h') n'
       = getDrawRect (await plainSumRules fuel h) n /\
     getBoundingRect (await intrinsicRules fuel h') n'
       = getBoundingRect (await intrinsicRules fuel h) n /\
     getDrawRect (await intrinsicRules fuel h') n'
       = getDrawRect (await intrinsicRules fuel h) n).
Proof.
  intros H. apply recursiveSetPositions_eraseXY in H. cbn [fst] in H.
  split; [|split].
  - intros f. apply await_same_sizes; [apply plainSumRules_ignore|exact H].
  - intros f. apply await_same_sizes; [apply intrinsicRules_ignore|exact H].
  - intros a n n' Hn Hn'. destruct (eraseXY_lookup _ _ _ _ H Hn') as (m & Hm & E).
    rewrite Hn in Hm. inversion Hm; subst m.
    repeat split.
    + apply getBoundingRect_same_sizes; [apply plainSumRules_ignore|exact H|exact E].
    + apply getDrawRect_same_sizes; [apply plainSumRules_ignore|exact H|exact E].
    + apply getBoundingRect_same_sizes; [apply intrinsicRules_ignore|exact H|exact E].
    + apply getDrawRect_same_sizes; [apply intrinsicRules_ignore|exact H|exact E].
Qed.

Lemma sizes_survive_positioning_witness :
  await plainSumRules 2
        (fst (snd (recursiveSetPositions (await plainSumRules 1) 1 0
                     (alignExample, mkCursor 3 4))))
        (bindTo 0 HeightAsChildren)
  = await plainSumRules 2 alignExample (bindTo 0 HeightAsChildren).
Proof.
  set (run := recursiveSetPositions (await plainSumRules 1) 1 0
                (alignExample, mkCursor 3 4)).
  assert (H : run = (fst run, (fst (snd run), snd (snd run)))) by (vm_compute; reflexivity).
  exact (proj1 (sizes_survive_positioning 2 _ _ _ _ _ _ _ _ H) (bindTo 0 HeightAsChildren)).
Defined.

(** ** The unchecked error of the child loop *)

Lemma fullChildrenExtents_measured aw h cs : forall w ht x,
  fullChildrenExtents aw h cs w ht = Ret x -> Forall (measured aw h) cs.
Proof.
  induction cs as [|c rest IH]; intros w ht x H; [constructor|].
  cbn [fullChildrenExtents] in H. unfold deref in H.
  destruct (nodes h !! c) as [cn|] eqn:Ec; [|discriminate]. cbn [bind] in H.
  destruct (getBoundingRect aw cn) as [r| | |] eqn:Er; try discriminate. cbn [bind] in H.
  constructor; [exists cn, r; split; assumption|]. eapply IH. exact H.
Qed.

Lemma measure_measured aw h n first m :
  measure aw h n first = Ret m -> Forall (measured (aw h) h) (Children n).
Proof.
  unfold measure. intros H.
  destruct (getDrawRect (aw h) n); try discriminate. cbn [bind] in H.
  destruct (deref h first); try discriminate. cbn [bind] in H.
  destruct (getBoundingRect (aw h) _); try discriminate. cbn [bind] in H.
  destruct (fullChildrenExtents (aw h) h (Children n) 0 0) as [x| | |] eqn:E; try discriminate.
  eapply fullChildrenExtents_measured. exact E.
Qed.

Section UncheckedIsChecked.

Variable R : ruleTable.
Hypothesis HR : ignoresPositions R.
Variable k : nat.

Lemma positionChildren_checked (rec rec' : naddr -> step unit) flow al h :
  (forall c st, rec c st = rec' c st) ->
  (forall c st r st', rec c st = (r, st') -> eraseXY (fst st') = eraseXY (fst st)) ->
  forall cs, Forall (measured (await R k h) h) cs ->
  forall hx cur, eraseXY hx = eraseXY h ->
    positionChildren (await R k) rec flow al cs (hx, cur)
    = positionChildrenChecked (await R k) rec' flow al cs (hx, cur).
Proof.
  intros Hext Hrec. induction cs as [|c rest IH]; intros HF hx cur Ex; [reflexivity|].
  apply Forall_cons in HF as [(cn & r & Hcn & Hr) HFrest].
  cbn [positionChildren positionChildrenChecked].
  destruct (setPosition hx c (cx cur) (cy cur)) as [h1| | |] eqn:E1; try reflexivity.
  apply setPosition_eraseXY in E1.
  rewrite <- Hext. destruct (rec c (h1, cur)) as [r2 [h2 c2]] eqn:E2.
  apply Hrec in E2. cbn [fst] in E2.
  assert (E : eraseXY h2 = eraseXY h) by congruence.
  destruct r2 as [[]| | |]; try reflexivity.
  destruct (eraseXY_lookup h2 h c cn (eq_sym E) Hcn) as (cn2 & Hcn2 & Ecn).
  rewrite (deref_Some _ _ _ Hcn2). cbn [bind]. unfold uncheckedBoundingRect.
  rewrite (getBoundingRect_same_sizes R HR k h h2 cn cn2 E (eq_sym Ecn)), Hr.
  destruct rest as [|next rest']; [reflexivity|].
  destruct (nn <- deref h2 next ;; nbr <- getBoundingRect (await R k h2) nn ;;
            Ret (nbr, Margin nn)) as [[nbr nm]| | |]; try reflexivity.
  apply IH; assumption.
Qed.

Lemma recursiveSetPositions_checked depth : forall nd st,
  recursiveSetPositions (await R k) depth nd st
  = recursiveSetPositionsChecked (await R k) depth nd st.
Proof.
  induction depth as [|d IH]; intros nd [h cur]; [reflexivity|].
  cbn [recursiveSetPositions recursiveSetPositionsChecked].
  destruct (deref h nd) as [n| | |]; try reflexivity.
  destruct (Children n) as [|first rest] eqn:Ecs; [reflexivity|].
  destruct (measure (await R k) h n first) as [[[[f pd] cb] [fw fh]]| | |] eqn:Em;
    try reflexivity.
  destruct (startOffset _ _ _ _ _ _ _ _) as [c2| | |]; try reflexivity.
  apply measure_measured in Em. rewrite Ecs in Em.
  rewrite (positionChildren_checked _ (recursiveSetPositionsChecked (await R k) d)
             _ _ h IH (recursiveSetPositions_eraseXY _ d) _ Em h c2 eq_refl).
  reflexivity.
Qed.

End UncheckedIsChecked.

(** X3. The error that the child loop assigns and never tests cannot occur.
    With [await] as the size oracle, under either listing of the rules, the
    resolver behaves on every input exactly as the resolver that tests that
    error: same result, same heap, same cursor. *)
Theorem unchecked_error_never_occurs (k depth : nat) (nd : naddr) (st : RState) :
  recursiveSetPositions (await plainSumRules k) depth nd st
    = recursiveSetPositionsChecked (await plainSumRules k) depth nd st /\
  recursiveSetPositions (await intrinsicRules k) depth nd st
    = recursiveSetPositionsChecked (await intrinsicRules k) depth nd st.
Proof.
  split; apply recursiveSetPositions_checked;
    [apply plainSumRules_ignore | apply intrinsicRules_ignore].
Qed.

(** ** Invariants of the page loop *)

Lemma addNode_pages_length h p a h' :
  addNode h p a = Ret h' -> length (pages h') = length (pages h).
Proof.
  unfold addNode, derefPage, deref.
  destruct (pages h !! p); [|discriminate]. destruct (nodes h !! a); [|discriminate].
  cbn. intros E. inversion E; subst; cbn. apply length_insert.
Qed.

(** What a step of the page loop leaves alone, whatever its outcome. *)
Lemma placeNode_frame aw depth nd st r st1 :
  placeNode aw depth nd st = (r, st1) ->
  pdoc st1 = pdoc st /\ currentPage st1 = currentPage st /\
  cx (cursor st1) = cx (cursor st) /\
  length (pages (pheap st1)) = length (pages (pheap st)).
Proof.
  unfold placeNode. intros H.
  destruct (deref (pheap st) nd) as [n| | |]; cbn [bind] in H;
    try (inversion H; subst; auto).
  destruct (setPosition _ _ _ _) as [h1| | |] eqn:E1; cbn [bind] in H;
    try (inversion H; subst; auto).
  apply setPosition_pages in E1.
  destruct (addNode h1 (currentPage st) nd) as [h2| | |] eqn:E2; cbn [bind] in H;
    try (inversion H; subst; auto).
  apply addNode_pages_length in E2.
  destruct (recursiveSetPositions _ _ _ _) as [r3 [h3 c3]] eqn:E3.
  apply recursiveSetPositions_pages in E3. cbn in E3.
  assert (L : length (pages h3) = length (pages (pheap st))) by congruence.
  destruct r3 as [[]| | |]; try (inversion H; subst; auto).
  destruct (n3 <- deref h3 nd ;; _) as [[nh pg]| | |];
    try (inversion H; subst; auto).
  destruct (PageHeight pg <? nh); inversion H; subst; auto.
Qed.

(** The page break: either nothing changes, or one page is added. *)
Lemma breakPage_cases aw next st r st2 :
  breakPage aw next st = (r, st2) ->
  st2 = st \/
  exists prev pp,
    last (DocChildren (pdoc st)) = Some prev /\
    pages (pheap st) !! prev = Some pp /\
    st2 = mkPState
            (mkHeap (nodes (pheap st))
                    (pages (pheap st) ++
                       [newPage (PageWidth pp) (PageHeight pp) (PageMargin pp)]))
            (mkDocument (DocChildren (pdoc st) ++ [length (pages (pheap st))]))
            (length (pages (pheap st)))
            (mkCursor (qleft (PageMargin pp)) (qtop (PageMargin pp))).
Proof.
  unfold breakPage. intros H.
  destruct (nn <- deref (pheap st) next ;; _) as [[nh pg]| | |];
    try (inversion H; subst; auto; fail).
  destruct (pageBottom pg <? cy (cursor st) + nh); [|inversion H; auto].
  unfold addPage in H.
  destruct (last (DocChildren (pdoc st))) as [prev|] eqn:El;
    [|cbn [bind] in H; inversion H; auto].
  unfold derefPage in H at 1.
  destruct (pages (pheap st) !! prev) as [pp|] eqn:Ep;
    [|cbn [bind] in H; inversion H; auto].
  cbn [bind] in H. unfold derefPage in H. cbn [pages] in H.
  rewrite lookup_app_r in H by reflexivity. rewrite Nat.sub_diag in H.
  cbn [lookup list_lookup bind] in H.
  right. exists prev, pp. repeat split; try assumption.
  inversion H. reflexivity.
Qed.

Section Loop.

Variable aw : Heap -> Future -> outcome Size.
Variable depth : nat.

(** An invariant of both steps is an invariant of the loop. *)
Lemma placeAll_invariant (P : PState -> Prop) :
  (forall nd st r st', P st -> placeNode aw depth nd st = (r, st') -> P st') ->
  (forall next st r st', P st -> breakPage aw next st = (r, st') -> P st') ->
  forall nds st r st', P st -> placeAll aw depth nds st = (r, st') -> P st'.
Proof.
  intros Hplace Hbreak. induction nds as [|nd rest IH]; intros st r st' HP H;
    cbn [placeAll] in H.
  - inversion H; subst. exact HP.
  - destruct (placeNode aw depth nd st) as [r1 st1] eqn:E1.
    pose proof (Hplace _ _ _ _ HP E1) as HP1.
    destruct r1 as [[]| | |]; try (inversion H; subst; exact HP1).
    destruct rest as [|next rest'].
    + inversion H; subst. exact HP1.
    + destruct (breakPage aw next st1) as [r2 st2] eqn:E2.
      pose proof (Hbreak _ _ _ _ HP1 E2) as HP2.
      destruct r2 as [[]| | |]; try (inversion H; subst; exact HP2).
      eapply IH; [exact HP2|exact H].
Qed.

End Loop.

Lemma placeAll_shapes (aw : Heap -> Future -> outcome Size) (depth : nat)
        (t : Page) (nds : list naddr) (st st' : PState) (r : outcome unit) :
  Forall (sameShape t) (pages (pheap st)) ->
  placeAll aw depth nds st = (r, st') ->
  Forall (sameShape t) (pages (pheap st')).
Proof.
  apply (placeAll_invariant aw depth (fun s => Forall (sameShape t) (pages (pheap s)))).
  - intros nd s r1 s1 HP H. exact (placeNode_shapes _ _ _ _ _ _ _ H HP).
  - intros next s r1 s1 HP H.
    destruct (breakPage_cases _ _ _ _ _ H) as [->|(prev & pp & _ & Hpp & ->)]; [exact HP|].
    cbn [pheap pages]. apply Forall_app. split; [exact HP|].
    constructor; [|constructor].
    exact (proj1 (Forall_lookup _ _) HP _ _ Hpp).
Qed.

(** X4. Every page of the document has the shape of the first.  If all pages
    have the width, height and margin of [t] when the loop starts, all pages
    have them when it ends, with whatever outcome. *)
Theorem pages_keep_their_shape (aw : Heap -> Future -> outcome Size) (depth : nat)
        (t : Page) (nds : list naddr) (st st' : PState) (r : outcome unit) :
  Forall (sameShape t) (pages (pheap st)) ->
  placeAll aw depth nds st = (r, st') ->
  Forall (sameShape t) (pages (pheap st')).
Proof. apply placeAll_shapes. Qed.

Lemma pages_keep_their_shape_witness :
  Forall (sameShape (newPage 216 279 (NewSingletonSizeQuad 5)))
         (pages (pheap (snd (placeAll (await plainSumRules 1) 1 [0; 1]%nat breakStart)))).
Proof.
  apply (pages_keep_their_shape (await plainSumRules 1) 1
           (newPage 216 279 (NewSingletonSizeQuad 5)) [0; 1]%nat breakStart _
           (fst (placeAll (await plainSumRules 1) 1 [0; 1]%nat breakStart))).
  - repeat constructor.
  - apply surjective_pairing.
Defined.

(** X5. At the top level the cursor never moves sideways.  It starts at the
    left margin of the page and, pages having one shape, it is there when
    the loop ends. *)
Theorem top_level_cursor_x_fixed (aw : Heap -> Future -> outcome Size) (depth : nat)
        (t : Page) (nds : list naddr) (st st' : PState) (r : outcome unit) :
  Forall (sameShape t) (pages (pheap st)) ->
  cx (cursor st) = qleft (PageMargin t) ->
  placeAll aw depth nds st = (r, st') ->
  cx (cursor st') = qleft (PageMargin t).
Proof.
  intros HF Hc H.
  refine (proj2 (placeAll_invariant aw depth
            (fun s => Forall (sameShape t) (pages (pheap s)) /\
                      cx (cursor s) = qleft (PageMargin t)) _ _ nds st r st' (conj HF Hc) H)).
  - intros nd s r1 s1 [HP Hx] H1. split.
    + exact (placeNode_shapes _ _ _ _ _ _ _ H1 HP).
    + destruct (placeNode_frame _ _ _ _ _ _ H1) as (_ & _ & E & _). congruence.
  - intros next s r1 s1 [HP Hx] H1.
    destruct (breakPage_cases _ _ _ _ _ H1) as [->|(prev & pp & _ & Hpp & ->)];
      [split; assumption|].
    pose proof (proj1 (Forall_lookup _ _) HP _ _ Hpp) as (_ & _ & Em).
    split.
    + cbn [pheap pages]. apply Forall_app. split; [exact HP|].
      constructor; [|constructor]. exact (proj1 (Forall_lookup _ _) HP _ _ Hpp).
    + cbn [cursor cx]. rewrite Em. reflexivity.
Qed.

Lemma top_level_cursor_x_fixed_witness :
  cx (cursor (snd (placeAll (await plainSumRules 1) 1 [0; 1]%nat breakStart))) = 5.
Proof.
  apply (top_level_cursor_x_fixed (await plainSumRules 1) 1
           (newPage 216 279 (NewSingletonSizeQuad 5)) [0; 1]%nat breakStart _
           (fst (placeAll (await plainSumRules 1) 1 [0; 1]%nat breakStart))).
  - repeat constructor.
  - reflexivity.
  - apply surjective_pairing.
Defined.

Local Close Scope float_scope.



Lemma placeAll_growth (aw : Heap -> Future -> outcome Size)
        (depth : nat) (nds : list naddr) :
  forall (st st' : PState) (r : outcome unit),
  placeAll aw depth nds st = (r, st') ->
  exists added,
    DocChildren (pdoc st') = DocChildren (pdoc st) ++ added /\
    added = seq (length (pages (pheap st))) (length added) /\
    length (pages (pheap st')) = length (pages (pheap st)) + length added /\
    length added <= length nds - 1.
Proof.
  induction nds as [|nd rest IH]; intros st st' r H; cbn [placeAll] in H.
  - inversion H; subst. exists []. rewrite app_nil_r. cbn. repeat split; lia.
  - destruct (placeNode aw depth nd st) as [r1 st1] eqn:E1.
    destruct (placeNode_frame _ _ _ _ _ _ E1) as (Ed & _ & _ & El).
    assert (Base : exists added,
               DocChildren (pdoc st1) = DocChildren (pdoc st) ++ added /\
               added = seq (length (pages (pheap st))) (length added) /\
               length (pages (pheap st1)) = length (pages (pheap st)) + length added /\
               length added <= length (nd :: rest) - 1).
    { exists []. rewrite app_nil_r, Ed, El. cbn. repeat split; lia. }
    destruct r1 as [[]| | |]; try (inversion H; subst; exact Base).
    destruct rest as [|next rest'].
    + inversion H; subst. exact Base.
    + destruct (breakPage aw next st1) as [r2 st2] eqn:E2.
      assert (Step : exists a2,
                 DocChildren (pdoc st2) = DocChildren (pdoc st) ++ a2 /\
                 a2 = seq (length (pages (pheap st))) (length a2) /\
                 length (pages (pheap st2)) = length (pages (pheap st)) + length a2 /\
                 length a2 <= 1).
      { destruct (breakPage_cases _ _ _ _ _ E2) as [->|(prev & pp & _ & _ & ->)].
        - exists []. rewrite app_nil_r, Ed, El. cbn. repeat split; lia.
        - exists [length (pages (pheap st))]. cbn [pdoc DocChildren pheap pages length].
          rewrite Ed, El, length_app. cbn. repeat split; lia. }
      destruct Step as (a2 & Hd2 & Hs2 & Hl2 & Hn2).
      destruct r2 as [[]| | |];
        try (inversion H; subst; exists a2; cbn [length]; repeat split; auto; lia).
      destruct (IH _ _ _ H) as (a3 & Hd3 & Hs3 & Hl3 & Hn3).
      exists (a2 ++ a3). rewrite Hd3, Hd2, <- app_assoc, length_app.
      split; [reflexivity|]. split; [|split].
      * rewrite seq_app. rewrite <- Hs2. f_equal. rewrite Hs3 at 1. f_equal. lia.
      * lia.
      * cbn [length] in *. lia.
Qed.

(** X7. The document only grows, by at most one page per gap between two
    top-level nodes, and the pages it gains are the newly allocated ones, in
    order. *)
Theorem document_grows_by_page_breaks (aw : Heap -> Future -> outcome Size)
        (depth : nat) (nds : list naddr) :
  forall (st st' : PState) (r : outcome unit),
  placeAll aw depth nds st = (r, st') ->
  exists added,
    DocChildren (pdoc st') = DocChildren (pdoc st) ++ added /\
    added = seq (length (pages (pheap st))) (length added) /\
    length (pages (pheap st')) = length (pages (pheap st)) + length added /\
    length added <= length nds - 1.
Proof. apply placeAll_growth. Qed.

Lemma document_grows_by_page_breaks_witness :
  exists added,
    DocChildren (pdoc (snd (placeAll (await plainSumRules 1) 1 [0; 1]%nat breakStart)))
    = [0%nat] ++ added /\ (length added <= 1)%nat.
Proof.
  destruct (document_grows_by_page_breaks (await plainSumRules 1) 1 [0; 1]%nat breakStart _
              (fst (placeAll (await plainSumRules 1) 1 [0; 1]%nat breakStart))
              (surjective_pairing _)) as (added & Hd & _ & _ & Hn).
  exists added. split; [exact Hd|exact Hn].
Defined.

Local Open Scope float_scope.

Lemma addNode_result h p a h' :
  addNode h p a = Ret h' ->
  exists n pg0,
    nodes h !! a = Some n /\ pages h !! p = Some pg0 /\
    nodes h' !! a = Some (withPage n p) /\
    pages h' !! p = Some {| PageChildren := PageChildren pg0 ++ [a];
                            PageWidth := PageWidth pg0;
                            PageHeight := PageHeight pg0;
                            PageMargin := PageMargin pg0 |}.
Proof.
  unfold addNode, derefPage, deref.
  destruct (pages h !! p) as [pg0|] eqn:Ep; [|discriminate].
  destruct (nodes h !! a) as [n|] eqn:En; [|discriminate].
  cbn. intros E. inversion E; subst; cbn.
  exists n, pg0. repeat split.
  - apply list_lookup_insert_eq. eapply lookup_lt_Some. exact En.
  - apply list_lookup_insert_eq. eapply lookup_lt_Some. exact Ep.
Qed.

(** X8. A top-level node that is placed without error is on the page in use:
    its [Page] field names that page and it is the last entry of the page's
    node list; its bounding height did not exceed the page height, and the
    cursor went down by exactly that height. *)
Theorem placed_node_is_on_current_page (aw : Heap -> Future -> outcome Size)
        (depth : nat) (nd : naddr) (st st1 : PState) :
  placeNode aw depth nd st = (Ret tt, st1) ->
  exists n1 pg0 pg br,
    nodes (pheap st1) !! nd = Some n1 /\
    OnPage n1 = Some (currentPage st) /\
    pages (pheap st) !! currentPage st = Some pg0 /\
    pages (pheap st1) !! currentPage st = Some pg /\
    PageChildren pg = PageChildren pg0 ++ [nd] /\
    getBoundingRect (aw (pheap st1)) n1 = Ret br /\
    (PageHeight pg <? height br) = false /\
    cursor st1 = mkCursor (cx (cursor st)) (cy (cursor st) + height br).
Proof.
  unfold placeNode. intros H.
  destruct (deref (pheap st) nd) as [n| | |]; cbn [bind] in H; try discriminate.
  destruct (setPosition _ _ _ _) as [h1| | |] eqn:E1; cbn [bind] in H; try discriminate.
  apply setPosition_pages in E1.
  destruct (addNode h1 (currentPage st) nd) as [h2| | |] eqn:E2; cbn [bind] in H;
    try discriminate.
  destruct (addNode_result _ _ _ _ E2) as (m & pg0 & _ & Hpg0 & Hm & Hpg).
  destruct (recursiveSetPositions _ _ _ _) as [r3 [h3 c3]] eqn:E3.
  pose proof (recursiveSetPositions_eraseXY _ _ _ _ _ _ E3) as Ee. cbn [fst] in Ee.
  apply recursiveSetPositions_pages in E3. cbn [fst] in E3.
  destruct r3 as [[]| | |]; try discriminate.
  unfold deref, derefPage in H.
  destruct (nodes h3 !! nd) as [n3|] eqn:En3; [|discriminate]. cbn [bind] in H.
  destruct (getBoundingRect (aw h3) n3) as [br| | |] eqn:Eb; try discriminate.
  cbn [bind] in H.
  destruct (pages h3 !! currentPage st) as [pg|] eqn:Ep3; [|discriminate].
  cbn [bind height] in H.
  destruct (PageHeight pg <? height br) eqn:Elt; [discriminate|].
  inversion H; subst st1; cbn [pheap cursor].
  destruct (eraseXY_lookup _ _ _ _ Ee En3) as (m' & Hm' & Em).
  rewrite Hm in Hm'. inversion Hm'; subst m'.
  rewrite E3, Hpg in Ep3. inversion Ep3; subst pg.
  eexists n3, pg0, _, br. repeat split; try eassumption; try reflexivity.
  - exact (f_equal OnPage Em).
  - rewrite <- E1. exact Hpg0.
  - rewrite E3. exact Hpg.
Qed.

Lemma placed_node_is_on_current_page_witness :
  exists n1, nodes (pheap (snd (placeNode (await plainSumRules 1) 1 0 breakStart))) !! 0%nat
             = Some n1 /\ OnPage n1 = Some 0%nat.
Proof.
  set (run := placeNode (await plainSumRules 1) 1 0 breakStart).
  assert (H : run = (Ret tt, snd run)) by (vm_compute; reflexivity).
  destruct (placed_node_is_on_current_page _ _ _ _ _ H)
    as (n1 & pg0 & pg & br & Hn & Ho & _).
  exists n1. split; [exact Hn|exact Ho].
Defined.

(** ** Text and image nodes *)

Local Close Scope float_scope.

Lemma appendToParent_frame h parent c h' :
  appendToParent h parent c = Ret h' ->
  pages h' = pages h /\ length (nodes h') = length (nodes h) /\
  forall i, parent <> Some i -> nodes h' !! i = nodes h !! i.
Proof.
  destruct parent as [p|]; cbn.
  - unfold addChild. destruct (nodes h !! p) as [n|] eqn:E; [|discriminate].
    intros H. inversion H; subst; cbn. repeat split.
    + apply length_insert.
    + intros i Hi. apply list_lookup_insert_ne. congruence.
  - intros H. inversion H; subst. repeat split.
Qed.

(** What [Text] and [Image] leave on the heap. *)
Lemma visual_pair_allocated h parent options v h' l :
  (h1 <- appendToParent
            (mkHeap (nodes h ++ [wrapperNode (length (nodes h)) (S (length (nodes h))) v;
                                 visualLayoutNode (S (length (nodes h))) (length (nodes h))
                                                  parent options]) (pages h))
            parent (S (length (nodes h))) ;;
   Ret (h1, S (length (nodes h)))) = Ret (h', l) ->
  (forall p, parent = Some p -> p < length (nodes h)) ->
  l = S (length (nodes h)) /\
  nodes h' !! length (nodes h) = Some (wrapperNode (length (nodes h)) l v) /\
  nodes h' !! l = Some (visualLayoutNode l (length (nodes h)) parent options).
Proof.
  intros H Hp.
  destruct (appendToParent _ parent _) as [h1| | |] eqn:E; try discriminate.
  cbn [bind] in H. inversion H; subst h1 l.
  destruct (appendToParent_frame _ _ _ _ E) as (_ & _ & Hfr).
  cbn [nodes] in Hfr. split; [reflexivity|]. split.
  - rewrite Hfr.
    + apply list_lookup_middle. reflexivity.
    + intros Ep. specialize (Hp _ Ep). lia.
  - rewrite Hfr.
    + rewrite lookup_app_r by lia.
      replace (S (length (nodes h)) - length (nodes h)) with 1 by lia. reflexivity.
    + intros Ep. specialize (Hp _ Ep). lia.
Qed.

Lemma appendToParent_parent_allocated h0 extra pgs parent c h' :
  appendToParent (mkHeap (nodes h0 ++ extra) pgs) parent c = Ret h' ->
  (forall p, parent = Some p -> p < length (nodes h0) + length extra).
Proof.
  intros H p ->. cbn in H. unfold addChild in H. cbn [nodes] in H.
  destruct ((nodes h0 ++ extra) !! p) eqn:E; [|discriminate].
  apply lookup_lt_Some in E. rewrite length_app in E. exact E.
Qed.

Local Open Scope float_scope.

Lemma withRenderer_None_wrapper w l v :
  withRenderer (wrapperNode w l v) None = wrapperNode w l v.
Proof. reflexivity. Qed.

Lemma withRenderer_None_layout l w parent options :
  withRenderer (visualLayoutNode l w parent options) None
  = visualLayoutNode l w parent options.
Proof. reflexivity. Qed.

Lemma Text_pair h parent options t h' l :
  Text' h parent options t = Ret (h', l) ->
  (forall p, parent = Some p -> (p < length (nodes h))%nat) ->
  l = S (length (nodes h)) /\
  visualPair h' l (length (nodes h)) parent options (VText t) None.
Proof.
  intros H Hp. destruct (visual_pair_allocated _ _ _ _ _ _ H Hp) as (-> & Hw & Hl).
  split; [reflexivity|]. split; assumption.
Qed.

Lemma Image_pair h parent options i h' l :
  Image h parent options i = Ret (h', l) ->
  (forall p, parent = Some p -> (p < length (nodes h))%nat) ->
  l = S (length (nodes h)) /\
  visualPair h' l (length (nodes h)) parent options (VImage i) None.
Proof.
  intros H Hp. destruct (visual_pair_allocated _ _ _ _ _ _ H Hp) as (-> & Hw & Hl).
  split; [reflexivity|]. split; assumption.
Qed.

(** The context set on a freshly built visual node reaches the layout node
    and its wrapper. *)
Lemma setContext_pair depth r h l w parent options v ctx h' :
  l <> w -> visualPair h l w parent options v ctx ->
  setDocumentRendererContext depth r l h = Ret h' ->
  visualPair h' l w parent options v r.
Proof.
  intros Hlw [Hl Hw] H.
  destruct depth as [|d]; cbn [setDocumentRendererContext] in H; rewrite Hl in H;
    cbn [Children withRenderer visualLayoutNode bindFutures mergeProps] in H;
    [discriminate|].
  cbn [setContextOfChildren] in H.
  set (h1 := mkHeap _ (pages h)) in H.
  assert (Hw1 : nodes h1 !! w = Some (withRenderer (wrapperNode w l v) ctx)).
  { unfold h1. cbn [nodes]. rewrite list_lookup_insert_ne by exact Hlw. exact Hw. }
  assert (Hl1 : nodes h1 !! l = Some (withRenderer (visualLayoutNode l w parent options) r)).
  { unfold h1. cbn [nodes]. apply list_lookup_insert_eq. eapply lookup_lt_Some. exact Hl. }
  destruct d; cbn [setDocumentRendererContext] in H; rewrite Hw1 in H;
    cbn [Children withRenderer wrapperNode bindFutures bind] in H;
    inversion H; subst h'; split; cbn [nodes].
  all: try (rewrite list_lookup_insert_ne by congruence; exact Hl1).
  all: apply list_lookup_insert_eq; eapply lookup_lt_Some; exact Hw1.
Qed.

(** X9. Intrinsic sizes of a text node.  Right after [Text'] the wrapper has
    no renderer context, and awaiting an intrinsic width or height of the
    text node panics on the nil interface.  Once
    [setDocumentRendererContext] has run on the node, they are the inherent
    extent of the text plus the node's padding on the axis. *)
Theorem text_node_intrinsic_size (h h' h'' : Heap) (parent : option naddr)
        (options : LayoutNodeProps) (t : TextNode) (l : naddr)
        (depth k : nat) (r : DocumentRenderer) :
  Text' h parent options t = Ret (h', l) ->
  (forall p, parent = Some p -> (p < length (nodes h))%nat) ->
  setDocumentRendererContext depth (Some r) l h' = Ret h'' ->
  await intrinsicRules (S k) h' (bindTo l WidthAsChildren) = Panic /\
  await intrinsicRules (S k) h' (bindTo l HeightAsChildren) = Panic /\
  await intrinsicRules (S k) h'' (bindTo l WidthAsChildren)
    = Ret (width (GetInherentTextRect r t)
           + qleft (propPadding options) + qright (propPadding options)) /\
  await intrinsicRules (S k) h'' (bindTo l HeightAsChildren)
    = Ret (height (GetInherentTextRect r t)
           + qtop (propPadding options) + qbottom (propPadding options)).
Proof.
  intros HT Hp HS.
  destruct (Text_pair _ _ _ _ _ _ HT Hp) as (El & Hpair).
  assert (Hlw : l <> length (nodes h)) by (rewrite El; lia).
  pose proof (setContext_pair _ _ _ _ _ _ _ _ _ _ Hlw Hpair HS) as [Hl2 Hw2].
  destruct Hpair as [Hl1 Hw1].
  cbn [await bindTo WidthAsChildren HeightAsChildren newIncompleteFuture node state
       definition params intrinsicRules sharedRule].
  unfold Intrinsic.widthAsChildren, Intrinsic.heightAsChildren, Intrinsic.wrappedVisual.
  rewrite !(deref_Some _ _ _ Hl1), !(deref_Some _ _ _ Hl2). cbn [bind].
  cbn [Children withRenderer visualLayoutNode bindFutures mergeProps].
  rewrite !(deref_Some _ _ _ Hw1), !(deref_Some _ _ _ Hw2). cbn [bind].
  repeat split; reflexivity.
Qed.

Lemma text_node_intrinsic_size_witness :
  await intrinsicRules 1
        (mkHeap [ withRenderer (wrapperNode 0 1 (VText helloText)) (Some fixedRenderer);
                  withRenderer (visualLayoutNode 1 0 None intrinsicProps)
                               (Some fixedRenderer) ] [])
        (bindTo 1 WidthAsChildren)
  = Ret (40 + 2 + 2).
Proof.
  refine (proj1 (proj2 (proj2
    (text_node_intrinsic_size (mkHeap [] [])
       (mkHeap [ wrapperNode 0 1 (VText helloText);
                 visualLayoutNode 1 0 None intrinsicProps ] [])
       _ None intrinsicProps helloText 1%nat 1 0 fixedRenderer _ _ _)))).
  - reflexivity.
  - intros p E. discriminate E.
  - reflexivity.
Defined.

(** X10. Intrinsic sizes of an image node.  An image has no inherent extent:
    awaiting an intrinsic width or height of the node [Image] built returns
    the error of the default branch, with any fuel, both right after
    [Image], when the wrapper has no renderer context, and after
    [setDocumentRendererContext] has run on the node with any renderer. *)
Theorem image_node_has_no_intrinsic_size (h h' : Heap) (parent : option naddr)
        (options : LayoutNodeProps) (i : ImageNode) (l : naddr) (k : nat) :
  Image h parent options i = Ret (h', l) ->
  (forall p, parent = Some p -> (p < length (nodes h))%nat) ->
  (await intrinsicRules (S k) h' (bindTo l WidthAsChildren) = Fail noInherentWidth /\
   await intrinsicRules (S k) h' (bindTo l HeightAsChildren) = Fail noInherentHeight) /\
  (forall (depth : nat) (r : option DocumentRenderer) (h'' : Heap),
     setDocumentRendererContext depth r l h' = Ret h'' ->
     await intrinsicRules (S k) h'' (bindTo l WidthAsChildren) = Fail noInherentWidth /\
     await intrinsicRules (S k) h'' (bindTo l HeightAsChildren) = Fail noInherentHeight).
Proof.
  intros HT Hp.
  destruct (Image_pair _ _ _ _ _ _ HT Hp) as (El & Hpair).
  assert (Hlw : l <> length (nodes h)) by (rewrite El; lia).
  assert (Hfails : forall g ctx, visualPair g l (length (nodes h)) parent options (VImage i) ctx ->
            await intrinsicRules (S k) g (bindTo l WidthAsChildren) = Fail noInherentWidth /\
            await intrinsicRules (S k) g (bindTo l HeightAsChildren) = Fail noInherentHeight).
  { intros g ctx [Hl Hw].
    cbn [await bindTo WidthAsChildren HeightAsChildren newIncompleteFuture node state
         definition params intrinsicRules].
    unfold Intrinsic.widthAsChildren, Intrinsic.heightAsChildren, Intrinsic.wrappedVisual.
    rewrite !(deref_Some _ _ _ Hl). cbn [bind].
    cbn [Children withRenderer visualLayoutNode bindFutures mergeProps].
    rewrite !(deref_Some _ _ _ Hw). cbn [bind].
    split; reflexivity. }
  split.
  - exact (Hfails _ _ Hpair).
  - intros depth r h'' HS.
    exact (Hfails _ _ (setContext_pair _ _ _ _ _ _ _ _ _ _ Hlw Hpair HS)).
Qed.

Lemma image_node_has_no_intrinsic_size_witness :
  await intrinsicRules 1
        (mkHeap [ wrapperNode 0 1 (VImage (mkImageNode "a.png"));
                  visualLayoutNode 1 0 None intrinsicProps ] [])
        (bindTo 1 WidthAsChildren)
  = Fail noInherentWidth /\
  await intrinsicRules 1
        (mkHeap [ withRenderer (wrapperNode 0 1 (VImage (mkImageNode "a.png")))
                               (Some fixedRenderer);
                  withRenderer (visualLayoutNode 1 0 None intrinsicProps)
                               (Some fixedRenderer) ] [])
        (bindTo 1 WidthAsChildren)
  = Fail noInherentWidth.
Proof.
  assert (HI : Image (mkHeap [] []) None intrinsicProps (mkImageNode "a.png")
               = Ret (mkHeap [ wrapperNode 0 1 (VImage (mkImageNode "a.png"));
                               visualLayoutNode 1 0 None intrinsicProps ] [], 1%nat))
    by reflexivity.
  assert (Hp : forall p : nat, @None nat = Some p -> (p < length (nodes (mkHeap [] [])))%nat)
    by (intros p E; discriminate E).
  destruct (image_node_has_no_intrinsic_size _ _ _ _ _ _ 0 HI Hp) as [[Hw _] Hctx].
  split; [exact Hw|].
  exact (proj1 (Hctx 1%nat (Some fixedRenderer) _ eq_refl)).
Defined.

(** In the plain-sum listing the width of a visual node that is intrinsic
    and the width of its wrapper wait for each other. *)
Lemma plain_sum_width_cycle h l w parent options v ctx :
  visualPair h l w parent options v ctx ->
  propWidth options = WidthAsChildren ->
  forall k,
    await plainSumRules k h (bindTo l WidthAsChildren) = Diverge /\
    await plainSumRules k h (bindTo w WidthFill) = Diverge.
Proof.
  intros [Hl Hw] Ew. induction k as [|k [IHl IHw]]; [split; reflexivity|].
  split.
  - cbn [await bindTo WidthAsChildren newIncompleteFuture node state definition params
         plainSumRules sharedRule].
    unfold PlainSum.widthAsChildren. rewrite (deref_Some _ _ _ Hl). cbn [bind].
    cbn [Children withRenderer visualLayoutNode bindFutures mergeProps PlainSum.sumAwaited].
    rewrite (deref_Some _ _ _ Hw). cbn [bind].
    change (Width (withRenderer (wrapperNode w l v) ctx)) with (bindTo w WidthFill).
    rewrite IHw. reflexivity.
  - cbn [await bindTo WidthFill newIncompleteFuture node state definition params
         plainSumRules sharedRule].
    unfold widthFill. rewrite (deref_Some _ _ _ Hw). cbn [bind].
    unfold fillContext. cbn [Parent withRenderer wrapperNode bindFutures].
    rewrite (deref_Some _ _ _ Hl). cbn [bind]. unfold getDrawRect.
    cbn [Width withRenderer visualLayoutNode bindFutures mergeProps]. rewrite Ew.
    rewrite IHl. reflexivity.
Qed.

(** X11. The loop the source comment of [widthAsChildren] warns about.  In
    the listing that sums the children's awaited widths, the intrinsic width
    of a text node never resolves: its only child is the wrapper, whose
    width fills the text node, so each waits for the other and every amount
    of fuel is used up. *)
Theorem text_node_width_diverges_in_plain_sum (h h' : Heap) (parent : option naddr)
        (options : LayoutNodeProps) (t : TextNode) (l : naddr) (k : nat) :
  Text' h parent options t = Ret (h', l) ->
  (forall p, parent = Some p -> (p < length (nodes h))%nat) ->
  propWidth options = WidthAsChildren ->
  exists ln, nodes h' !! l = Some ln /\
             await plainSumRules k h' (Width ln) = Diverge.
Proof.
  intros HT Hp Ew.
  destruct (Text_pair _ _ _ _ _ _ HT Hp) as (El & Hpair).
  exists (visualLayoutNode l (length (nodes h)) parent options).
  split; [exact (proj1 Hpair)|].
  cbn [Width visualLayoutNode bindFutures mergeProps]. rewrite Ew.
  exact (proj1 (plain_sum_width_cycle _ _ _ _ _ _ _ Hpair Ew k)).
Qed.

Lemma text_node_width_diverges_in_plain_sum_witness :
  exists ln,
    nodes (mkHeap [ wrapperNode 0 1 (VText helloText);
                    visualLayoutNode 1 0 None intrinsicProps ] []) !! 1%nat = Some ln /\
    await plainSumRules 1000
          (mkHeap [ wrapperNode 0 1 (VText helloText);
                    visualLayoutNode 1 0 None intrinsicProps ] []) (Width ln) = Diverge.
Proof.
  refine (text_node_width_diverges_in_plain_sum (mkHeap [] []) _ None intrinsicProps
            helloText 1%nat 1000 _ _ _).
  - reflexivity.
  - intros p E. discriminate E.
  - reflexivity.
Defined.

(** ** setDocumentRendererContext *)

Lemma eraseContext_lookup h h' a :
  eraseContext h' = eraseContext h ->
  match nodes h' !! a, nodes h !! a with
  | Some n', Some n => withRenderer n' None = withRenderer n None
  | None, None => True
  | _, _ => False
  end.
Proof.
  intros E. pose proof (f_equal (fun x => nodes x !! a) E) as Hl.
  unfold eraseContext in Hl. cbn [nodes] in Hl. rewrite !list_lookup_fmap in Hl.
  destruct (nodes h' !! a) as [x|], (nodes h !! a) as [y|]; try discriminate; [|exact I].
  change (Some (withRenderer x None) = Some (withRenderer y None)) in Hl. congruence.
Qed.

Lemma eraseContext_children h h' a n :
  eraseContext h' = eraseContext h -> nodes h !! a = Some n ->
  exists n', nodes h' !! a = Some n' /\ Children n' = Children n.
Proof.
  intros E Hn. pose proof (eraseContext_lookup h h' a E) as H. rewrite Hn in H.
  destruct (nodes h' !! a) as [n'|]; [|contradiction].
  exists n'. split; [reflexivity|]. exact (f_equal Children H).
Qed.

Lemma treeWithin_eraseContext d : forall h h' a,
  eraseContext h' = eraseContext h -> treeWithin d h a -> treeWithin d h' a.
Proof.
  induction d as [|d IH]; intros h h' a E (n & Hn & Hc);
    destruct (eraseContext_children _ _ _ _ E Hn) as (n' & Hn' & Ec);
    exists n'; (split; [exact Hn'|]); rewrite Ec.
  - exact Hc.
  - eapply Forall_impl; [exact Hc|]. intros c Hcc. eapply IH; eassumption.
Qed.

Lemma setContext_write h nd n r :
  nodes h !! nd = Some n ->
  eraseContext (mkHeap (<[nd := withRenderer n r]> (nodes h)) (pages h)) = eraseContext h.
Proof.
  intros Hn. unfold eraseContext. cbn [nodes pages]. f_equal.
  rewrite list_fmap_insert. apply list_insert_id.
  rewrite list_lookup_fmap, Hn. reflexivity.
Qed.

Lemma hasContext_write r h nd n b :
  nodes h !! nd = Some n -> hasContext r h b ->
  hasContext r (mkHeap (<[nd := withRenderer n r]> (nodes h)) (pages h)) b.
Proof.
  intros Hn (m & Hm & Hr). unfold hasContext. cbn [nodes].
  destruct (decide (nd = b)) as [->|Hne].
  - exists (withRenderer n r). split; [|reflexivity].
    apply list_lookup_insert_eq. eapply lookup_lt_Some. exact Hn.
  - exists m. split; [|exact Hr]. rewrite list_lookup_insert_ne by exact Hne. exact Hm.
Qed.

Lemma reaches_eraseContext h h' a b :
  eraseContext h' = eraseContext h -> reaches h a b -> reaches h' a b.
Proof.
  intros E H. induction H as [a|a n c b Hn Hin _ IH]; [constructor|].
  destruct (eraseContext_children _ _ _ _ E Hn) as (n' & Hn' & Ec).
  eapply reaches_child; [exact Hn'|rewrite Ec; exact Hin|exact IH].
Qed.

Lemma setContextOfChildren_spec r d (IH : SetContextSpec r d) h0 :
  forall cs, Forall (treeWithin d h0) cs ->
  forall h, eraseContext h = eraseContext h0 ->
    exists h',
      setContextOfChildren (setDocumentRendererContext d r) cs h = Ret h' /\
      eraseContext h' = eraseContext h0 /\
      (forall b, hasContext r h b -> hasContext r h' b) /\
      (forall c b, In c cs -> reaches h0 c b -> hasContext r h' b).
Proof.
  induction cs as [|c rest IHcs]; intros HF h E.
  - exists h. cbn. repeat split; auto. intros c b [].
  - apply Forall_cons in HF as [Hc HFrest].
    destruct (IH h c (treeWithin_eraseContext _ _ _ _ E Hc)) as (h1 & H1 & E1 & M1 & R1).
    destruct (IHcs HFrest h1 (eq_trans E1 E)) as (h2 & H2 & E2 & M2 & R2).
    exists h2. cbn [setContextOfChildren]. rewrite H1. cbn [bind]. rewrite H2.
    repeat split; auto.
    intros c' b [->|Hin] Hr.
    + apply M2, R1. eapply reaches_eraseContext; [exact E|exact Hr].
    + eapply R2; eassumption.
Qed.

Lemma setDocumentRendererContext_spec r d : SetContextSpec r d.
Proof.
  induction d as [|d IH]; intros h a (n & Hn & Hc).
  - cbn [setDocumentRendererContext]. rewrite Hn, Hc.
    eexists. split; [reflexivity|]. split; [apply setContext_write; exact Hn|]. split.
    + intros b Hb. apply hasContext_write; assumption.
    + intros b Hr. inversion Hr as [|? m c ? Hm Hin _]; subst.
      * exists (withRenderer n r). split; [|reflexivity]. cbn [nodes].
        apply list_lookup_insert_eq. eapply lookup_lt_Some. exact Hn.
      * rewrite Hn in Hm. inversion Hm; subst m. rewrite Hc in Hin. destruct Hin.
  - cbn [setDocumentRendererContext]. rewrite Hn.
    set (h1 := mkHeap (<[a := withRenderer n r]> (nodes h)) (pages h)).
    assert (E1 : eraseContext h1 = eraseContext h) by (apply setContext_write; exact Hn).
    assert (Hself : hasContext r h1 a).
    { exists (withRenderer n r). split; [|reflexivity]. unfold h1. cbn [nodes].
      apply list_lookup_insert_eq. eapply lookup_lt_Some. exact Hn. }
    destruct (setContextOfChildren_spec r d IH h (Children n) Hc h1 E1)
      as (h2 & H2 & E2 & M2 & R2).
    assert (Hres : (match Children n with
                    | [] => Ret h1
                    | _ :: _ => setContextOfChildren (setDocumentRendererContext d r)
                                                     (Children n) h1
                    end) = Ret h2).
    { destruct (Children n); [cbn in H2; exact H2|exact H2]. }
    exists h2. split; [exact Hres|]. split; [exact E2|]. split.
    + intros b Hb. apply M2. apply hasContext_write; assumption.
    + intros b Hr. inversion Hr as [|? m c ? Hm Hin Hcb]; subst.
      * apply M2. exact Hself.
      * rewrite Hn in Hm. inversion Hm; subst m. eapply R2; eassumption.
Qed.

Lemma withRenderer_same n n' :
  withRenderer n' None = withRenderer n None ->
  n' = withRenderer n (rendererContext n').
Proof.
  destruct n, n'. unfold withRenderer. cbn. intros E. inversion E; subst. reflexivity.
Qed.

(** X12. [setDocumentRendererContext] on a tree of bounded depth returns;
    afterwards the node it was given and every descendant carry the
    renderer, and no other field of any node, nor any page, has changed. *)
Theorem renderer_context_reaches_the_tree (r : option DocumentRenderer) (d : nat)
        (h : Heap) (a : naddr) :
  treeWithin d h a ->
  exists h',
    setDocumentRendererContext d r a h = Ret h' /\
    (forall b, reaches h a b ->
       exists n', nodes h' !! b = Some n' /\ rendererContext n' = r) /\
    pages h' = pages h /\
    length (nodes h') = length (nodes h) /\
    (forall b n', nodes h' !! b = Some n' ->
       exists n, nodes h !! b = Some n /\ n' = withRenderer n (rendererContext n')).
Proof.
  intros Ht. destruct (setDocumentRendererContext_spec r d h a Ht) as (h' & H & E & _ & Hr).
  exists h'. split; [exact H|]. split; [exact Hr|]. split; [exact (f_equal pages E)|]. split.
  - pose proof (f_equal (fun x => length (nodes x)) E) as El. cbn in El.
    rewrite !length_map in El. exact El.
  - intros b n' Hn'. pose proof (eraseContext_lookup h h' b E) as Hl. rewrite Hn' in Hl.
    destruct (nodes h !! b) as [n|]; [|contradiction].
    exists n. split; [reflexivity|]. apply withRenderer_same. exact Hl.
Qed.

Lemma renderer_context_reaches_the_tree_witness :
  exists h',
    setDocumentRendererContext 1 (Some fixedRenderer) 0 alignExample = Ret h' /\
    pages h' = pages alignExample.
Proof.
  assert (Ht : treeWithin 1 alignExample 0).
  { cbn. eexists. split; [reflexivity|]. cbn.
    repeat constructor; eexists; (split; [reflexivity|reflexivity]). }
  destruct (renderer_context_reaches_the_tree (Some fixedRenderer) 1 alignExample 0%nat Ht)
    as (h' & H & _ & Hp & _).
  exists h'. split; [exact H|exact Hp].
Defined.

(** ** The resolver and the page loop, further *)

(** X13. The cursor is the caller's.  A call that returns no error leaves the
    cursor exactly where it was given, whatever it did to the subtree; on a
    node without children the call does nothing at all, with any depth. *)
Theorem cursor_is_restored (aw : Heap -> Future -> outcome Size) (depth : nat)
        (nd : naddr) (h h' : Heap) (cur cur' : resolverCursor) :
  recursiveSetPositions aw depth nd (h, cur) = (Ret tt, (h', cur')) ->
  cur' = cur /\
  (forall n, nodes h !! nd = Some n -> Children n = [] -> h' = h).
Proof.
  intros H. split; [exact (recursiveSetPositions_cursor _ _ _ _ _ _ _ H)|].
  intros n Hn Hc. destruct depth; cbn in H; rewrite (deref_Some _ _ _ Hn), Hc in H;
    inversion H; reflexivity.
Qed.

Lemma cursor_is_restored_witness :
  snd (snd (recursiveSetPositions (await plainSumRules 1) 1 0
              (alignExample, mkCursor 3 4))) = mkCursor 3 4.
Proof.
  set (run := recursiveSetPositions (await plainSumRules 1) 1 0
                (alignExample, mkCursor 3 4)).
  assert (H : run = (Ret tt, (fst (snd run), snd (snd run)))) by (vm_compute; reflexivity).
  exact (proj1 (cursor_is_restored _ _ _ _ _ _ _ H)).
Defined.

(** X14. A flow direction outside the two constants.  On a node with children
    whose measurements succeed, the resolver returns the unhandled-flow
    error; no child has been positioned, and the cursor is left moved by the
    node's left and top padding, not restored. *)
Theorem unhandled_flow_direction (aw : Heap -> Future -> outcome Size) (d : nat)
        (nd first : naddr) (rest : list naddr) (h : Heap) (cur : resolverCursor)
        (n : LayoutNode) m :
  nodes h !! nd = Some n -> Children n = first :: rest ->
  measure aw h n first = Ret m ->
  ChildFlowDirection n <> FlowVertical -> ChildFlowDirection n <> FlowHorizontal ->
  recursiveSetPositions aw (S d) nd (h, cur)
  = (Fail (ErrUnhandledFlow (ChildFlowDirection n)),
     (h, mkCursor (cx cur + qleft (Padding n)) (cy cur + qtop (Padding n)))).
Proof.
  intros Hn Hc Hm Hv Hh. cbn [recursiveSetPositions].
  rewrite (deref_Some _ _ _ Hn), Hc, Hm.
  destruct m as [[[f pd] cb] [fw fh]].
  unfold startOffset.
  destruct (Z.eqb_spec (ChildFlowDirection n) FlowVertical); [contradiction|].
  destruct (Z.eqb_spec (ChildFlowDirection n) FlowHorizontal); [contradiction|].
  reflexivity.
Qed.

Lemma unhandled_flow_direction_witness :
  recursiveSetPositions (await plainSumRules 1) 1 0 (flowExample, mkCursor 3 4)
  = (Fail (ErrUnhandledFlow 7%Z), (flowExample, mkCursor (3 + 0) (4 + 0))).
Proof.
  eapply (unhandled_flow_direction (await plainSumRules 1) 0 0%nat 1%nat [] flowExample
            (mkCursor 3 4)
            (Div 0 None (withFlow (sized (StaticSize 100) (StaticSize 100)) 7%Z) [1%nat])).
  - reflexivity.
  - reflexivity.
  - vm_compute. reflexivity.
  - unfold FlowVertical. cbn. lia.
  - unfold FlowHorizontal. cbn. lia.
Defined.

(** X15. The height of the next top-level node is awaited before the node is
    put on a page.  If that node has no parent, is on no page yet, and its
    height is a fill or a percentage, the await fails with the orphan-node
    error, and so does the whole loop. *)
Theorem next_node_height_is_awaited_off_page (R : ruleTable) (k depth : nat)
        (nd next : naddr) (rest : list naddr) (st st1 : PState) (nn : LayoutNode)
        (pct : Size) :
  (forall aw h a p, R fn_heightFill aw h a p = heightFill aw h a p) ->
  (forall aw h a p, R fn_heightPercentage aw h a p = heightPercentage aw h a p) ->
  placeNode (await R (S k)) depth nd st = (Ret tt, st1) ->
  nodes (pheap st1) !! next = Some nn ->
  Parent nn = None -> OnPage nn = None ->
  Height nn = bindTo next HeightFill \/ Height nn = bindTo next (HeightPercentage pct) ->
  fst (placeAll (await R (S k)) depth (nd :: next :: rest) st) = Fail orphanHeight.
Proof.
  intros HF HP Hplace Hnn Hp Hpg Hh. cbn [placeAll]. rewrite Hplace. unfold breakPage.
  rewrite (deref_Some _ _ _ Hnn). cbn [bind].
  assert (E : await R (S k) (pheap st1) (Height nn) = Fail orphanHeight).
  { destruct Hh as [-> | ->];
      cbn [await bindTo HeightFill HeightPercentage newIncompleteFuture node state
           definition params].
    - rewrite HF. unfold heightFill. rewrite (deref_Some _ _ _ Hnn). cbn [bind].
      unfold fillContext. rewrite Hp, Hpg. reflexivity.
    - rewrite HP. unfold heightPercentage. rewrite (deref_Some _ _ _ Hnn). cbn [bind].
      unfold parentDrawRectOf. rewrite Hp, Hpg. reflexivity. }
  rewrite E. reflexivity.
Qed.

Lemma next_node_height_is_awaited_off_page_witness :
  fst (placeAll (await plainSumRules 1) 1 [0; 1]%nat
         (mkPState offPageExample (snd (newDocument 216 279 5)) 0 (mkCursor 5 5)))
  = Fail orphanHeight.
Proof.
  set (st := mkPState offPageExample (snd (newDocument 216 279 5)) 0 (mkCursor 5 5)).
  set (run := placeNode (await plainSumRules 1) 1 0 st).
  assert (H : run = (Ret tt, snd run)) by (vm_compute; reflexivity).
  apply (next_node_height_is_awaited_off_page plainSumRules 0 1 0%nat 1%nat [] st (snd run)
           (Div 1 None (sized (StaticSize 100) HeightFill) []) 0).
  - intros. reflexivity.
  - intros. reflexivity.
  - exact H.
  - vm_compute. reflexivity.
  - reflexivity.
  - reflexivity.
  - left. reflexivity.
Defined.

(** ** A size that waits for itself *)

Section Cycle.

Variable R : ruleTable.
Variable h : Heap.
Variables (a c : naddr) (pn cn : LayoutNode).

Hypothesis Hfill : forall k,
  await R k h (Height pn) = Diverge -> R fn_heightFill (await R k h) h c None = Diverge.
Hypothesis Hintr : forall aw,
  aw (Height cn) = Diverge -> R fn_heightAsChildren aw h a None = Diverge.
Hypothesis HpH : Height pn = bindTo a HeightAsChildren.
Hypothesis HcH : Height cn = bindTo c HeightFill.

Lemma cycle_diverges k :
  await R k h (Height pn) = Diverge /\ await R k h (Height cn) = Diverge.
Proof.
  induction k as [|k [IHp IHc]].
  - rewrite HpH, HcH. split; reflexivity.
  - split.
    + rewrite HpH.
      cbn [await bindTo HeightAsChildren newIncompleteFuture node state definition params].
      apply Hintr. exact IHc.
    + rewrite HcH.
      cbn [await bindTo HeightFill newIncompleteFuture node state definition params].
      apply Hfill. exact IHp.
Qed.

End Cycle.

(** X16. The circular definition the comment of [await] describes.  Take a
    parent whose height is that of its children and whose width is a static
    size, and a first child that is not a visual node, has that parent, and
    whose height fills the parent.  Each height waits for the other:
    awaiting the parent's height uses up any amount of fuel, under either
    listing. *)
Theorem parent_and_child_heights_wait_for_each_other (h : Heap) (a c : naddr)
        (rest : list naddr) (pn cn : LayoutNode) (w : Size) (k : nat) :
  nodes h !! a = Some pn -> nodes h !! c = Some cn ->
  Children pn = c :: rest -> VisualNode cn = None ->
  Height pn = bindTo a HeightAsChildren -> Width pn = bindTo a (StaticSize w) ->
  Parent cn = Some a -> Height cn = bindTo c HeightFill ->
  await plainSumRules k h (Height pn) = Diverge /\
  await intrinsicRules k h (Height pn) = Diverge.
Proof.
  intros Hpn Hcn Hch Hv HpH HpW HcP HcH. split.
  - refine (proj1 (cycle_diverges plainSumRules h a c pn cn _ _ HpH HcH k)).
    + intros k' IHp. cbn [plainSumRules sharedRule]. unfold heightFill.
      rewrite (deref_Some _ _ _ Hcn). cbn [bind].
      unfold fillContext. rewrite HcP, (deref_Some _ _ _ Hpn). cbn [bind].
      unfold getDrawRect. rewrite IHp.
      rewrite HpW. destruct k'; reflexivity.
    + intros aw Haw. cbn [plainSumRules sharedRule]. unfold PlainSum.heightAsChildren.
      rewrite (deref_Some _ _ _ Hpn). cbn [bind]. rewrite Hch.
      cbn [PlainSum.sumAwaited]. rewrite (deref_Some _ _ _ Hcn). cbn [bind].
      rewrite Haw. reflexivity.
  - refine (proj1 (cycle_diverges intrinsicRules h a c pn cn _ _ HpH HcH k)).
    + intros k' IHp. cbn [intrinsicRules]. unfold Intrinsic.heightFill.
      rewrite (deref_Some _ _ _ Hcn). cbn [bind].
      unfold Intrinsic.fillContext. rewrite HcP, (deref_Some _ _ _ Hpn). cbn [bind].
      unfold Intrinsic.getDrawHeight. rewrite IHp. reflexivity.
    + intros aw Haw. cbn [intrinsicRules]. unfold Intrinsic.heightAsChildren.
      rewrite (deref_Some _ _ _ Hpn). cbn [bind].
      assert (Hleaf : Intrinsic.wrappedVisual h pn = Ret None).
      { unfold Intrinsic.wrappedVisual. rewrite Hch. destruct rest; [|reflexivity].
        rewrite (deref_Some _ _ _ Hcn). cbn [bind]. rewrite Hv. reflexivity. }
      rewrite Hleaf. cbn [bind]. rewrite Hch.
      cbn [Intrinsic.maxExtents Intrinsic.sumExtents].
      rewrite (deref_Some _ _ _ Hcn). cbn [bind].
      unfold Intrinsic.getBoundingHeight. rewrite Haw. cbn [bind].
      destruct (Z.eqb (ChildFlowDirection pn) FlowHorizontal); reflexivity.
Qed.

Lemma parent_and_child_heights_wait_for_each_other_witness :
  await plainSumRules 50 cycleExample (bindTo 0 HeightAsChildren) = Diverge /\
  await intrinsicRules 50 cycleExample (bindTo 0 HeightAsChildren) = Diverge.
Proof.
  apply (parent_and_child_heights_wait_for_each_other cycleExample 0%nat 1%nat []
           (Div 0 None (sized (StaticSize 100) HeightAsChildren) [1%nat])
           (Div 1 (Some 0%nat) (sized (StaticSize 10) HeightFill) []) 100 50);
    reflexivity.
Defined.

(** ** CreateDocumentTree *)

Lemma setContextOfChildren_pages_of rec :
  (forall c h h', rec c h = Ret h' -> pages h' = pages h) ->
  forall cs h h', setContextOfChildren rec cs h = Ret h' -> pages h' = pages h.
Proof.
  intros Hrec. induction cs as [|c rest IH]; intros h h' H; cbn [setContextOfChildren] in H.
  - inversion H. reflexivity.
  - destruct (rec c h) as [h2| | |] eqn:E2; try discriminate.
    cbn [bind] in H. apply Hrec in E2. rewrite <- E2. apply IH. exact H.
Qed.

Lemma setDocumentRendererContext_pages r d : forall a h h',
  setDocumentRendererContext d r a h = Ret h' -> pages h' = pages h.
Proof.
  induction d as [|d IH]; intros a h h' H; cbn [setDocumentRendererContext] in H;
    destruct (nodes h !! a) as [n|]; try discriminate.
  - destruct (Children n); [inversion H; reflexivity|discriminate].
  - destruct (Children n) as [|c0 cs0] eqn:Ec; [inversion H; reflexivity|].
    apply (setContextOfChildren_pages_of _ IH) in H. exact H.
Qed.

Lemma setContextOfChildren_pages r d : forall cs h h',
  setContextOfChildren (setDocumentRendererContext d r) cs h = Ret h' ->
  pages h' = pages h.
Proof. apply setContextOfChildren_pages_of. apply setDocumentRendererContext_pages. Qed.

Local Close Scope float_scope.

(** X17. The pages of a built document.  Starting from the single page of
    [newDocument], [CreateDocumentTree] ends, with whatever outcome, with a
    document whose pages all have the width, height and margin of that page,
    and with no more pages than top-level nodes (one page when there is no
    node). *)
Theorem built_document_pages (aw : Heap -> Future -> outcome Size) (depth : nat)
        (renderer : option DocumentRenderer) (nds : list naddr) (nodes0 : list LayoutNode)
        (w ht margin : Size) (res : outcome unit) (st' : PState) :
  CreateDocumentTree aw depth renderer
    (mkHeap nodes0 (fst (newDocument w ht margin))) (snd (newDocument w ht margin)) nds
  = (res, st') ->
  Forall (sameShape (newPage w ht (NewSingletonSizeQuad margin))) (pages (pheap st')) /\
  length (DocChildren (pdoc st')) <= Nat.max 1 (length nds) /\
  length (pages (pheap st')) = length (DocChildren (pdoc st')).
Proof.
  unfold CreateDocumentTree. intros H.
  set (t := newPage w ht (NewSingletonSizeQuad margin)).
  assert (Ht : Forall (sameShape t) [t]) by (repeat constructor).
  destruct (setContextOfChildren _ nds _) as [h1| | |] eqn:E1;
    try (inversion H; subst; cbn; split; [exact Ht|split; lia]).
  apply setContextOfChildren_pages in E1. cbn [pages] in E1.
  change (snd (newDocument w ht margin)) with (mkDocument [0]) in H.
  change (fst (newDocument w ht margin)) with [t] in E1.
  unfold resolveNodeRectPositions, derefPage in H. cbn [DocChildren] in H.
  rewrite E1 in H. cbn [lookup list_lookup] in H.
  assert (Ht1 : Forall (sameShape t) (pages h1)) by (rewrite E1; exact Ht).
  pose proof (placeAll_shapes aw depth t nds
                (mkPState h1 (mkDocument [0]) 0
                          (mkCursor (qleft (PageMargin t)) (qtop (PageMargin t))))
                st' res Ht1 H) as Hs.
  destruct (placeAll_growth _ _ _ _ _ _ H) as (added & Hd & _ & Hl & Hn).
  cbn [pheap pdoc DocChildren] in Hd, Hl. rewrite E1 in Hl. cbn [length] in Hl.
  split; [exact Hs|]. rewrite Hd, Hl, length_app. cbn [length]. split; lia.
Qed.

Local Open Scope float_scope.

Lemma built_document_pages_witness :
  Nat.le (length (DocChildren (pdoc (snd (CreateDocumentTree (await plainSumRules 1) 1
                                     (Some fixedRenderer) breakExample
                                     (snd (newDocument 216 279 5)) [0; 1]%nat))))) 2.
Proof.
  exact (proj1 (proj2 (built_document_pages (await plainSumRules 1) 1 (Some fixedRenderer)
                          [0; 1]%nat (nodes breakExample) 216 279 5
                          (fst (CreateDocumentTree (await plainSumRules 1) 1
                                  (Some fixedRenderer) breakExample
                                  (snd (newDocument 216 279 5)) [0; 1]%nat))
                          (snd (CreateDocumentTree (await plainSumRules 1) 1
                                  (Some fixedRenderer) breakExample
                                  (snd (newDocument 216 279 5)) [0; 1]%nat))
                          (surjective_pairing _)))).
Defined.

(** ** Strings of the PDF renderer *)

Local Open Scope string_scope.

(** X18. The border string tells the four sides apart: two quads with the same
    border string are the same quad. *)
Theorem border_string_identifies_quad (q1 q2 : BooleanQuad) :
  borderStringFromBooleanQuad q1 = borderStringFromBooleanQuad q2 -> q1 = q2.
Proof.
  destruct q1 as [[] [] [] []], q2 as [[] [] [] []]; cbn; intros H;
    first [reflexivity | discriminate H].
Qed.

Lemma border_string_identifies_quad_witness :
  mkBooleanQuad true false true false = mkBooleanQuad true false true false.
Proof.
  exact (border_string_identifies_quad (mkBooleanQuad true false true false)
           (mkBooleanQuad true false true false) eq_refl).
Defined.

Lemma splitOnDot_nonempty s : splitOnDot s <> [].
Proof.
  destruct s as [|c rest]; cbn; [discriminate|].
  destruct (Ascii.eqb c "."); [discriminate|].
  destruct (splitOnDot rest); discriminate.
Qed.

Lemma splitOnDot_dotFree s : dotFree s = true -> splitOnDot s = [s].
Proof.
  induction s as [|c rest IH]; cbn; [reflexivity|].
  destruct (Ascii.eqb c "."); cbn; [discriminate|].
  intros H. rewrite (IH H). reflexivity.
Qed.

Lemma last_splitOnDot_cons c rest :
  last (splitOnDot (String c rest)) =
  match splitOnDot rest with
  | [p] => if Ascii.eqb c "." then Some p else Some (String c p)
  | _ => last (splitOnDot rest)
  end.
Proof.
  cbn [splitOnDot]. pose proof (splitOnDot_nonempty rest) as Hne.
  destruct (splitOnDot rest) as [|p [|p2 ps]]; [contradiction| |];
    destruct (Ascii.eqb c "."); reflexivity.
Qed.

Lemma splitOnDot_with_dot (s ext : string) :
  exists p q ps, splitOnDot (s ++ "." ++ ext) = p :: q :: ps.
Proof.
  induction s as [|c rest (p & q & ps & IH)].
  - cbn [append]. change ("." ++ ext) with (String "." ext).
    cbn [splitOnDot]. rewrite Ascii.eqb_refl.
    pose proof (splitOnDot_nonempty ext) as Hne.
    destruct (splitOnDot ext) as [|q ps]; [contradiction|]. eauto.
  - change (String c rest ++ "." ++ ext) with (String c (rest ++ "." ++ ext)).
    cbn [splitOnDot]. rewrite IH. destruct (Ascii.eqb c "."); eauto.
Qed.

Lemma last_split_after_dot (s ext : string) :
  dotFree ext = true -> last (splitOnDot (s ++ "." ++ ext)) = Some ext.
Proof.
  intros Hd. induction s as [|c rest IH].
  - cbn [append]. change ("." ++ ext) with (String "." ext).
    rewrite last_splitOnDot_cons, (splitOnDot_dotFree _ Hd). reflexivity.
  - change (String c rest ++ "." ++ ext) with (String c (rest ++ "." ++ ext)).
    rewrite last_splitOnDot_cons.
    destruct (splitOnDot_with_dot rest ext) as (p & q & ps & E).
    rewrite E in *. exact IH.
Qed.

(** X19. The image type depends only on what follows the last dot of the
    file name, and a name without any dot is taken as its own extension. *)
Theorem image_type_reads_last_extension (s ext : string) :
  dotFree ext = true ->
  imageTypeFromFileName (s ++ "." ++ ext) = imageTypeFromFileName ext.
Proof.
  intros Hd. unfold imageTypeFromFileName, lastPiece.
  rewrite (last_split_after_dot s ext Hd), (splitOnDot_dotFree _ Hd). reflexivity.
Qed.

Lemma image_type_reads_last_extension_witness :
  imageTypeFromFileName "./example/example_image.jpg" = imageTypeFromFileName "jpg".
Proof.
  exact (image_type_reads_last_extension "./example/example_image" "jpg" eq_refl).
Defined.

(** X20. The image type is one of PNG, JPEG, GIF or the empty string, and it
    is never a panic: the split of a string has at least one piece. *)
Theorem image_type_is_known_or_empty (src : string) :
  imageTypeFromFileName src = Ret "PNG" \/ imageTypeFromFileName src = Ret "JPEG" \/
  imageTypeFromFileName src = Ret "GIF" \/ imageTypeFromFileName src = Ret "".
Proof.
  unfold imageTypeFromFileName, lastPiece.
  pose proof (splitOnDot_nonempty src) as Hne.
  destruct (last (splitOnDot src)) as [ext|] eqn:E.
  - cbn [bind].
    destruct (String.eqb ext "png"); [auto|].
    destruct (String.eqb ext "jpg"); [auto|].
    destruct (String.eqb ext "jpeg"); [auto|].
    destruct (String.eqb ext "gif"); auto.
  - apply last_None in E. contradiction.
Qed.

Local Close Scope string_scope.
